(** * A shallow embedding of the volumetric ray-marcher

    The development follows the C++ sources:
    - [volume_render.cpp]: [Vec3], [Ray], [Camera], [VolumeRenderer]
      ([intersectBox], [traceShadowRay], [trace]), [saveToPPM], [main];
    - [Image.h]: [Image] with [setPixel], [getPixel], [fill] and
      [savePPM];
    - [Camera.h]: the Eigen based camera with [updateVectors],
      [generateRay], [getViewMatrix] and [getProjectionMatrix];
    - [Lighting.h]: [Light] and [Lighting] with [reflect] and
      [calculatePhongLighting];
    - [main.cpp]: [intersectGround], [getGroundColor] and [main];
    - [analyze_vdb.cpp]: [valueToColor], [saveSliceToPPM],
      [visualizeGridSlice] and the usage check of its [main].

    The sources compute on [float] and [double].  The program text is
    embedded once, over an interface of arithmetic operations ([Arith],
    [Libm], [Rounding], [Power]), and read at these instances:
    - IEEE-754 binary32 and binary64, through [SpecFloat] (every basic
      operation is correctly rounded; infinities, signed zeros and NaN
      are values);
    - the real numbers, where rounding is idealised away.
    Statements that hold whatever the arithmetic does are proved over the
    interface; bounds and termination are proved at the real instance;
    the behaviour at infinities and the effect of the rounded additions
    on the marches are proved at binary32.  Operations on [int] are
    checked against its range ([int32]), and a buffer is a list stored
    into by index ([store]). *)

From Stdlib Require Import ZArith List Bool Lia String Ascii.
From Stdlib Require Import Reals Lra.
From Stdlib Require Import Floats.SpecFloat.
From Stdlib Require Import DecimalString DecimalPos DecimalZ.
Import ListNotations.

Set Implicit Arguments.

(* ================================================================== *)
(** * Arithmetic interface *)

(** The operations the sources apply to [float] and [double] values. *)
Class Arith (F : Type) : Type := {
  fofZ : Z -> F;                (* an integral literal, or int -> float *)
  fadd : F -> F -> F;
  fsub : F -> F -> F;
  fmul : F -> F -> F;
  fdiv : F -> F -> F;
  fopp : F -> F;
  fsqrt : F -> F;
  flt : F -> F -> bool;         (* a < b *)
  fle : F -> F -> bool;         (* a <= b *)
  ftrunc : F -> option Z        (* float -> integer conversion, toward zero;
                                   [None] where C++ leaves it undefined *)
}.

(** The <cmath> functions and constants used by the sources. *)
Class Libm (F : Type) : Type := {
  fexp : F -> F;                (* std::exp *)
  ftan : F -> F;                (* std::tan *)
  fpi : F                       (* M_PI *)
}.

(** More of <cmath>: std::floor and std::abs; and std::pow. *)
Class Rounding (F : Type) : Type := {
  ffloor : F -> F;              (* std::floor *)
  fabs : F -> F                 (* std::abs *)
}.
Class Power (F : Type) : Type := {
  fpow : F -> F -> F            (* std::pow *)
}.

Declare Scope arith_scope.
Delimit Scope arith_scope with ar.
Notation "x + y" := (fadd x y) : arith_scope.
Notation "x - y" := (fsub x y) : arith_scope.
Notation "x * y" := (fmul x y) : arith_scope.
Notation "x / y" := (fdiv x y) : arith_scope.
Notation "- x" := (fopp x) : arith_scope.
Notation "x <? y" := (flt x y) : arith_scope.
Notation "x <=? y" := (fle x y) : arith_scope.

Section Literals.
Context {F : Type} `{Arith F}.

Definition fzero : F := fofZ 0.
Definition fone : F := fofZ 1.

(** A decimal literal [n/d] with [n] and [d] exactly representable: the
    correctly rounded quotient is the value the compiler gives the
    literal (0.01f, 0.1f, 0.5f). *)
Definition flit (n d : Z) : F := (fofZ n / fofZ d)%ar.

(** [std::max(a, b)] is [(a < b) ? b : a]; [std::min(a, b)] is
    [(b < a) ? b : a]. *)
Definition fmax (a b : F) : F := if (a <? b)%ar then b else a.
Definition fmin (a b : F) : F := if (b <? a)%ar then b else a.

(** [std::clamp(v, lo, hi)] is [(v < lo) ? lo : (hi < v) ? hi : v]. *)
Definition fclamp (v lo hi : F) : F :=
  if (v <? lo)%ar then lo else if (hi <? v)%ar then hi else v.
End Literals.

(* ================================================================== *)
(** * volume_render.cpp: Vec3 and Ray *)

Record Vec3 (F : Type) : Type := mkVec3 { vx : F; vy : F; vz : F }.
Arguments mkVec3 {F} _ _ _.

Record Ray (F : Type) : Type := mkRay { origin : Vec3 F; direction : Vec3 F }.
Arguments mkRay {F} _ _.

Section Vec3Ops.
Context {F : Type} `{Arith F}.
Local Open Scope arith_scope.

(** [Vec3(float x_ = 0, float y_ = 0, float z_ = 0)] called with one
    argument: the other two components take their default, zero. *)
Definition Vec3_1 (x : F) : Vec3 F := mkVec3 x fzero fzero.

Definition vadd (a v : Vec3 F) : Vec3 F :=
  mkVec3 (vx a + vx v) (vy a + vy v) (vz a + vz v).
Definition vsub (a v : Vec3 F) : Vec3 F :=
  mkVec3 (vx a - vx v) (vy a - vy v) (vz a - vz v).
Definition vscale (a : Vec3 F) (f : F) : Vec3 F :=
  mkVec3 (vx a * f) (vy a * f) (vz a * f).
Definition vdivs (a : Vec3 F) (f : F) : Vec3 F :=
  mkVec3 (vx a / f) (vy a / f) (vz a / f).

Definition length (a : Vec3 F) : F :=
  fsqrt (vx a * vx a + vy a * vy a + vz a * vz a).
Definition normalize (a : Vec3 F) : Vec3 F :=
  let l := length a in mkVec3 (vx a / l) (vy a / l) (vz a / l).
Definition dot (a v : Vec3 F) : F :=
  vx a * vx v + vy a * vy v + vz a * vz v.
Definition cross (a v : Vec3 F) : Vec3 F :=
  mkVec3 (vy a * vz v - vz a * vy v)
         (vz a * vx v - vx a * vz v)
         (vx a * vy v - vy a * vx v).
Definition componentMul (a v : Vec3 F) : Vec3 F :=
  mkVec3 (vx a * vx v) (vy a * vy v) (vz a * vz v).
Definition vmax (a b : Vec3 F) : Vec3 F :=
  mkVec3 (fmax (vx a) (vx b)) (fmax (vy a) (vy b)) (fmax (vz a) (vz b)).
Definition vmin (a b : Vec3 F) : Vec3 F :=
  mkVec3 (fmin (vx a) (vx b)) (fmin (vy a) (vy b)) (fmin (vz a) (vz b)).

(** [Ray(o, d)]: the constructor normalizes the direction. *)
Definition Ray_new (o d : Vec3 F) : Ray F := mkRay o (normalize d).
End Vec3Ops.

(** The Eigen expressions of main.cpp, Lighting.h and Camera.h on the
    same triples: a scalar times a vector, and the opposite vector. *)
Section EigenOps.
Context {F : Type} `{Arith F}.
Local Open Scope arith_scope.

Definition smul (f : F) (a : Vec3 F) : Vec3 F :=
  mkVec3 (f * vx a) (f * vy a) (f * vz a).
Definition vneg (a : Vec3 F) : Vec3 F :=
  mkVec3 (- vx a) (- vy a) (- vz a).

(** [static_cast<int>] of a floating value: the value truncated toward
    zero, undefined ([None]) when that is not an [int]. *)
Definition to_int (x : F) : option Z :=
  match ftrunc x with
  | Some z => if ((- 2 ^ 31 <=? z) && (z <? 2 ^ 31))%Z then Some z else None
  | None => None
  end.
End EigenOps.

(* ================================================================== *)
(** * Loops

    A [while] loop over a state, run with fuel.  The body may fail to
    produce a state (an inner loop that ran out of fuel).  The result
    carries the number of iterations performed. *)

Section While.
Variable St : Type.
Variable cond : St -> bool.
Variable body : St -> option St.

Fixpoint while (fuel : nat) (s : St) : option (St * nat) :=
  if cond s then
    match fuel with
    | O => None
    | S fuel' =>
        match body s with
        | None => None
        | Some s' =>
            match while fuel' s' with
            | None => None
            | Some (s'', n) => Some (s'', S n)
            end
        end
    end
  else Some (s, O).

(** The states the loop goes through from [init]: each one is the
    state at a test of the loop condition. *)
Inductive reaches (init : St) : St -> Prop :=
| reaches_init : reaches init init
| reaches_step s s' :
    reaches init s -> cond s = true -> body s = Some s' -> reaches init s'.
End While.

(* ================================================================== *)
(** * volume_render.cpp: VolumeRenderer *)

(** The renderer's members.  [sampleDensity] stands for the private
    method of that name: the grid accessor applied to the cell-centred
    index of a world position (OpenVDB, outside this repository). *)
Record VolumeRenderer (F : Type) : Type := mkRenderer {
  sampleDensity : Vec3 F -> F;
  t0 : Vec3 F;
  t1 : Vec3 F;
  lightDir : Vec3 F;
  stepSize : F
}.

(** The local variables of the loop of [traceShadowRay]. *)
Record ShadowState (F : Type) : Type := mkShadow {
  sh_transmittance : F;
  sh_t : F
}.
Arguments mkShadow {F} _ _.

(** The local variables of the loop of [trace]. *)
Record MarchState (F : Type) : Type := mkMarch {
  m_t : F;
  m_color : Vec3 F;
  m_transmittance : F
}.
Arguments mkMarch {F} _ _ _.

Section Renderer.
Context {F : Type} `{Arith F} `{Libm F}.
Local Open Scope arith_scope.

(** 0.01f, the transmittance at which a march stops. *)
Definition cutoff : F := flit 1 100.
(** 20.0f, the length of a shadow march. *)
Definition shadowMax : F := fofZ 20.

Variable vr : VolumeRenderer F.

(** The two candidate parameters of one axis, [(face - origin) * (1/d)],
    ordered: the smaller is where the ray enters the slab of that axis,
    the larger where it leaves it. *)
Definition axisNear (lo hi o d : F) : F :=
  fmin ((lo - o) * (fone / d)) ((hi - o) * (fone / d)).
Definition axisFar (lo hi o d : F) : F :=
  fmax ((lo - o) * (fone / d)) ((hi - o) * (fone / d)).

(** The same for the axis selected by the projection [p]. *)
Definition nearOf (ray : Ray F) (p : Vec3 F -> F) : F :=
  axisNear (p (t0 vr)) (p (t1 vr)) (p (origin ray)) (p (direction ray)).
Definition farOf (ray : Ray F) (p : Vec3 F -> F) : F :=
  axisFar (p (t0 vr)) (p (t1 vr)) (p (origin ray)) (p (direction ray)).

(** What [intersectBox] reports for an interval [tMin, tMax]. *)
Definition slabResult (tMin tMax : F) : bool * F * F :=
  ((tMin <=? tMax) && (fzero <? tMax), tMin, tMax).

(** [intersectBox]: the hit flag, then the out-parameters tMin, tMax. *)
Definition intersectBox (ray : Ray F) : bool * F * F :=
  let d := direction ray in
  let invDir := mkVec3 (fone / vx d) (fone / vy d) (fone / vz d) in
  let tMin3 := componentMul (vsub (t0 vr) (origin ray)) invDir in
  let tMax3 := componentMul (vsub (t1 vr) (origin ray)) invDir in
  let t1' := vmax tMin3 tMax3 in
  let t2 := vmin tMin3 tMax3 in
  let tMin := fmax (fmax (vx t2) (vy t2)) (vz t2) in
  let tMax := fmin (fmin (vx t1') (vy t1')) (vz t1') in
  ((tMin <=? tMax) && (fzero <? tMax), tMin, tMax).

(** [traceShadowRay]: condition and body of its loop. *)
Definition shadowCond (s : ShadowState F) : bool :=
  (sh_t s <? shadowMax) && (cutoff <? sh_transmittance s).

Definition shadowSample (pos : Vec3 F) (s : ShadowState F) : Vec3 F :=
  vadd pos (vscale (lightDir vr) (sh_t s)).
Definition shadowDensity (pos : Vec3 F) (s : ShadowState F) : F :=
  sampleDensity vr (shadowSample pos s).

Definition shadowBody (pos : Vec3 F) (s : ShadowState F) : ShadowState F :=
  let samplePos := shadowSample pos s in
  let density := sampleDensity vr samplePos in
  mkShadow (sh_transmittance s * fexp (- density * stepSize vr))
           (sh_t s + stepSize vr).

Definition shadowInit : ShadowState F := mkShadow fone fzero.

(** The states of the shadow march from [pos]. *)
Definition shadowReaches (pos : Vec3 F) : ShadowState F -> Prop :=
  reaches shadowCond (fun s => Some (shadowBody pos s)) shadowInit.

Definition shadowLoop (fuel : nat) (pos : Vec3 F)
  : option (ShadowState F * nat) :=
  while shadowCond (fun s => Some (shadowBody pos s)) fuel shadowInit.

Definition traceShadowRay (fuel : nat) (pos : Vec3 F) : option F :=
  match shadowLoop fuel pos with
  | Some (s, _) => Some (sh_transmittance s)
  | None => None
  end.

(** [trace]: condition and body of its loop.  The generator argument
    [rng] is never read and is left out. *)
Definition traceCond (tMax : F) (s : MarchState F) : bool :=
  (m_t s <? tMax) && (cutoff <? m_transmittance s).

Definition samplePoint (ray : Ray F) (s : MarchState F) : Vec3 F :=
  vadd (origin ray) (vscale (direction ray) (m_t s)).

(** 1.0f / (4.0f * M_PI) *)
Definition phase : F := fone / (fofZ 4 * fpi).

Definition traceBody (fuel : nat) (ray : Ray F) (s : MarchState F)
  : option (MarchState F) :=
  let pos := samplePoint ray s in
  let density := sampleDensity vr pos in
  if fzero <? density then
    match traceShadowRay fuel pos with
    | None => None
    | Some lightDensity =>
        let extinction := density * stepSize vr in
        let transmittance := m_transmittance s * fexp (- extinction) in
        let scatteredLight := vscale (vscale (Vec3_1 fone) phase) lightDensity in
        let color :=
          vadd (m_color s)
               (vscale (vscale scatteredLight transmittance) extinction) in
        Some (mkMarch (m_t s + stepSize vr) color transmittance)
    end
  else Some (mkMarch (m_t s + stepSize vr) (m_color s) (m_transmittance s)).

Definition traceInit (tMin : F) : MarchState F :=
  mkMarch tMin (Vec3_1 fzero) fone.

(** The states of the primary march. *)
Definition traceReaches (fuel : nat) (ray : Ray F) (tMin tMax : F)
  : MarchState F -> Prop :=
  reaches (traceCond tMax) (traceBody fuel ray) (traceInit tMin).

Definition traceLoop (fuel : nat) (ray : Ray F) (tMin tMax : F)
  : option (MarchState F * nat) :=
  while (traceCond tMax) (traceBody fuel ray) fuel (traceInit tMin).

Definition trace (fuel : nat) (ray : Ray F) : option (Vec3 F) :=
  let '(hit, tMin, tMax) := intersectBox ray in
  if negb hit then Some (Vec3_1 fzero)
  else
    match traceLoop fuel ray tMin tMax with
    | Some (s, _) => Some (m_color s)
    | None => None
    end.
End Renderer.

(* ================================================================== *)
(** * volume_render.cpp: Camera *)

Record Camera (F : Type) : Type := mkCamera {
  position : Vec3 F;
  forward : Vec3 F;
  right : Vec3 F;
  up : Vec3 F
}.
Arguments mkCamera {F} _ _ _ _.

Section CameraOps.
Context {F : Type} `{Arith F} `{Libm F}.
Local Open Scope arith_scope.

(** std::tan(fov * 0.5f * M_PI / 180.0f) *)
Definition tanHalfFov (fov : F) : F :=
  ftan (fov * flit 1 2 * fpi / fofZ 180).

(** The constructor: the local [up] and the member [right] are
    normalized, then both members are scaled. *)
Definition Camera_new (pos lookAt upVec : Vec3 F) (fov aspect : F) : Camera F :=
  let forward := normalize (vsub lookAt pos) in
  let right := normalize (cross forward upVec) in
  let up := normalize (cross forward right) in
  let tanFov := tanHalfFov fov in
  mkCamera pos forward (vscale right (tanFov * aspect)) (vscale up tanFov).

Definition getRay (c : Camera F) (u v : F) : Ray F :=
  let direction :=
    vadd (vadd (forward c) (vscale (right c) (u * fofZ 2 - fone)))
         (vscale (up c) (v * fofZ 2 - fone)) in
  Ray_new (position c) (normalize direction).
End CameraOps.

(* ================================================================== *)
(** * volume_render.cpp: saveToPPM, and analyze_vdb.cpp: saveSliceToPPM *)

Definition nl : string := String "010" EmptyString.

(** [operator<<] on an [int]: its decimal digits. *)
Definition dec (n : Z) : string := NilZero.string_of_int (Z.to_int n).

(** The header both writers emit. *)
Definition ppmHeader (width height : Z) : string :=
  ("P6" ++ nl ++ dec width ++ " " ++ dec height ++ nl ++ "255" ++ nl)%string.

Definition byte_of_Z (z : Z) : ascii := ascii_of_N (Z.to_N z).

Section SavePPM.
Context {F : Type} `{Arith F}.
Local Open Scope arith_scope.

(** [static_cast<unsigned char>] of a floating value: the value
    truncated toward zero, undefined ([None]) when that is not in
    0..255. *)
Definition to_uchar (x : F) : option Z :=
  match ftrunc x with
  | Some z => if ((0 <=? z) && (z <=? 255))%Z then Some z else None
  | None => None
  end.

(** One channel: std::min(c * 255.0f, 255.0f), then the cast. *)
Definition channelByte (c : F) : option Z :=
  to_uchar (fmin (c * fofZ 255) (fofZ 255)).

Definition pixelBytes (color : Vec3 F) : option (list Z) :=
  match channelByte (vx color), channelByte (vy color), channelByte (vz color) with
  | Some r, Some g, Some b => Some [r; g; b]
  | _, _, _ => None
  end.

Fixpoint bodyBytes (pixels : list (Vec3 F)) : option (list Z) :=
  match pixels with
  | [] => Some []
  | color :: rest =>
      match pixelBytes color, bodyBytes rest with
      | Some b, Some bs => Some (b ++ bs)
      | _, _ => None
      end
  end.

(** [saveToPPM]: the contents written to the file [filename]. *)
Definition saveToPPM (pixels : list (Vec3 F)) (width height : Z)
  : option string :=
  match bodyBytes pixels with
  | Some bs =>
      Some (ppmHeader width height ++ string_of_list_ascii (map byte_of_Z bs))%string
  | None => None
  end.
End SavePPM.

(** analyze_vdb.cpp: [Color] holds three [unsigned char]. *)
Record Color : Type := mkColor { c_r : Z; c_g : Z; c_b : Z }.

Definition sliceBytes (pixels : list Color) : list Z :=
  flat_map (fun color => [c_r color; c_g color; c_b color]) pixels.

Definition saveSliceToPPM (pixels : list Color) (width height : Z) : string :=
  (ppmHeader width height ++ string_of_list_ascii (map byte_of_Z (sliceBytes pixels)))%string.

(* ================================================================== *)
(** * volume_render.cpp: main *)

(** A call that may throw a [std::exception] carrying [what()]. *)
Inductive Exc (A : Type) : Type :=
| Ok (a : A)
| Throw (what : string).
Arguments Ok {A} _.
Arguments Throw {A} _.

(** What the process leaves behind: its exit status, the text sent to
    the two streams, and the files written. *)
Record Outcome : Type := mkOutcome {
  status : Z;
  out : string;
  err : string;
  written : list (string * string)
}.

(** What [main] takes from an OpenVDB float grid: the corners of
    [evalActiveVoxelBoundingBox] and the value at a world position. *)
Record Grid (F : Type) : Type := mkGrid {
  boundsMin : Z * Z * Z;
  boundsMax : Z * Z * Z;
  gridValue : Vec3 F -> F
}.

Fixpoint mapM {A B : Type} (f : A -> option B) (l : list A) : option (list B) :=
  match l with
  | [] => Some []
  | a :: rest =>
      match f a, mapM f rest with
      | Some b, Some bs => Some (b :: bs)
      | _, _ => None
      end
  end.

(** The values of a loop counter [for (int i = 0; i < n; ++i)]. *)
Definition range (n : Z) : list Z := map Z.of_nat (seq 0 (Z.to_nat n)).

(** The result of an operation on [int]: undefined ([None]) when it is
    not a value of the type. *)
Definition int32 (z : Z) : option Z :=
  if ((- 2 ^ 31 <=? z) && (z <? 2 ^ 31))%Z then Some z else None.

(** [buf[i] = v] on a [std::vector]: undefined ([None]) outside it. *)
Fixpoint update {A : Type} (n : nat) (v : A) (l : list A) : list A :=
  match l, n with
  | [], _ => []
  | _ :: rest, O => v :: rest
  | a :: rest, S n' => a :: update n' v rest
  end.
Definition store {A : Type} (i : Z) (v : A) (buf : list A) : option (list A) :=
  if ((0 <=? i) && (i <? Z.of_nat (List.length buf)))%Z
  then Some (update (Z.to_nat i) v buf) else None.

(** A loop over pixel coordinates that stores [f (x, y)] at the index
    [y * width + x] of a buffer. *)
Fixpoint storeLoop {A : Type} (f : Z * Z -> option A) (width : Z)
  (coords : list (Z * Z)) (buf : list A) : option (list A) :=
  match coords with
  | [] => Some buf
  | (x, y) :: rest =>
      match f (x, y) with
      | None => None
      | Some v =>
          match store (y * width + x) v buf with
          | None => None
          | Some buf' => storeLoop f width rest buf'
          end
      end
  end.

(** The pixel coordinates in the order of their index [y * width + x]. *)
Definition pixelCoords (width height : Z) : list (Z * Z) :=
  flat_map (fun y => map (fun x => (x, y)) (range width)) (range height).

Section Main.
Context {F : Type} `{Arith F} `{Libm F}.
Local Open Scope arith_scope.

Definition vec3_of_coord (c : Z * Z * Z) : Vec3 F :=
  let '(x, y, z) := c in mkVec3 (fofZ x) (fofZ y) (fofZ z).

(** The constructor of [VolumeRenderer]. *)
Definition VolumeRenderer_new (grid : Grid F) (lightDir : Vec3 F) (stepSize : F)
  : VolumeRenderer F :=
  mkRenderer (gridValue grid)
             (vec3_of_coord (boundsMin grid)) (vec3_of_coord (boundsMax grid))
             (normalize lightDir) stepSize.

Definition renderPixel (fuel : nat) (camera : Camera F) (renderer : VolumeRenderer F)
  (width height : Z) (xy : Z * Z) : option (Vec3 F) :=
  let '(x, y) := xy in
  let u := (fofZ x + flit 1 2) / fofZ width in
  let v := (fofZ y + flit 1 2) / fofZ height in
  trace renderer fuel (getRay camera u v).

(** The two nested loops: every pixel is written once, at its index. *)
Definition renderImage (fuel : nat) (camera : Camera F) (renderer : VolumeRenderer F)
  (width height : Z) : option (list (Vec3 F)) :=
  mapM (renderPixel fuel camera renderer width height) (pixelCoords width height).

(** The same loops on the buffer itself: [pixels(width * height)], a
    vector of zero colours, then the store
    [pixels[y * width + x] = renderer.trace(ray, rng)] for every pixel. *)
Definition renderStores (fuel : nat) (camera : Camera F) (renderer : VolumeRenderer F)
  (width height : Z) : option (list (Vec3 F)) :=
  match int32 (width * height) with
  | None => None
  | Some n =>
      if (n <? 0)%Z then None
      else
        storeLoop (renderPixel fuel camera renderer width height) width
                  (pixelCoords width height)
                  (repeat (Vec3_1 fzero) (Z.to_nat n))
  end.

Definition outputName : string := "volume_render.ppm".

(** [readDensity path] stands for opening the file, [readGrid("density")]
    and the cast to a float grid: it yields the grid or throws.
    [opened] tells whether the output file can be opened: [saveToPPM]
    never tests its stream, so that what it sends to a stream that is
    not open is lost and nothing is reported.  The result is [None] when
    a march does not end within [fuel] steps or a conversion to
    [unsigned char] is undefined. *)
Definition main (fuel : nat) (opened : bool) (readDensity : string -> Exc (Grid F))
  (argv : list string) : option Outcome :=
  if negb (Z.of_nat (List.length argv) =? 2)%Z then
    Some (mkOutcome 1
            ("Usage: " ++ nth 0 argv "" ++ " <vdb_file>" ++ nl)%string "" [])
  else
    match readDensity (nth 1 argv ""%string) with
    | Throw what =>
        Some (mkOutcome 1 "" ("Error: " ++ what ++ nl)%string [])
    | Ok densityGrid =>
        let cameraPos := mkVec3 (fofZ 5) (fofZ 3) (fofZ 5) in
        let lookAt := mkVec3 (fofZ 0) (fofZ 0) (fofZ 0) in
        let fov := fofZ 60 in
        let width := 800%Z in
        let height := 600%Z in
        let aspect := fofZ width / fofZ height in
        let camera :=
          Camera_new cameraPos lookAt (mkVec3 (fofZ 0) (fofZ 1) (fofZ 0)) fov aspect in
        let lightDir := mkVec3 (fofZ (-1)) (fofZ 1) (fofZ (-1)) in
        let renderer := VolumeRenderer_new densityGrid lightDir (flit 1 10) in
        match renderStores fuel camera renderer width height with
        | None => None
        | Some pixels =>
            match saveToPPM pixels width height with
            | None => None
            | Some content =>
                Some (mkOutcome 0
                        ("Rendered image saved to " ++ outputName ++ nl)%string ""
                        (if opened then [(outputName, content)] else []))
            end
        end
    end.

(** analyze_vdb.cpp: the argument check of its [main]; [analyze] stands
    for the rest of the function. *)
Definition analyze_main (analyze : string -> Outcome) (argv : list string)
  : Outcome :=
  if negb (Z.of_nat (List.length argv) =? 2)%Z then
    mkOutcome 1 ("Usage: " ++ nth 0 argv "" ++ " <vdb_file>" ++ nl)%string "" []
  else analyze (nth 1 argv ""%string).
End Main.

(* ================================================================== *)
(** * Image.h *)

Module ImageH.

(** A dense matrix, as its list of rows. *)
Definition Matrix (F : Type) : Type := list (list F).

Fixpoint set_nth {A : Type} (n : nat) (v : A) (l : list A) : list A :=
  match l, n with
  | [], _ => []
  | _ :: rest, O => v :: rest
  | a :: rest, S n' => a :: set_nth n' v rest
  end.

Record Image (F : Type) : Type := mkImage {
  width : Z;
  height : Z;
  red : Matrix F;
  green : Matrix F;
  blue : Matrix F
}.
Arguments mkImage {F} _ _ _ _ _.

Section ImageOps.
Context {F : Type} `{Arith F}.

(** [m(row, col)] read, and [m(row, col) = v]. *)
Definition coeff (m : Matrix F) (row col : Z) : F :=
  nth (Z.to_nat col) (nth (Z.to_nat row) m []) fzero.
Definition setCoeff (m : Matrix F) (row col : Z) (v : F) : Matrix F :=
  set_nth (Z.to_nat row)
          (set_nth (Z.to_nat col) v (nth (Z.to_nat row) m [])) m.

(** [Eigen::MatrixXd::Zero(rows, cols)] *)
Definition Zero (rows cols : Z) : Matrix F :=
  repeat (repeat fzero (Z.to_nat cols)) (Z.to_nat rows).

Definition Image_new (w h : Z) : Image F :=
  mkImage w h (Zero h w) (Zero h w) (Zero h w).

Definition inRange (img : Image F) (x y : Z) : bool :=
  ((0 <=? x) && (x <? width img) && (0 <=? y) && (y <? height img))%Z.

Definition setPixel (img : Image F) (x y : Z) (r g b : F) : Image F :=
  if inRange img x y then
    mkImage (width img) (height img)
            (setCoeff (red img) y x (fclamp r fzero fone))
            (setCoeff (green img) y x (fclamp g fzero fone))
            (setCoeff (blue img) y x (fclamp b fzero fone))
  else img.

(** [getPixel]: the reference parameters r, g, b come in with their
    current values and go out with their values after the call. *)
Definition getPixel (img : Image F) (x y : Z) (rgb : F * F * F) : F * F * F :=
  if inRange img x y then
    (coeff (red img) y x, coeff (green img) y x, coeff (blue img) y x)
  else rgb.

(** The three matrices have [height] rows of [width] entries. *)
Definition hasShape (m : Matrix F) (rows cols : Z) : Prop :=
  List.length m = Z.to_nat rows /\
  Forall (fun row => List.length row = Z.to_nat cols) m.
Definition wellFormed (img : Image F) : Prop :=
  hasShape (red img) (height img) (width img) /\
  hasShape (green img) (height img) (width img) /\
  hasShape (blue img) (height img) (width img).
End ImageOps.

Section ImageFile.
Context {F : Type} `{Arith F}.
Local Open Scope arith_scope.

(** [m.setConstant(v)] *)
Definition setConstant (m : Matrix F) (v : F) : Matrix F :=
  map (map (fun _ => v)) m.

Definition fill (img : Image F) (r g b : F) : Image F :=
  mkImage (width img) (height img)
          (setConstant (red img) (fclamp r fzero fone))
          (setConstant (green img) (fclamp g fzero fone))
          (setConstant (blue img) (fclamp b fzero fone)).

(** One sample of [savePPM]: static_cast<int>(v * 255). *)
Definition sample (v : F) : option Z := to_int (v * fofZ 255).

(** The three samples of pixel (x, y), and those of row y. *)
Definition pixelSamples (img : Image F) (y x : Z) : option (list Z) :=
  match sample (coeff (red img) y x), sample (coeff (green img) y x),
        sample (coeff (blue img) y x) with
  | Some r, Some g, Some b => Some [r; g; b]
  | _, _, _ => None
  end.

Fixpoint rowSamples (img : Image F) (y : Z) (xs : list Z) : option (list Z) :=
  match xs with
  | [] => Some []
  | x :: rest =>
      match pixelSamples img y x, rowSamples img y rest with
      | Some p, Some ps => Some (p ++ ps)
      | _, _ => None
      end
  end.

Fixpoint imageSamples (img : Image F) (ys : list Z) : option (list (list Z)) :=
  match ys with
  | [] => Some []
  | y :: rest =>
      match rowSamples img y (range (width img)), imageSamples img rest with
      | Some r, Some rs => Some (r :: rs)
      | _, _ => None
      end
  end.

(** The text of a row: every sample followed by a space, then a newline. *)
Definition rowText (row : list Z) : string :=
  (String.concat "" (map (fun v => dec v ++ " ") row) ++ nl)%string.

Definition p3Header (width height : Z) : string :=
  ("P3" ++ nl ++ dec width ++ " " ++ dec height ++ nl ++ "255" ++ nl)%string.

(** [savePPM]: [opened] tells whether the output stream could be opened.
    The result is the value returned, the text sent to the error stream
    and the files written. *)
Definition savePPM (opened : bool) (filename : string) (img : Image F)
  : option (bool * string * list (string * string)) :=
  if negb opened then
    Some (false, ("Error: Could not open file " ++ filename ++ nl)%string, [])
  else
    match imageSamples img (range (height img)) with
    | None => None
    | Some rows =>
        Some (true, ""%string,
              [(filename,
                (p3Header (width img) (height img)
                 ++ String.concat "" (map rowText rows))%string)])
    end.
End ImageFile.
End ImageH.

(* ================================================================== *)
(** * Camera.h *)

Module CameraH.

(** [Eigen::Matrix4d], as its four rows, and a vector of four entries. *)
Record Vec4 (F : Type) : Type := mkVec4 { v0 : F; v1 : F; v2 : F; v3 : F }.
Arguments mkVec4 {F} _ _ _ _.
Record Matrix4 (F : Type) : Type := mkMatrix4 {
  row0 : Vec4 F; row1 : Vec4 F; row2 : Vec4 F; row3 : Vec4 F
}.
Arguments mkMatrix4 {F} _ _ _ _.

Record Camera (F : Type) : Type := mkCamera {
  position : Vec3 F;
  lookAt : Vec3 F;
  up : Vec3 F;
  fov : F;
  aspectRatio : F;
  nearPlane : F;
  farPlane : F;
  forward : Vec3 F;
  right : Vec3 F;
  upVector : Vec3 F
}.
Arguments mkCamera {F} _ _ _ _ _ _ _ _ _ _.

Section CameraOps.
Context {F : Type} `{Arith F}.
Local Open Scope arith_scope.

(** Eigen's [normalized()]: the vector divided by its norm when the
    squared norm is positive, the vector itself otherwise. *)
Definition normalized (v : Vec3 F) : Vec3 F :=
  let z := dot v v in
  if fzero <? z then vdivs v (fsqrt z) else v.

Definition updateVectors (c : Camera F) : Camera F :=
  let forward := normalized (vsub (lookAt c) (position c)) in
  let right := normalized (cross forward (up c)) in
  let upVector := normalized (cross right forward) in
  mkCamera (position c) (lookAt c) (up c) (fov c) (aspectRatio c)
           (nearPlane c) (farPlane c) forward right upVector.

(** The constructor stores its arguments and calls [updateVectors],
    which assigns the three derived members (they hold no value before:
    the zero vector stands for that). *)
Definition Camera_new (pos target upDir : Vec3 F) (fieldOfView ratio near far : F)
  : Camera F :=
  let none := mkVec3 fzero fzero fzero in
  updateVectors (mkCamera pos target upDir fieldOfView ratio near far none none none).

Definition setPosition (c : Camera F) (pos : Vec3 F) : Camera F :=
  updateVectors (mkCamera pos (lookAt c) (up c) (fov c) (aspectRatio c)
                          (nearPlane c) (farPlane c) (forward c) (right c) (upVector c)).
Definition setLookAt (c : Camera F) (target : Vec3 F) : Camera F :=
  updateVectors (mkCamera (position c) target (up c) (fov c) (aspectRatio c)
                          (nearPlane c) (farPlane c) (forward c) (right c) (upVector c)).
Definition setUp (c : Camera F) (upDir : Vec3 F) : Camera F :=
  updateVectors (mkCamera (position c) (lookAt c) upDir (fov c) (aspectRatio c)
                          (nearPlane c) (farPlane c) (forward c) (right c) (upVector c)).
End CameraOps.

Section CameraRays.
Context {F : Type} `{Arith F} `{Libm F}.
Local Open Scope arith_scope.

(** [generateRay]: the direction through the point (u, v) of the
    viewport. *)
Definition generateRay (c : Camera F) (u v : F) : Vec3 F :=
  let fovRad := fov c * fpi / fofZ 180 in
  let viewportHeight := fofZ 2 * ftan (fovRad / fofZ 2) in
  let viewportWidth := viewportHeight * aspectRatio c in
  let pixelX := (u - flit 1 2) * viewportWidth in
  let pixelY := (v - flit 1 2) * viewportHeight in
  let rayDir :=
    vadd (vadd (forward c) (vscale (right c) pixelX))
         (vscale (upVector c) pixelY) in
  normalized rayDir.

(** [getViewMatrix]: the identity, then the three rows of the rotation
    block and the first three entries of the last column are assigned. *)
Definition getViewMatrix (c : Camera F) : Matrix4 F :=
  let z := vneg (forward c) in
  let x := right c in
  let y := upVector c in
  let t := vneg (position c) in
  mkMatrix4 (mkVec4 (vx x) (vy x) (vz x) (vx t))
            (mkVec4 (vx y) (vy y) (vz y) (vy t))
            (mkVec4 (vx z) (vy z) (vz z) (vz t))
            (mkVec4 fzero fzero fzero fone).

(** [getProjectionMatrix]: zero, then five entries are assigned. *)
Definition getProjectionMatrix (c : Camera F) : Matrix4 F :=
  let fovRad := fov c * fpi / fofZ 180 in
  let tanHalfFov := ftan (fovRad / fofZ 2) in
  mkMatrix4
    (mkVec4 (fone / (aspectRatio c * tanHalfFov)) fzero fzero fzero)
    (mkVec4 fzero (fone / tanHalfFov) fzero fzero)
    (mkVec4 fzero fzero
            (- (farPlane c + nearPlane c) / (farPlane c - nearPlane c))
            (- fofZ 2 * farPlane c * nearPlane c / (farPlane c - nearPlane c)))
    (mkVec4 fzero fzero (- fone) fzero).
End CameraRays.
End CameraH.

(* ================================================================== *)
(** * Lighting.h *)

Module LightingH.

Record Light (F : Type) : Type := mkLight {
  position : Vec3 F;
  color : Vec3 F;
  intensity : F;
  radius : F
}.
Arguments mkLight {F} _ _ _ _.

Record Lighting (F : Type) : Type := mkLighting {
  lights : list (Light F);
  ambientCoefficient : F;
  diffuseCoefficient : F;
  specularCoefficient : F;
  shininess : F
}.
Arguments mkLighting {F} _ _ _ _ _.

Section LightingOps.
Context {F : Type} `{Arith F} `{Power F}.
Local Open Scope arith_scope.

(** The constructor: no light, and the four coefficients 0.2, 0.8, 0.5
    and 16.0. *)
Definition Lighting_new : Lighting F :=
  mkLighting [] (flit 2 10) (flit 8 10) (flit 1 2) (fofZ 16).

(** [addLight] appends ([push_back]); [clearLights] empties. *)
Definition addLight (l : Lighting F) (light : Light F) : Lighting F :=
  mkLighting (lights l ++ [light]) (ambientCoefficient l) (diffuseCoefficient l)
             (specularCoefficient l) (shininess l).
Definition clearLights (l : Lighting F) : Lighting F :=
  mkLighting [] (ambientCoefficient l) (diffuseCoefficient l)
             (specularCoefficient l) (shininess l).

(** incident - 2.0 * incident.dot(normal) * normal *)
Definition reflect (incident normal : Vec3 F) : Vec3 F :=
  vsub incident (smul (fofZ 2 * dot incident normal) normal).

(** What one light adds to [totalLight]. *)
Definition lightTerm (l : Lighting F) (point normal viewDir baseColor : Vec3 F)
  (light : Light F) : Vec3 F :=
  let lightDir := CameraH.normalized (vsub (position light) point) in
  let distance := length (vsub (position light) point) in
  let attenuation :=
    fone / (fone + flit 5 100 * distance + flit 1 1000 * distance * distance) in
  let lightContribution := mkVec3 fzero fzero fzero in
  let lightContribution :=
    vadd lightContribution (smul (ambientCoefficient l) baseColor) in
  let diffuseFactor := fmax fzero (dot normal lightDir) in
  let lightContribution :=
    vadd lightContribution (smul (diffuseCoefficient l * diffuseFactor) baseColor) in
  let reflectDir := reflect (vneg lightDir) normal in
  let specularFactor := fpow (fmax fzero (dot reflectDir viewDir)) (shininess l) in
  let lightContribution :=
    vadd lightContribution (smul (specularCoefficient l * specularFactor) (color light)) in
  vscale (vscale lightContribution attenuation) (intensity light).

(** [cwiseMax(0.0).cwiseMin(1.0)] *)
Definition clamp01 (v : Vec3 F) : Vec3 F :=
  mkVec3 (fmin (fmax (vx v) fzero) fone) (fmin (fmax (vy v) fzero) fone)
         (fmin (fmax (vz v) fzero) fone).

Definition calculatePhongLighting (l : Lighting F)
  (point normal viewDir baseColor : Vec3 F) : Vec3 F :=
  let totalLight :=
    fold_left (fun total light =>
                 vadd total (lightTerm l point normal viewDir baseColor light))
              (lights l) (mkVec3 fzero fzero fzero) in
  clamp01 totalLight.
End LightingOps.
End LightingH.

(* ================================================================== *)
(** * main.cpp *)

Module MainCpp.

(** The values of a loop counter [for (int i = lo; i <= hi; ++i)]. *)
Definition rangeIncl (lo hi : Z) : list Z :=
  map (fun k => (lo + Z.of_nat k)%Z) (seq 0 (Z.to_nat (hi - lo + 1))).

Section Ground.
Context {F : Type} `{Arith F} `{Rounding F}.
Local Open Scope arith_scope.

(** [intersectGround]: the value returned, and the out-parameter [t],
    which comes in with its current value. *)
Definition intersectGround (rayOrigin rayDir : Vec3 F) (t : F) : bool * F :=
  if fabs (vy rayDir) <? flit 1 1000000 then (false, t)
  else
    let t := - vy rayOrigin / vy rayDir in
    (fzero <? t, t).

Definition lightGray : Vec3 F := mkVec3 (flit 8 10) (flit 8 10) (flit 8 10).
Definition darkGray : Vec3 F := mkVec3 (flit 2 10) (flit 2 10) (flit 2 10).

(** [getGroundColor]: [%] is the remainder of the truncated division;
    the sum [x + z] is undefined ([None]) when it is not an [int]. *)
Definition getGroundColor (point : Vec3 F) : option (Vec3 F) :=
  match to_int (ffloor (vx point / fofZ 2)), to_int (ffloor (vz point / fofZ 2)) with
  | Some x, Some z =>
      if negb ((- 2 ^ 31 <=? x + z) && (x + z <? 2 ^ 31))%Z then None
      else if (Z.rem (x + z) 2 =? 0)%Z then Some lightGray else Some darkGray
  | _, _ => None
  end.
End Ground.

Section Scene.
Context {F : Type} `{Arith F} `{Libm F} `{Rounding F} `{Power F}.
Local Open Scope arith_scope.

Definition width : Z := 800.
Definition height : Z := 600.

Definition camera : CameraH.Camera F :=
  CameraH.Camera_new (mkVec3 (fofZ 0) (fofZ 10) (fofZ 20))
                     (mkVec3 (fofZ 0) (fofZ 0) (fofZ 0))
                     (mkVec3 (fofZ 0) (fofZ 1) (fofZ 0))
                     (fofZ 60) (fofZ width / fofZ height)
                     (flit 1 10) (fofZ 1000).

Definition gridSize : Z := 5.
Definition spacing : F := fofZ 1.
Definition lightHeight : F := fofZ 5.
Definition lightRadius : F := flit 1 1000.

Definition gridLight (i j : Z) : LightingH.Light F :=
  LightingH.mkLight
    (mkVec3 (fofZ i * spacing) lightHeight (fofZ j * spacing))
    (mkVec3 (fofZ i / fofZ 10) (fofZ j / fofZ 10) (fofZ 0))
    (fofZ 2) lightRadius.

(** The two nested loops that add the lights, [i] outside. *)
Definition lighting : LightingH.Lighting F :=
  fold_left LightingH.addLight
    (flat_map (fun i => map (fun j => gridLight i j)
                            (rangeIncl (- (Z.quot gridSize 2)) (Z.quot gridSize 2)))
              (rangeIncl (- (Z.quot gridSize 2)) (Z.quot gridSize 2)))
    LightingH.Lighting_new.

(** The colour given to [setPixel] for pixel (x, y).  The local [t] holds
    no value before [intersectGround] assigns it: zero stands for
    that. *)
Definition shade (xy : Z * Z) : option (F * F * F) :=
  let '(x, y) := xy in
  let u := fofZ x / fofZ width in
  let v := fone - fofZ y / fofZ height in
  let rayDir := CameraH.generateRay camera u v in
  let rayOrigin := CameraH.position camera in
  match intersectGround rayOrigin rayDir fzero with
  | (true, t) =>
      let hitPoint := vadd rayOrigin (smul t rayDir) in
      match getGroundColor hitPoint with
      | None => None
      | Some baseColor =>
          let normal := mkVec3 (fofZ 0) (fofZ 1) (fofZ 0) in
          let viewDir := vneg (CameraH.normalized rayDir) in
          let finalColor :=
            LightingH.calculatePhongLighting lighting hitPoint normal viewDir baseColor in
          Some (vx finalColor, vy finalColor, vz finalColor)
      end
  | (false, _) => Some (fofZ 0, fofZ 0, fofZ 0)
  end.

(** The pixel loop: one [setPixel] per pixel, rows outside. *)
Fixpoint renderInto (image : ImageH.Image F) (coords : list (Z * Z))
  : option (ImageH.Image F) :=
  match coords with
  | [] => Some image
  | (x, y) :: rest =>
      match shade (x, y) with
      | None => None
      | Some (r, g, b) => renderInto (ImageH.setPixel image x y r g b) rest
      end
  end.

Definition outputName : string := "lighted_scene.ppm".

(** [main]: [opened] tells whether the output file can be opened.  The
    result is [None] when a conversion to [int] is undefined. *)
Definition main (opened : bool) : option Outcome :=
  match renderInto (ImageH.Image_new width height) (pixelCoords width height) with
  | None => None
  | Some image =>
      match ImageH.savePPM opened outputName image with
      | None => None
      | Some (true, e, files) =>
          Some (mkOutcome 0 ("Image saved successfully as " ++ outputName ++ nl)%string
                          e files)
      | Some (false, e, files) =>
          Some (mkOutcome 1 "" (e ++ "Failed to save image" ++ nl)%string files)
      end
  end.
End Scene.
End MainCpp.

(* ================================================================== *)
(** * analyze_vdb.cpp: valueToColor and visualizeGridSlice *)

Section Analyze.
Context {F : Type} `{Arith F}.
Local Open Scope arith_scope.

(** [valueToColor]: the colour starts as (0, 0, 0) and each branch assigns
    some of its channels. *)
Definition valueToColor (value minVal maxVal : F) : option Color :=
  let normalized := (value - minVal) / (maxVal - minVal) in
  let normalized := fmax fzero (fmin fone normalized) in
  let scaled x := to_uchar (x * fofZ 4 * fofZ 255) in
  if normalized <? flit 1 4 then
    match scaled normalized with
    | Some b => Some (mkColor 0 0 b)
    | None => None
    end
  else if normalized <? flit 1 2 then
    match scaled (flit 1 2 - normalized), scaled (normalized - flit 1 4) with
    | Some b, Some g => Some (mkColor 0 g b)
    | _, _ => None
    end
  else if normalized <? flit 3 4 then
    match scaled (flit 3 4 - normalized), scaled (normalized - flit 1 2) with
    | Some g, Some r => Some (mkColor r g 0)
    | _, _ => None
    end
  else
    match scaled (normalized - flit 3 4) with
    | Some gb => Some (mkColor 255 gb gb)
    | None => None
    end.

(** [visualizeGridSlice]: [value] stands for the grid accessor, [lo] and
    [hi] for the corners of the bounding box, whose coordinates are
    [int]; [opened] tells whether the output file can be opened
    ([saveSliceToPPM] never tests its stream).  The buffer is a vector of
    [width * height] black pixels, stored into at [y * width + x] and
    written whole.  The result is the text printed and the files written;
    it is [None] where an operation on [int] or a conversion is undefined
    or the buffer cannot be allocated (a negative size). *)
Definition visualizeGridSlice (opened : bool) (value : Z * Z * Z -> F) (name : string)
  (lo hi : Z * Z * Z) (minVal maxVal : F)
  : option (string * list (string * string)) :=
  let '(lox, loy, loz) := lo in
  let '(hix, hiy, hiz) := hi in
  (* dims = bbox.max() - bbox.min() + openvdb::Coord(1) *)
  match int32 (hix - lox), int32 (hiy - loy), int32 (hiz - loz) with
  | Some dx, Some dy, Some dz =>
      match int32 (dx + 1), int32 (dy + 1), int32 (dz + 1) with
      | Some width, Some height, Some _ =>
          match int32 (width * height), int32 (loz + hiz) with
          | Some n, Some sumZ =>
              if (n <? 0)%Z then None
              else
                let midZ := Z.quot sumZ 2 in
                match storeLoop
                        (fun '(x, y) =>
                           valueToColor (value ((x + lox)%Z, (y + loy)%Z, midZ))
                                        minVal maxVal)
                        width (pixelCoords width height)
                        (repeat (mkColor 0 0 0) (Z.to_nat n)) with
                | None => None
                | Some pixels =>
                    let filename := (name ++ "_slice.ppm")%string in
                    Some (("Saved visualization to " ++ filename ++ nl)%string,
                          if opened
                          then [(filename, saveSliceToPPM pixels width height)]
                          else [])
                end
          | _, _ => None
          end
      | _, _, _ => None
      end
  | _, _, _ => None
  end.
End Analyze.

(* ================================================================== *)
(** * Instances *)

(** IEEE-754 binary formats, through [SpecFloat]: [prec] bits of
    precision, exponents below [emax]. *)
Module IEEE.
Section Format.
Variables prec emax : Z.

Definition ofZ (z : Z) : spec_float := binary_normalize prec emax z 0 false.

(** Truncation toward zero of a finite value. *)
Definition trunc (x : spec_float) : option Z :=
  match x with
  | S754_zero _ => Some 0%Z
  | S754_finite s m e =>
      let a := match e with
               | Zneg p => Z.shiftr (Zpos m) (Zpos p)
               | _ => Z.shiftl (Zpos m) e
               end in
      Some (if s then Z.opp a else a)
  | _ => None
  end.

(** [std::floor]: a value with a fractional part is rounded toward minus
    infinity; the result has at most [prec] bits and is exact. *)
Definition floor (x : spec_float) : spec_float :=
  match x with
  | S754_finite s m (Zneg p) =>
      let q := Z.shiftr (Zpos m) (Zpos p) in
      let exact := Z.eqb (Z.shiftl q (Zpos p)) (Zpos m) in
      if s then ofZ (- (if exact then q else q + 1)) else ofZ q
  | _ => x
  end.

Definition rounding : Rounding spec_float := {|
  ffloor := floor;
  fabs := SFabs
|}.

Definition arith : Arith spec_float := {|
  fofZ := ofZ;
  fadd := SFadd prec emax;
  fsub := SFsub prec emax;
  fmul := SFmul prec emax;
  fdiv := SFdiv prec emax;
  fopp := SFopp;
  fsqrt := SFsqrt prec emax;
  flt := SFltb;
  fle := SFleb;
  ftrunc := trunc
|}.
End Format.
End IEEE.

(** binary32, the C++ [float] of volume_render.cpp. *)
Module B32.
Definition prec : Z := 24.
Definition emax : Z := 128.

#[global] Instance arith : Arith spec_float := IEEE.arith prec emax.

Definition pinf : spec_float := S754_infinity false.
Definition ninf : spec_float := S754_infinity true.
Definition isNaN (x : spec_float) : bool :=
  match x with S754_nan => true | _ => false end.
End B32.

(** binary64, the C++ [double] of Image.h and Camera.h. *)
Module B64.
Definition prec : Z := 53.
Definition emax : Z := 1024.

Definition arith : Arith spec_float := IEEE.arith prec emax.
Definition rounding : Rounding spec_float := IEEE.rounding prec emax.
End B64.

(** The real numbers: arithmetic without rounding. *)
Module Real.
Definition ltb (a b : R) : bool := if Rlt_dec a b then true else false.
Definition leb (a b : R) : bool := if Rle_dec a b then true else false.
Definition trunc (x : R) : option Z :=
  Some (if Rle_dec 0 x then Int_part x else Z.opp (Int_part (- x))).

#[global] Instance arith : Arith R := {
  fofZ := IZR;
  fadd := Rplus;
  fsub := Rminus;
  fmul := Rmult;
  fdiv := Rdiv;
  fopp := Ropp;
  fsqrt := sqrt;
  flt := ltb;
  fle := leb;
  ftrunc := trunc
}.

#[global] Instance libm : Libm R := {
  fexp := exp;
  ftan := tan;
  fpi := PI
}.

#[global] Instance rounding : Rounding R := {
  ffloor := fun x => IZR (Int_part x);
  fabs := Rabs
}.

(** The ceiling of a real, and ceil(d / step) as a number of steps. *)
Definition Zceil (x : R) : Z := (- Int_part (- x))%Z.
Definition stepsTo (d step : R) : nat := Z.to_nat (Zceil (d / step)).
End Real.

(* ================================================================== *)
(** * Vocabulary of the statements *)

Definition zero3 : Vec3 R := mkVec3 0%R 0%R 0%R.

(** Three vectors that are mutually orthogonal; and of unit length. *)
Definition orthogonal3 (f r u : Vec3 R) : Prop :=
  (dot f r = 0 /\ dot f u = 0 /\ dot r u = 0)%R.
Definition orthonormal3 (f r u : Vec3 R) : Prop :=
  (length f = 1 /\ length r = 1 /\ length u = 1)%R /\ orthogonal3 f r u.

(** A channel scaled to 255, clamped at 255 and truncated. *)
Definition clampedByte (c : R) : Z := Int_part (Rmin (c * 255) 255).

(** A colour without a negative channel, and the three bytes of a
    colour. *)
Definition nonneg (p : Vec3 R) : Prop := (0 <= vx p /\ 0 <= vy p /\ 0 <= vz p)%R.
Definition triple (p : Vec3 R) : list Z :=
  [clampedByte (vx p); clampedByte (vy p); clampedByte (vz p)].

(** The point of a ray at parameter [t]; a point inside the box of a
    renderer; a box whose corners are ordered; a direction without a zero
    component. *)
Definition pointAt (ray : Ray R) (t : R) : Vec3 R :=
  vadd (origin ray) (vscale (direction ray) t).
Definition inBox (vr : VolumeRenderer R) (p : Vec3 R) : Prop :=
  (vx (t0 vr) <= vx p <= vx (t1 vr) /\
   vy (t0 vr) <= vy p <= vy (t1 vr) /\
   vz (t0 vr) <= vz p <= vz (t1 vr))%R.
Definition boxOrdered (vr : VolumeRenderer R) : Prop :=
  (vx (t0 vr) <= vx (t1 vr) /\ vy (t0 vr) <= vy (t1 vr) /\
   vz (t0 vr) <= vz (t1 vr))%R.
Definition noZeroComponent (d : Vec3 R) : Prop :=
  (vx d <> 0 /\ vy d <> 0 /\ vz d <> 0)%R.

(** A field without a negative value. *)
Definition nonnegField (f : Vec3 R -> R) : Prop := forall p, (0 <= f p)%R.

(** A colour of the volume renderer: red from 0 to below 1/12, no green
    and no blue. *)
Definition dimRed (c : Vec3 R) : Prop :=
  (0 <= vx c < 1 / 12 /\ vy c = 0 /\ vz c = 0)%R.

(** What the primary march keeps: the transmittance in (0, 1], the red
    component between 0 and (1 - transmittance) / (4 pi), no green and no
    blue. *)
Definition radianceInvariant (s : MarchState R) : Prop :=
  (0 < m_transmittance s <= 1 /\
   0 <= vx (m_color s) <= 1 / (4 * PI) * (1 - m_transmittance s) /\
   vy (m_color s) = 0 /\ vz (m_color s) = 0)%R.

(** A value, a matrix and an image within [0, 1]; a triple within
    [0, 1]. *)
Definition unit01 (v : R) : Prop := (0 <= v <= 1)%R.
Definition unitMatrix (m : ImageH.Matrix R) : Prop := Forall (Forall unit01) m.
Definition unitImage (img : ImageH.Image R) : Prop :=
  unitMatrix (ImageH.red img) /\ unitMatrix (ImageH.green img) /\
  unitMatrix (ImageH.blue img).
Definition unitColor (c : Vec3 R) : Prop :=
  unit01 (vx c) /\ unit01 (vy c) /\ unit01 (vz c).

(** The images a program can make with the constructor, [setPixel] and
    [fill]. *)
Inductive built : ImageH.Image R -> Prop :=
| built_new (w h : Z) : built (ImageH.Image_new w h)
| built_setPixel (img : ImageH.Image R) (x y : Z) (r g b : R) :
    built img -> built (ImageH.setPixel img x y r g b)
| built_fill (img : ImageH.Image R) (r g b : R) :
    built img -> built (ImageH.fill img r g b).

(** A sample of a text PPM with the maximum 255; the sample of a value
    and the three samples of a pixel. *)
Definition sample255 (z : Z) : Prop := (0 <= z <= 255)%Z.
Definition sampleOf (v : R) : Z := Int_part (v * 255).
Definition samplesAt (img : ImageH.Image R) (y x : Z) : list Z :=
  [sampleOf (ImageH.coeff (ImageH.red img) y x);
   sampleOf (ImageH.coeff (ImageH.green img) y x);
   sampleOf (ImageH.coeff (ImageH.blue img) y x)].

(** What the three matrices of an image hold for pixel (x, y). *)
Definition pixelAt (img : ImageH.Image R) (x y : Z) : R * R * R :=
  (ImageH.coeff (ImageH.red img) y x, ImageH.coeff (ImageH.green img) y x,
   ImageH.coeff (ImageH.blue img) y x).

(** A 4 x 4 matrix applied to a vector; a direction and a point in
    homogeneous coordinates. *)
Definition apply4 (m : CameraH.Matrix4 R) (v : CameraH.Vec4 R) : CameraH.Vec4 R :=
  let row r :=
    (CameraH.v0 r * CameraH.v0 v + CameraH.v1 r * CameraH.v1 v
     + CameraH.v2 r * CameraH.v2 v + CameraH.v3 r * CameraH.v3 v)%R in
  CameraH.mkVec4 (row (CameraH.row0 m)) (row (CameraH.row1 m))
                 (row (CameraH.row2 m)) (row (CameraH.row3 m)).
Definition direction4 (d : Vec3 R) : CameraH.Vec4 R :=
  CameraH.mkVec4 (vx d) (vy d) (vz d) 0%R.
Definition point4 (p : Vec3 R) : CameraH.Vec4 R :=
  CameraH.mkVec4 (vx p) (vy p) (vz p) 1%R.

(** A bounding box of [int] coordinates that is not empty and on which
    the [int] operations of [visualizeGridSlice] are defined: its three
    dimensions, the sum of its bounds in z and the number of pixels of a
    slice are values of [int]. *)
Definition sliceable (lo hi : Z * Z * Z) : Prop :=
  let '(lox, loy, loz) := lo in
  let '(hix, hiy, hiz) := hi in
  (- 2 ^ 31 <= lox /\ - 2 ^ 31 <= loy /\ - 2 ^ 31 <= loz /\
   hix < 2 ^ 31 /\ hiy < 2 ^ 31 /\ hiz < 2 ^ 31 /\
   lox <= hix /\ loy <= hiy /\ loz <= hiz /\
   hix - lox + 1 < 2 ^ 31 /\ hiy - loy + 1 < 2 ^ 31 /\ hiz - loz + 1 < 2 ^ 31 /\
   - 2 ^ 31 <= loz + hiz < 2 ^ 31 /\
   (hix - lox + 1) * (hiy - loy + 1) < 2 ^ 31)%Z.

(** A colour whose three channels are bytes. *)
Definition byteColor (c : Color) : Prop :=
  (0 <= c_r c <= 255 /\ 0 <= c_g c <= 255 /\ 0 <= c_b c <= 255)%Z.

(** The bytes of a text, as numbers from 0 to 255. *)
Definition codes (s : string) : list Z :=
  map (fun c => Z.of_N (N_of_ascii c)) (list_ascii_of_string s).

(** The number a text of decimal digits is read as, if it is one. *)
Definition readNumber (s : string) : option Z :=
  option_map Z.of_int (NilZero.int_of_string s).

(** The derived basis of a camera of Camera.h. *)
Definition basisOrthonormal (c : CameraH.Camera R) : Prop :=
  orthonormal3 (CameraH.forward c) (CameraH.right c) (CameraH.upVector c).

(* ================================================================== *)
(** * Concrete scenes *)

Module Scene.

(** The unit cube, empty, in binary32. *)
Definition unitBox : VolumeRenderer spec_float :=
  mkRenderer (fun _ => fzero)
             (mkVec3 (fofZ 0) (fofZ 0) (fofZ 0))
             (mkVec3 (fofZ 1) (fofZ 1) (fofZ 1))
             (mkVec3 (fofZ 0) (fofZ 1) (fofZ 0))
             (flit 1 10).

(** A ray along +z that passes beside the cube, at x = 5. *)
Definition rayBeside : Ray spec_float :=
  Ray_new (mkVec3 (fofZ 5) (flit 1 2) (fofZ (-1)))
          (mkVec3 (fofZ 0) (fofZ 0) (fofZ 1)).

(** A ray along +z through the middle of the cube. *)
Definition rayThrough : Ray spec_float :=
  Ray_new (mkVec3 (flit 1 2) (flit 1 2) (fofZ (-1)))
          (mkVec3 (fofZ 0) (fofZ 0) (fofZ 1)).

(** A camera beside the cube that looks along +z, in binary32. *)
Definition cameraBeside : Camera spec_float :=
  mkCamera (mkVec3 (fofZ 5) (fofZ 5) (fofZ 5))
           (mkVec3 (fofZ 0) (fofZ 0) (fofZ 1))
           (mkVec3 (fofZ 1) (fofZ 0) (fofZ 0))
           (mkVec3 (fofZ 0) (fofZ 1) (fofZ 0)).

(** A <cmath> for binary32 that answers NaN, for the places where the
    functions are not called. *)
Definition nanLibm : Libm spec_float :=
  {| fexp := fun _ => S754_nan; ftan := fun _ => S754_nan; fpi := S754_nan |}.

(** The unit cube filled with a medium of constant density [d], lit
    along +y and marched in steps of 0.1, in real arithmetic. *)
Definition fog (d : R) : VolumeRenderer R :=
  mkRenderer (fun _ => d)
             (mkVec3 0 0 0)%R (mkVec3 1 1 1)%R (mkVec3 0 1 0)%R (1 / 10)%R.

(** The unit cube with the density 1 up to the height y = 1/20 and -1
    above, lit along +y and marched in steps of 0.1, in real
    arithmetic. *)
Definition layered : VolumeRenderer R :=
  mkRenderer (fun p => if Real.leb (vy p) (1 / 20)%R then 1%R else (-1)%R)
             (mkVec3 0 0 0)%R (mkVec3 1 1 1)%R (mkVec3 0 1 0)%R (1 / 10)%R.

(** The ray [Ray] builds from the origin (-2, -2, -1) and the direction
    (2, 2, 1), in binary32: it enters the unit cube at t = 3 and leaves it
    at t = 4.5. *)
Definition rayDiagonal32 : Ray spec_float :=
  Ray_new (mkVec3 (fofZ (-2)) (fofZ (-2)) (fofZ (-1)))
          (mkVec3 (fofZ 2) (fofZ 2) (fofZ 1)).

(** An empty cube of side 1 at the distance 2^22 along z, and a ray
    along +z through it, in binary32. *)
Definition farBox : VolumeRenderer spec_float :=
  mkRenderer (fun _ => fzero)
             (mkVec3 (fofZ 0) (fofZ 0) (fofZ 4194304))
             (mkVec3 (fofZ 1) (fofZ 1) (fofZ 4194305))
             (mkVec3 (fofZ 0) (fofZ 1) (fofZ 0))
             (flit 1 10).
Definition rayFar : Ray spec_float :=
  Ray_new (mkVec3 (flit 1 2) (flit 1 2) (fofZ 0))
          (mkVec3 (fofZ 0) (fofZ 0) (fofZ 1)).

(** A ray of unit direction that enters the cube at t = 3 and leaves it
    at t = 9/2. *)
Definition rayDiagonal : Ray R :=
  mkRay (mkVec3 (-2) (-2) (-1))%R (mkVec3 (2 / 3) (2 / 3) (1 / 3))%R.

(** The first point the primary march samples along that ray: the
    corner (0, 0, 0) of the cube. *)
Definition firstSample : Vec3 R := samplePoint rayDiagonal (traceInit 3%R).

(** A 2 x 2 image whose red channel holds 5 at pixel (0, 0), as a caller
    of [getRed()] can leave it. *)
Definition brightImage : ImageH.Image R :=
  ImageH.mkImage 2 2 [[5; 0]; [0; 0]]%R [[0; 0]; [0; 0]]%R [[0; 0]; [0; 0]]%R.

(** The camera [main] builds. *)
Definition mainCamera : Camera R :=
  Camera_new (mkVec3 (fofZ 5) (fofZ 3) (fofZ 5))
             (mkVec3 (fofZ 0) (fofZ 0) (fofZ 0))
             (mkVec3 (fofZ 0) (fofZ 1) (fofZ 0))
             (fofZ 60) (fofZ 800 / fofZ 600)%ar.

(** A 2 x 2 image in binary64 after the write of (2, 1/2, -1) at pixel
    (1, 0). *)
Definition writtenImage64 : ImageH.Image spec_float :=
  ImageH.setPixel (H := B64.arith) (ImageH.Image_new (H := B64.arith) 2 2) 1 0
    (fofZ (Arith := B64.arith) 2) (flit (H := B64.arith) 1 2)
    (fofZ (Arith := B64.arith) (-1)).

(** The camera of Camera.h with the default arguments of its
    constructor. *)
Definition defaultCamera : CameraH.Camera R :=
  CameraH.Camera_new (mkVec3 0 0 0)%R (mkVec3 0 0 (-1))%R (mkVec3 0 1 0)%R
                     60%R (16 / 9)%R (1 / 10)%R 1000%R.

(** A 2 x 2 buffer of pure red, in binary32 and in real arithmetic. *)
Definition redBuffer32 : list (Vec3 spec_float) :=
  repeat (mkVec3 (fofZ 1) (fofZ 0) (fofZ 0)) 4.
Definition redBufferR : list (Vec3 R) :=
  repeat (mkVec3 1 0 0)%R 4.

End Scene.

(* ================================================================== *)
(** * Theorems *)

(** ** The loop combinator *)

Section WhileFacts.
Variable St : Type.
Variable cond : St -> bool.
Variable body : St -> option St.

Lemma while_exit (fuel : nat) (s : St) :
  cond s = false -> while cond body fuel s = Some (s, O).
Proof. intros Hc. destruct fuel; simpl; rewrite Hc; reflexivity. Qed.

Lemma reaches_front (s s1 s' : St) :
  cond s = true -> body s = Some s1 ->
  reaches cond body s1 s' -> reaches cond body s s'.
Proof.
  intros Hc Hb Hr. induction Hr as [|a b Hr IH Hca Hba].
  - eapply reaches_step; [apply reaches_init | exact Hc | exact Hb].
  - eapply reaches_step; [exact IH | exact Hca | exact Hba].
Qed.

Lemma reaches_trans (a b c : St) :
  reaches cond body a b -> reaches cond body b c -> reaches cond body a c.
Proof.
  intros Hab Hbc. induction Hbc as [|x y Hr IH Hcx Hbx].
  - exact Hab.
  - eapply reaches_step; eauto.
Qed.

(** A finished run ends in a reachable state at which the condition
    fails. *)
Lemma while_reaches (fuel : nat) :
  forall s s' n, while cond body fuel s = Some (s', n) ->
  reaches cond body s s' /\ cond s' = false.
Proof.
  induction fuel as [|fuel IH]; intros s s' n; simpl.
  - destruct (cond s) eqn:Hc; [discriminate|].
    intros E; inversion E; subst. split; [apply reaches_init | exact Hc].
  - destruct (cond s) eqn:Hc.
    + destruct (body s) as [s1|] eqn:Hb; [|discriminate].
      destruct (while cond body fuel s1) as [[s2 k]|] eqn:Hw; [|discriminate].
      intros E; inversion E; subst.
      destruct (IH _ _ _ Hw) as [Hr Hf]. split; [|exact Hf].
      eapply reaches_front; eauto.
    + intros E; inversion E; subst. split; [apply reaches_init | exact Hc].
Qed.

(** An invariant of the body holds at every state the loop reaches. *)
Lemma reaches_invariant (P : St -> Prop) (init : St) :
  P init ->
  (forall s s', reaches cond body init s -> P s ->
                cond s = true -> body s = Some s' -> P s') ->
  forall s, reaches cond body init s -> P s.
Proof.
  intros H0 Hstep s Hr. induction Hr; eauto.
Qed.

(** Total correctness from a measure: when every iteration from a state
    of the invariant produces a state and lowers the measure, fuel at
    least the measure is enough, and the measure bounds the number of
    iterations. *)
Lemma while_total (P : St -> Prop) (m : St -> nat) :
  (forall s, P s -> cond s = true ->
             exists s', body s = Some s' /\ P s' /\ (m s' < m s)%nat) ->
  forall fuel s, P s -> (m s <= fuel)%nat ->
  exists s' n, while cond body fuel s = Some (s', n) /\ (n <= m s)%nat /\
               P s' /\ cond s' = false.
Proof.
  intros Hstep. induction fuel as [|fuel IH]; intros s HP Hm; simpl.
  - destruct (cond s) eqn:Hc.
    + destruct (Hstep s HP Hc) as (s' & _ & _ & Hlt). lia.
    + exists s, O. repeat split; auto. lia.
  - destruct (cond s) eqn:Hc.
    + destruct (Hstep s HP Hc) as (s1 & Hb & HP1 & Hlt). rewrite Hb.
      destruct (IH s1 HP1) as (s2 & n & Hw & Hn & HP2 & Hc2); [lia|].
      rewrite Hw. exists s2, (S n). repeat split; auto. lia.
    + exists s, O. repeat split; auto. lia.
Qed.
(** The loop is deterministic: a reached state other than the first
    comes after the first iteration. *)
Lemma reaches_front_inv (init s : St) :
  reaches cond body init s ->
  s = init \/
  exists s1, cond init = true /\ body init = Some s1 /\ reaches cond body s1 s.
Proof.
  intros Hr. induction Hr as [|a b Hr IH Hc Hb].
  - left; reflexivity.
  - right. destruct IH as [->|(s1 & Hc1 & Hb1 & Hr1)].
    + exists b. split; [exact Hc|]. split; [exact Hb|]. apply reaches_init.
    + exists s1. split; [exact Hc1|]. split; [exact Hb1|].
      eapply reaches_step; eauto.
Qed.

(** A reached state at which the condition fails is where the loop
    stops: the run returns that state. *)
Lemma while_stops_at (fuel : nat) :
  forall init s s' n,
  reaches cond body init s -> cond s = false ->
  while cond body fuel init = Some (s', n) -> s' = s.
Proof.
  induction fuel as [|fuel IH]; intros init s s' n Hr Hc; simpl.
  - destruct (cond init) eqn:Hci; [discriminate|].
    intros E; inversion E; subst.
    destruct (reaches_front_inv Hr) as [->|(s1 & Hc1 & _)]; [reflexivity|congruence].
  - destruct (cond init) eqn:Hci.
    + destruct (reaches_front_inv Hr) as [->|(s1 & Hc1 & Hb1 & Hr1)]; [congruence|].
      rewrite Hb1.
      destruct (while cond body fuel s1) as [[s2 k]|] eqn:Hw; [|discriminate].
      intros E; inversion E; subst. eapply IH; eauto.
    + intros E; inversion E; subst.
      destruct (reaches_front_inv Hr) as [->|(s1 & Hc1 & _)]; [reflexivity|congruence].
Qed.
(** A loop whose body leaves the state as it is, at a state where the
    test holds, does not end: no fuel is enough. *)
Lemma while_stall (s : St) :
  cond s = true -> body s = Some s -> forall fuel, while cond body fuel s = None.
Proof.
  intros Hc Hb fuel. induction fuel as [|fuel IH]; simpl; rewrite Hc; [reflexivity|].
  rewrite Hb, IH. reflexivity.
Qed.
End WhileFacts.

(** ** Real arithmetic *)

Module RealFacts.
Import Real.
Local Open Scope R_scope.

Lemma ltb_true (a b : R) : ltb a b = true <-> a < b.
Proof. unfold ltb. destruct (Rlt_dec a b); split; auto; discriminate. Qed.

Lemma ltb_false (a b : R) : ltb a b = false <-> b <= a.
Proof.
  unfold ltb. destruct (Rlt_dec a b); split; auto; try discriminate; lra.
Qed.

Lemma leb_true (a b : R) : leb a b = true <-> a <= b.
Proof. unfold leb. destruct (Rle_dec a b); split; auto; discriminate. Qed.

Lemma leb_false (a b : R) : leb a b = false <-> b < a.
Proof.
  unfold leb. destruct (Rle_dec a b); split; auto; try discriminate; lra.
Qed.

Lemma Zceil_bounds (x : R) : x <= IZR (Zceil x) < x + 1.
Proof.
  unfold Zceil, Int_part.
  destruct (archimed (- x)) as [H1 H2].
  rewrite opp_IZR, minus_IZR. lra.
Qed.

Lemma Zceil_unique (x : R) (z : Z) : x <= IZR z < x + 1 -> Zceil x = z.
Proof.
  intros Hz. pose proof (Zceil_bounds x) as Hc.
  assert (H1 : (Zceil x < z + 1)%Z) by (apply lt_IZR; rewrite plus_IZR; lra).
  assert (H2 : (z < Zceil x + 1)%Z) by (apply lt_IZR; rewrite plus_IZR; lra).
  lia.
Qed.

Lemma Zceil_IZR (z : Z) : Zceil (IZR z) = z.
Proof. apply Zceil_unique. lra. Qed.

Lemma Zceil_pred (x : R) : Zceil (x - 1) = (Zceil x - 1)%Z.
Proof.
  apply Zceil_unique. pose proof (Zceil_bounds x). rewrite minus_IZR. lra.
Qed.

Lemma Zceil_pos (x : R) : 0 < x -> (1 <= Zceil x)%Z.
Proof.
  intros Hx. pose proof (Zceil_bounds x) as Hc.
  assert (H : (0 < Zceil x)%Z) by (apply lt_IZR; lra). lia.
Qed.

(** One step of size [step] towards the bound lowers the number of steps
    still needed. *)
Lemma stepsTo_decreases (d step : R) :
  0 < step -> 0 < d -> (stepsTo (d - step) step < stepsTo d step)%nat.
Proof.
  intros Hs Hd. unfold stepsTo.
  replace ((d - step) / step) with (d / step - 1) by (field; lra).
  rewrite Zceil_pred.
  assert (0 < d / step) by (apply Rdiv_lt_0_compat; lra).
  pose proof (Zceil_pos H). lia.
Qed.

Lemma exp_lt_1 (x : R) : x < 0 -> exp x < 1.
Proof. intros Hx. pose proof (exp_increasing x 0 Hx) as H. rewrite exp_0 in H. exact H. Qed.

Lemma exp_gt_1 (x : R) : 0 < x -> 1 < exp x.
Proof. intros Hx. pose proof (exp_increasing 0 x Hx) as H. rewrite exp_0 in H. exact H. Qed.

Lemma exp_le_1 (x : R) : x <= 0 -> exp x <= 1.
Proof.
  intros [Hx | ->]; [left; apply exp_lt_1; exact Hx | rewrite exp_0; lra].
Qed.

Lemma stepsTo_200 : stepsTo 20 (1 / 10) = 200%nat.
Proof.
  unfold stepsTo. replace (20 / (1 / 10)) with (IZR 200) by (field; lra).
  rewrite Zceil_IZR. reflexivity.
Qed.

(** Deciding a comparison of the real instance on closed terms. *)
Ltac real_cmp :=
  repeat match goal with
  | |- context [ltb ?a ?b] =>
      first [ rewrite (proj2 (ltb_true a b)) by lra
            | rewrite (proj2 (ltb_false a b)) by lra ]
  | |- context [leb ?a ?b] =>
      first [ rewrite (proj2 (leb_true a b)) by lra
            | rewrite (proj2 (leb_false a b)) by lra ]
  end.

End RealFacts.

(** ** The shadow march, in real arithmetic *)

Section ShadowReal.
Import Real RealFacts.
Local Open Scope R_scope.

Variable vr : VolumeRenderer R.
Variable pos : Vec3 R.


Lemma shadowCond_true (s : ShadowState R) :
  shadowCond s = true <-> sh_t s < 20 /\ 1 / 100 < sh_transmittance s.
Proof.
  unfold shadowCond, shadowMax, cutoff, flit; simpl.
  rewrite andb_true_iff, !ltb_true. tauto.
Qed.

Lemma shadowCond_false (s : ShadowState R) :
  shadowCond s = false <-> 20 <= sh_t s \/ sh_transmittance s <= 1 / 100.
Proof.
  unfold shadowCond, shadowMax, cutoff, flit; simpl.
  rewrite andb_false_iff, !ltb_false. tauto.
Qed.

Lemma shadowBody_eq (s : ShadowState R) :
  shadowBody vr pos s =
  mkShadow (sh_transmittance s * exp (- shadowDensity vr pos s * stepSize vr))
           (sh_t s + stepSize vr).
Proof. reflexivity. Qed.

(** The march ends within ceil(20 / stepSize) iterations, and carries
    along every invariant of its body. *)
Lemma shadowLoop_total (P : ShadowState R -> Prop) :
  0 < stepSize vr ->
  P shadowInit ->
  (forall s, shadowReaches vr pos s -> P s -> shadowCond s = true ->
             P (shadowBody vr pos s)) ->
  forall fuel, (stepsTo 20 (stepSize vr) <= fuel)%nat ->
  exists s n, shadowLoop vr fuel pos = Some (s, n) /\
              (n <= stepsTo 20 (stepSize vr))%nat /\
              P s /\ shadowReaches vr pos s /\ shadowCond s = false.
Proof.
  intros Hstep H0 HP fuel Hfuel.
  pose (m := fun s : ShadowState R => stepsTo (20 - sh_t s) (stepSize vr)).
  assert (Hm0 : m shadowInit = stepsTo 20 (stepSize vr)).
  { unfold m, shadowInit; simpl. f_equal. lra. }
  destruct (while_total shadowCond (fun s => Some (shadowBody vr pos s))
              (fun s => shadowReaches vr pos s /\ P s) m) with (fuel := fuel) (s := @shadowInit R _)
    as (s & n & Hw & Hn & [Hr HPs] & Hc).
  - intros s [Hr HPs] Hc. exists (shadowBody vr pos s). split; [reflexivity|].
    split; [split|].
    + eapply reaches_step; [exact Hr | exact Hc | reflexivity].
    + apply HP; assumption.
    + apply shadowCond_true in Hc. destruct Hc as [Ht _].
      unfold m. rewrite shadowBody_eq; simpl.
      replace (20 - (sh_t s + stepSize vr)) with (20 - sh_t s - stepSize vr) by lra.
      apply stepsTo_decreases; lra.
  - split; [apply reaches_init | exact H0].
  - rewrite Hm0. exact Hfuel.
  - exists s, n. rewrite Hm0 in Hn. unfold shadowLoop. auto.
Qed.

(** The transmittance of a shadow march is positive whatever the field. *)
Lemma shadow_positive (s : ShadowState R) :
  shadowReaches vr pos s -> 0 < sh_transmittance s.
Proof.
  intros Hr. unfold shadowReaches in Hr.
  induction Hr as [|a b Hr IH Hc Hb].
  - unfold shadowInit, fone; simpl. lra.
  - inversion Hb; subst. rewrite shadowBody_eq; simpl.
    apply Rmult_lt_0_compat; [exact IH | apply exp_pos].
Qed.

(** Over densities that are not negative it stays at most 1. *)
Lemma shadow_at_most_one :
  (forall s, shadowReaches vr pos s -> shadowCond s = true -> 0 <= shadowDensity vr pos s) ->
  0 <= stepSize vr ->
  forall s, shadowReaches vr pos s -> sh_transmittance s <= 1.
Proof.
  intros Hd Hstep s Hr. unfold shadowReaches in Hr.
  induction Hr as [|a b Hr IH Hc Hb].
  - unfold shadowInit, fone; simpl. lra.
  - inversion Hb; subst. rewrite shadowBody_eq; simpl.
    pose proof (shadow_positive Hr) as Hpos.
    assert (He : exp (- shadowDensity vr pos a * stepSize vr) <= 1).
    { apply exp_le_1. pose proof (Hd a Hr Hc). nra. }
    pose proof (exp_pos (- shadowDensity vr pos a * stepSize vr)). nra.
Qed.

(** Over densities that are all zero it stays 1. *)
Lemma shadow_stays_one :
  (forall s, shadowReaches vr pos s -> shadowCond s = true -> shadowDensity vr pos s = 0) ->
  forall s, shadowReaches vr pos s -> sh_transmittance s = 1.
Proof.
  intros Hd s Hr. unfold shadowReaches in Hr.
  induction Hr as [|a b Hr IH Hc Hb].
  - reflexivity.
  - inversion Hb; subst. rewrite shadowBody_eq; simpl.
    rewrite (Hd a Hr Hc), IH.
    replace (- 0 * stepSize vr) with 0 by ring. rewrite exp_0. ring.
Qed.

Lemma traceShadowRay_of_loop (fuel : nat) (s : ShadowState R) (n : nat) :
  shadowLoop vr fuel pos = Some (s, n) ->
  traceShadowRay vr fuel pos = Some (sh_transmittance s).
Proof. unfold traceShadowRay. intros ->. reflexivity. Qed.

(** With a positive step and fuel for ceil(20 / stepSize) iterations the
    shadow ray returns, and what it returns is positive. *)
Lemma traceShadowRay_total (fuel : nat) :
  0 < stepSize vr -> (stepsTo 20 (stepSize vr) <= fuel)%nat ->
  exists L, traceShadowRay vr fuel pos = Some L /\ 0 < L.
Proof.
  intros Hstep Hfuel.
  destruct (@shadowLoop_total (fun _ => True) Hstep I (fun _ _ _ _ => I) fuel Hfuel)
    as (s & n & Hw & _ & _ & Hr & _).
  exists (sh_transmittance s). split.
  - eapply traceShadowRay_of_loop; eauto.
  - apply shadow_positive; exact Hr.
Qed.
End ShadowReal.

(** ** The primary march, in any arithmetic *)

Section TraceFacts.
Context {F : Type} `{Arith F} `{Libm F}.
Variable vr : VolumeRenderer F.
Local Open Scope arith_scope.

(** A sample whose density is not positive leaves the colour and the
    transmittance as they are; the march only advances. *)
Lemma traceBody_skip (fuel : nat) (ray : Ray F) (s : MarchState F) :
  (fzero <? sampleDensity vr (samplePoint ray s)) = false ->
  traceBody vr fuel ray s =
  Some (mkMarch (m_t s + stepSize vr) (m_color s) (m_transmittance s)).
Proof. intros Hd. unfold traceBody. rewrite Hd. reflexivity. Qed.

(** A sample of positive density: the transmittance is updated first,
    and the updated value scales the light added to the colour. *)
Lemma traceBody_scatter (fuel : nat) (ray : Ray F) (s : MarchState F) (L : F) :
  (fzero <? sampleDensity vr (samplePoint ray s)) = true ->
  traceShadowRay vr fuel (samplePoint ray s) = Some L ->
  let extinction := sampleDensity vr (samplePoint ray s) * stepSize vr in
  let T' := m_transmittance s * fexp (- extinction) in
  traceBody vr fuel ray s =
  Some (mkMarch (m_t s + stepSize vr)
          (mkVec3 (vx (m_color s) + fone * phase * L * T' * extinction)
                  (vy (m_color s) + fzero * phase * L * T' * extinction)
                  (vz (m_color s) + fzero * phase * L * T' * extinction))
          T').
Proof. intros Hd HL. unfold traceBody. rewrite Hd, HL. reflexivity. Qed.

(** A ray that misses the box gets the zero colour, with any fuel. *)
Lemma trace_miss (fuel : nat) (ray : Ray F) :
  fst (fst (intersectBox vr ray)) = false ->
  trace vr fuel ray = Some (Vec3_1 fzero).
Proof.
  unfold trace. destruct (intersectBox vr ray) as [[hit tMin] tMax]; simpl.
  intros ->. reflexivity.
Qed.

End TraceFacts.

(** ** The primary march, in real arithmetic *)

Section TraceReal.
Import Real RealFacts.
Local Open Scope R_scope.

Variable vr : VolumeRenderer R.
Variable ray : Ray R.

Lemma traceCond_true (tMax : R) (s : MarchState R) :
  traceCond tMax s = true <-> m_t s < tMax /\ 1 / 100 < m_transmittance s.
Proof.
  unfold traceCond, cutoff, flit; simpl.
  rewrite andb_true_iff, !ltb_true. tauto.
Qed.

Lemma traceCond_false (tMax : R) (s : MarchState R) :
  traceCond tMax s = false <-> tMax <= m_t s \/ m_transmittance s <= 1 / 100.
Proof.
  unfold traceCond, cutoff, flit; simpl.
  rewrite andb_false_iff, !ltb_false. tauto.
Qed.

(** Every iteration advances [t] by the step. *)
Lemma traceBody_t (fuel : nat) (s s' : MarchState R) :
  traceBody vr fuel ray s = Some s' -> m_t s' = m_t s + stepSize vr.
Proof.
  unfold traceBody.
  destruct (fzero <? sampleDensity vr (samplePoint ray s))%ar.
  - destruct (traceShadowRay vr fuel (samplePoint ray s)); [|discriminate].
    intros E; inversion E; reflexivity.
  - intros E; inversion E; reflexivity.
Qed.

(** With fuel for a shadow march, the body always produces a state. *)
Lemma traceBody_total (fuel : nat) (s : MarchState R) :
  0 < stepSize vr -> (stepsTo 20 (stepSize vr) <= fuel)%nat ->
  exists s', traceBody vr fuel ray s = Some s'.
Proof.
  intros Hstep Hfuel. unfold traceBody.
  destruct (fzero <? sampleDensity vr (samplePoint ray s))%ar; [|eauto].
  destruct (traceShadowRay_total vr (samplePoint ray s) Hstep Hfuel) as (L & -> & _).
  eauto.
Qed.

(** The march ends within ceil((tMax - tMin) / stepSize) iterations
    whenever its body produces a state, and carries along every
    invariant of the body. *)
Lemma traceLoop_total (P : MarchState R -> Prop) (fuel : nat) (tMin tMax : R) :
  0 < stepSize vr ->
  (stepsTo (tMax - tMin) (stepSize vr) <= fuel)%nat ->
  P (traceInit tMin) ->
  (forall s, traceReaches vr fuel ray tMin tMax s -> P s ->
             traceCond tMax s = true ->
             exists s', traceBody vr fuel ray s = Some s' /\ P s') ->
  exists s n, traceLoop vr fuel ray tMin tMax = Some (s, n) /\
              (n <= stepsTo (tMax - tMin) (stepSize vr))%nat /\
              P s /\ traceReaches vr fuel ray tMin tMax s /\
              traceCond tMax s = false.
Proof.
  intros Hstep Hfuel H0 HP.
  pose (m := fun s : MarchState R => stepsTo (tMax - m_t s) (stepSize vr)).
  destruct (while_total (traceCond tMax) (traceBody vr fuel ray)
              (fun s => traceReaches vr fuel ray tMin tMax s /\ P s) m)
    with (fuel := fuel) (s := @traceInit R _ tMin)
    as (s & n & Hw & Hn & [Hr HPs] & Hc).
  - intros s [Hr HPs] Hc. destruct (HP s Hr HPs Hc) as (s' & Hb & HPs').
    exists s'. split; [exact Hb|]. split; [split|].
    + eapply reaches_step; [exact Hr | exact Hc | exact Hb].
    + exact HPs'.
    + apply traceCond_true in Hc. destruct Hc as [Ht _].
      unfold m. rewrite (traceBody_t _ _ Hb).
      replace (tMax - (m_t s + stepSize vr)) with (tMax - m_t s - stepSize vr) by lra.
      apply stepsTo_decreases; lra.
  - split; [apply reaches_init | exact H0].
  - exact Hfuel.
  - exists s, n. unfold traceLoop. auto.
Qed.
End TraceReal.

(** ** Termination and the early exit *)

Section EarlyExit.
Import Real RealFacts.
Local Open Scope R_scope.

Lemma fog_hit_diagonal (d : R) :
  intersectBox (Scene.fog d) Scene.rayDiagonal = (true, 3, 9 / 2).
Proof.
  unfold intersectBox, vmax, vmin, componentMul, vsub, fmax, fmin, fone, fzero; simpl.
  real_cmp. simpl. real_cmp. simpl. f_equal; [f_equal|]; field.
Qed.

Lemma stepsTo_diagonal : stepsTo (9 / 2 - 3) (1 / 10) = 15%nat.
Proof.
  unfold stepsTo. replace ((9 / 2 - 3) / (1 / 10)) with (IZR 15) by (field; lra).
  rewrite Zceil_IZR. reflexivity.
Qed.

Lemma exp_10 : 1024 < exp 10.
Proof.
  assert (H1 : 2 < exp 1) by (pose proof (exp_ineq1 1 ltac:(lra)); lra).
  assert (H2 : exp 2 = exp 1 * exp 1) by (rewrite <- exp_plus; f_equal; lra).
  assert (H4 : exp 4 = exp 2 * exp 2) by (rewrite <- exp_plus; f_equal; lra).
  assert (H8 : exp 8 = exp 4 * exp 4) by (rewrite <- exp_plus; f_equal; lra).
  assert (H10 : exp 10 = exp 8 * exp 2) by (rewrite <- exp_plus; f_equal; lra).
  assert (G2 : 4 < exp 2) by nra.
  assert (G4 : 16 < exp 4) by nra.
  assert (G8 : 256 < exp 8) by nra.
  nra.
Qed.

Lemma exp_minus_10 : exp (- (100 * (1 / 10))) < 1 / 100.
Proof.
  rewrite exp_Ropp. replace (100 * (1 / 10)) with 10 by field.
  pose proof exp_10 as H. pose proof (exp_pos 10) as Hp.
  apply Rmult_lt_reg_r with (exp 10); [exact Hp|].
  rewrite Rinv_l by lra. lra.
Qed.

(** C5 (as the code has it).  In any arithmetic, a march whose
    transmittance is not above 0.01 at the test of its loop makes no
    further iteration, and when a state of the primary march has such a
    transmittance, the colour of that state is the one [trace] returns
    if it returns.  With a positive step and the additions
    [t += stepSize] exact (real arithmetic): the primary march ends
    within ceil((tMax - tMin) / stepSize) iterations; once a state of
    the march has its transmittance at or below 0.01 no further
    iteration is made and [trace] returns the colour of that state; the
    shadow march ends within ceil(20 / stepSize) iterations and stops at
    the same cutoff. *)
Theorem march_terminates_within_bound :
  (forall (F : Type) (A : Arith F) (L : Libm F) (vr : VolumeRenderer F)
          (fuel k : nat) (ray : Ray F) (tMax : F) (pos : Vec3 F),
      (forall s, (cutoff <? m_transmittance s)%ar = false ->
                 while (traceCond tMax) (traceBody vr fuel ray) k s = Some (s, O)) /\
      (forall s, (cutoff <? sh_transmittance s)%ar = false ->
                 while shadowCond (fun s => Some (shadowBody vr pos s)) k s
                 = Some (s, O)) /\
      (forall tMin s c,
          intersectBox vr ray = (true, tMin, tMax) ->
          traceReaches vr fuel ray tMin tMax s ->
          (cutoff <? m_transmittance s)%ar = false ->
          trace vr fuel ray = Some c -> c = m_color s)) /\
  (forall vr : VolumeRenderer R,
      0 < stepSize vr ->
      (forall fuel ray tMin tMax,
          (stepsTo 20 (stepSize vr) <= fuel)%nat ->
          (stepsTo (tMax - tMin) (stepSize vr) <= fuel)%nat ->
          exists s n, traceLoop vr fuel ray tMin tMax = Some (s, n) /\
                      (n <= stepsTo (tMax - tMin) (stepSize vr))%nat) /\
      (forall fuel ray tMin tMax s,
          (stepsTo 20 (stepSize vr) <= fuel)%nat ->
          (stepsTo (tMax - tMin) (stepSize vr) <= fuel)%nat ->
          intersectBox vr ray = (true, tMin, tMax) ->
          traceReaches vr fuel ray tMin tMax s ->
          m_transmittance s <= 1 / 100 ->
          while (traceCond tMax) (traceBody vr fuel ray) fuel s = Some (s, O) /\
          trace vr fuel ray = Some (m_color s)) /\
      (forall fuel pos,
          (stepsTo 20 (stepSize vr) <= fuel)%nat ->
          exists s n, shadowLoop vr fuel pos = Some (s, n) /\
                      (n <= stepsTo 20 (stepSize vr))%nat) /\
      (forall fuel pos s,
          sh_transmittance s <= 1 / 100 ->
          while shadowCond (fun s => Some (shadowBody vr pos s)) fuel s = Some (s, O))).
Proof.
  split.
  { intros F A L vr fuel k ray tMax pos. split; [|split].
    - intros s HT. apply while_exit. unfold traceCond. rewrite HT. apply andb_false_r.
    - intros s HT. apply while_exit. unfold shadowCond. rewrite HT. apply andb_false_r.
    - intros tMin s c Hbox Hr HT. unfold trace. rewrite Hbox; simpl.
      destruct (traceLoop vr fuel ray tMin tMax) as [[s' n]|] eqn:Hw; [|discriminate].
      intros E; inversion E; subst. unfold traceLoop in Hw.
      assert (Hc : traceCond tMax s = false)
        by (unfold traceCond; rewrite HT; apply andb_false_r).
      rewrite (while_stops_at _ Hr Hc Hw). reflexivity. }
  intros vr Hstep. split; [|split; [|split]].
  - intros fuel ray tMin tMax Hf1 Hf2.
    destruct (@traceLoop_total vr ray (fun _ => True) fuel tMin tMax Hstep Hf2 I)
      as (s & n & Hw & Hn & _).
    + intros s _ _ _. destruct (traceBody_total vr ray s Hstep Hf1) as [s' Hs'].
      exists s'. split; [exact Hs' | exact I].
    + exists s, n. split; assumption.
  - intros fuel ray tMin tMax s Hf1 Hf2 Hbox Hr HT.
    assert (Hc : traceCond tMax s = false) by (apply traceCond_false; right; exact HT).
    split; [apply while_exit; exact Hc|].
    destruct (@traceLoop_total vr ray (fun _ => True) fuel tMin tMax Hstep Hf2 I)
      as (s' & n & Hw & _).
    + intros a _ _ _. destruct (traceBody_total vr ray a Hstep Hf1) as [a' Ha'].
      exists a'. split; [exact Ha' | exact I].
    + unfold trace. rewrite Hbox; simpl. rewrite Hw.
      unfold traceLoop in Hw.
      rewrite (while_stops_at _ Hr Hc Hw). reflexivity.
  - intros fuel pos Hf.
    destruct (@shadowLoop_total vr pos (fun _ => True) Hstep I (fun _ _ _ _ => I) fuel Hf)
      as (s & n & Hw & Hn & _).
    exists s, n. split; assumption.
  - intros fuel pos s HT. apply while_exit. apply shadowCond_false. right; exact HT.
Qed.

(** The theorem at the unit cube of density 100, marched in steps of
    0.1 along the diagonal ray: the march ends within 15 iterations; the
    state after the first iteration, at t = 3.1 of 4.5, has the
    transmittance exp(-10), below 0.01, so that no further iteration is
    made there and [trace] returns its colour; and a shadow march ends
    within 200 iterations. *)
Lemma march_terminates_within_bound_witness :
  0 < stepSize (Scene.fog 100) /\
  (exists s n, traceLoop (Scene.fog 100) 200 Scene.rayDiagonal 3 (9 / 2) = Some (s, n) /\
               (n <= 15)%nat) /\
  (exists s, traceReaches (Scene.fog 100) 200 Scene.rayDiagonal 3 (9 / 2) s /\
             m_t s = 3 + 1 / 10 /\
             m_transmittance s = 1 * exp (- (100 * (1 / 10))) /\
             m_transmittance s <= 1 / 100 /\
             while (traceCond (9 / 2)) (traceBody (Scene.fog 100) 200 Scene.rayDiagonal)
                   200 s = Some (s, O) /\
             trace (Scene.fog 100) 200 Scene.rayDiagonal = Some (m_color s)) /\
  (exists s n, shadowLoop (Scene.fog 100) 200 (mkVec3 0 0 0) = Some (s, n) /\
               (n <= 200)%nat).
Proof.
  assert (Hstep : 0 < stepSize (Scene.fog 100)) by (simpl; lra).
  split; [exact Hstep|].
  destruct (proj2 march_terminates_within_bound (Scene.fog 100) Hstep)
    as (Hp & He & Hs & _).
  change (stepSize (Scene.fog 100)) with (1 / 10) in Hp, He, Hs.
  rewrite stepsTo_200 in Hp, He, Hs.
  assert (H15 : (stepsTo (9 / 2 - 3) (1 / 10) <= 200)%nat)
    by (rewrite stepsTo_diagonal; apply Nat.leb_le; reflexivity).
  split; [|split].
  - destruct (Hp 200%nat Scene.rayDiagonal 3 (9 / 2) (le_n 200) H15) as (s & n & Hw & Hn).
    rewrite stepsTo_diagonal in Hn. exists s, n. split; assumption.
  - destruct (@traceShadowRay_total (Scene.fog 100)
                (samplePoint Scene.rayDiagonal (traceInit 3)) 200)
      as (shadow & Hsh & _).
    { simpl; lra. }
    { change (stepSize (Scene.fog 100)) with (1 / 10). rewrite stepsTo_200. apply le_n. }
    assert (Hd : (fzero <? sampleDensity (Scene.fog 100)
                             (samplePoint Scene.rayDiagonal (traceInit 3)))%ar = true).
    { apply ltb_true. unfold fzero; simpl. lra. }
    pose proof (traceBody_scatter (Scene.fog 100) 200 Scene.rayDiagonal
                  (traceInit 3) Hd Hsh) as Hb.
    cbv zeta in Hb.
    match type of Hb with _ = Some ?st => set (s1 := st) in * end.
    assert (Hr : traceReaches (Scene.fog 100) 200 Scene.rayDiagonal 3 (9 / 2) s1).
    { unfold traceReaches.
      apply (@reaches_step _ (traceCond (9 / 2))
               (traceBody (Scene.fog 100) 200 Scene.rayDiagonal)
               (traceInit 3) (traceInit 3) s1 (reaches_init _ _ _)); [|exact Hb].
      apply traceCond_true. unfold traceInit, fone; simpl. lra. }
    assert (HT : m_transmittance s1 <= 1 / 100).
    { unfold s1, traceInit, fone; simpl.
      pose proof exp_minus_10. lra. }
    destruct (He 200%nat Scene.rayDiagonal 3 (9 / 2) s1 (le_n 200) H15
                (fog_hit_diagonal 100) Hr HT) as [Hw Ht].
    exists s1. split; [exact Hr|]. split; [reflexivity|]. split; [reflexivity|].
    split; [exact HT|]. split; [exact Hw | exact Ht].
  - destruct (Hs 200%nat (mkVec3 0 0 0) (le_n 200)) as (s & n & Hw & Hn).
    exists s, n. split; assumption.
Defined.

(** C5, the counterexample.  In binary32, whatever <cmath> returns: on
    the empty unit cube the diagonal ray enters at t = 3 and leaves at
    t = 4.5, the step is 13421773 / 2^27 (the float 0.1f), so that 15
    steps cover the distance 1.5 and (tMax - tMin) / stepSize is 15; the
    march makes 16 iterations, since the rounded sums of t stay below
    4.5 after 15 of them.  And on the empty cube at the distance 2^22 the
    sum t + stepSize is rounded to t: the body leaves the state as it is
    and the march does not end, whatever the fuel. *)
Lemma march_exceeds_bound_binary32 :
  intersectBox Scene.unitBox Scene.rayDiagonal32 = (true, fofZ 3, flit 9 2) /\
  stepSize Scene.unitBox = S754_finite false 13421773 (-27) /\
  (3 * 2 ^ 26 <= 15 * 13421773)%Z /\
  ((flit 9 2 - fofZ 3) / stepSize Scene.unitBox)%ar = fofZ 15 /\
  (forall L : Libm spec_float,
      exists s, traceLoop (H0 := L) Scene.unitBox 16 Scene.rayDiagonal32
                          (fofZ 3) (flit 9 2) = Some (s, 16%nat)) /\
  intersectBox Scene.farBox Scene.rayFar = (true, fofZ 4194304, fofZ 4194305) /\
  (forall (L : Libm spec_float) (fuel : nat),
      traceLoop (H0 := L) Scene.farBox fuel Scene.rayFar
                (fofZ 4194304) (fofZ 4194305) = None).
Proof.
  split; [vm_compute; reflexivity|]. split; [vm_compute; reflexivity|].
  split; [vm_compute; discriminate|]. split; [vm_compute; reflexivity|].
  split; [|split].
  - intros L. eexists. vm_compute. reflexivity.
  - vm_compute. reflexivity.
  - intros L fuel. unfold traceLoop. apply while_stall.
    + vm_compute. reflexivity.
    + vm_compute. reflexivity.
Qed.


End EarlyExit.

(** ** Scattering and the shadow ray *)

Section Scattering.
Import Real RealFacts.
Local Open Scope R_scope.

(** C1 (as the code has it).  At a sample of positive density the body
    of the march first multiplies the transmittance by exp(-extinction),
    with extinction = density * stepSize, and then adds to the red
    component of the colour phase * shadow * T' * extinction, where T'
    is the transmittance after that update and shadow is what
    [traceShadowRay] returns at the sample; the phase constant is
    1/(4 pi).  First in any arithmetic, with the operations in the order
    the code applies them, then in real arithmetic. *)
Theorem trace_scatter_contribution :
  (forall (F : Type) (A : Arith F) (L : Libm F) (vr : VolumeRenderer F)
          (fuel : nat) (ray : Ray F) (s : MarchState F) (shadow : F),
      (fzero <? sampleDensity vr (samplePoint ray s))%ar = true ->
      traceShadowRay vr fuel (samplePoint ray s) = Some shadow ->
      exists s',
        traceBody vr fuel ray s = Some s' /\
        let extinction := (sampleDensity vr (samplePoint ray s) * stepSize vr)%ar in
        m_transmittance s' = (m_transmittance s * fexp (- extinction))%ar /\
        vx (m_color s') =
        (vx (m_color s) +
         fone * (fone / (fofZ 4 * fpi)) * shadow * m_transmittance s' * extinction)%ar) /\
  (forall (vr : VolumeRenderer R) (fuel : nat) (ray : Ray R) (s : MarchState R)
          (shadow : R),
      0 < sampleDensity vr (samplePoint ray s) ->
      traceShadowRay vr fuel (samplePoint ray s) = Some shadow ->
      exists s',
        traceBody vr fuel ray s = Some s' /\
        let extinction := sampleDensity vr (samplePoint ray s) * stepSize vr in
        m_transmittance s' = m_transmittance s * exp (- extinction) /\
        vx (m_color s') =
        vx (m_color s) + 1 / (4 * PI) * shadow * m_transmittance s' * extinction).
Proof.
  split.
  - intros F A L vr fuel ray s shadow Hd Hs.
    rewrite (traceBody_scatter vr fuel ray s Hd Hs).
    eexists; split; [reflexivity|]. simpl. split; reflexivity.
  - intros vr fuel ray s shadow Hd Hs.
    assert (Hd' : (fzero <? sampleDensity vr (samplePoint ray s))%ar = true).
    { apply ltb_true. unfold fzero; simpl. exact Hd. }
    rewrite (traceBody_scatter vr fuel ray s Hd' Hs).
    eexists; split; [reflexivity|]. simpl. split; [reflexivity|].
    unfold phase, fone; simpl. ring.
Qed.

(** The theorem at the first sample of the diagonal ray through the unit
    cube of density 1. *)
Lemma trace_scatter_contribution_witness :
  0 < sampleDensity (Scene.fog 1) (samplePoint Scene.rayDiagonal (traceInit 3)) /\
  exists shadow s',
    traceShadowRay (Scene.fog 1) 200 (samplePoint Scene.rayDiagonal (traceInit 3))
    = Some shadow /\
    traceBody (Scene.fog 1) 200 Scene.rayDiagonal (traceInit 3) = Some s' /\
    m_transmittance s' = 1 * exp (- (1 * (1 / 10))) /\
    vx (m_color s') = 0 + 1 / (4 * PI) * shadow * m_transmittance s' * (1 * (1 / 10)).
Proof.
  assert (Hd : 0 < sampleDensity (Scene.fog 1)
                     (samplePoint Scene.rayDiagonal (traceInit 3))) by (simpl; lra).
  split; [exact Hd|].
  destruct (@traceShadowRay_total (Scene.fog 1)
              (samplePoint Scene.rayDiagonal (traceInit 3)) 200)
    as (shadow & Hs & _).
  { simpl; lra. }
  { change (stepSize (Scene.fog 1)) with (1 / 10). rewrite stepsTo_200. apply le_n. }
  destruct (proj2 trace_scatter_contribution (Scene.fog 1) 200%nat Scene.rayDiagonal
              (traceInit 3) shadow Hd Hs) as (s' & Hb & HT & Hc).
  exists shadow, s'. split; [exact Hs|]. split; [exact Hb|]. split; [exact HT | exact Hc].
Defined.

(** C1, the counterexample.  At that sample the transmittance arriving
    is 1 and the one after the update is exp(-1/10): the red component
    the body adds is not phase * shadow * 1 * extinction. *)
Lemma trace_scatter_not_pre_update :
  exists shadow s',
    traceShadowRay (Scene.fog 1) 200 (samplePoint Scene.rayDiagonal (traceInit 3))
    = Some shadow /\
    traceBody (Scene.fog 1) 200 Scene.rayDiagonal (traceInit 3) = Some s' /\
    m_transmittance (traceInit 3) = 1 /\
    vx (m_color s') <>
    vx (m_color (traceInit 3)) +
    1 / (4 * PI) * shadow * m_transmittance (traceInit 3) * (1 * (1 / 10)).
Proof.
  destruct (@traceShadowRay_total (Scene.fog 1)
              (samplePoint Scene.rayDiagonal (traceInit 3)) 200)
    as (shadow & Hs & Hpos).
  { simpl; lra. }
  { change (stepSize (Scene.fog 1)) with (1 / 10). rewrite stepsTo_200. apply le_n. }
  assert (Hd : (fzero <? sampleDensity (Scene.fog 1)
                           (samplePoint Scene.rayDiagonal (traceInit 3)))%ar = true).
  { apply ltb_true. unfold fzero; simpl. lra. }
  eexists shadow, _. split; [exact Hs|].
  split; [apply (traceBody_scatter _ 200 _ _ Hd Hs)|].
  split; [reflexivity|]. simpl. unfold phase, fone; simpl.
  assert (He : exp (- (1 * (1 / 10))) < 1) by (apply exp_lt_1; lra).
  pose proof (exp_pos (- (1 * (1 / 10)))) as He0.
  assert (Hk : 0 < 1 / (4 * PI) * shadow).
  { apply Rmult_lt_0_compat; [|exact Hpos].
    apply Rdiv_lt_0_compat; [lra|]. pose proof PI_RGT_0. lra. }
  nra.
Qed.

(** The green and blue components get nothing: the light is built from
    [Vec3(1.0f)], whose y and z are zero. *)
Lemma trace_scatter_green_blue (vr : VolumeRenderer R) (fuel : nat) (ray : Ray R)
  (s s' : MarchState R) :
  traceBody vr fuel ray s = Some s' ->
  vy (m_color s') = vy (m_color s) /\ vz (m_color s') = vz (m_color s).
Proof.
  unfold traceBody.
  destruct (fzero <? sampleDensity vr (samplePoint ray s))%ar.
  - destruct (traceShadowRay vr fuel (samplePoint ray s)); [|discriminate].
    intros E; inversion E; simpl. unfold fzero; simpl. split; ring.
  - intros E; inversion E; simpl. split; reflexivity.
Qed.

(** The shadow march over densities that are not negative: the result is
    in (0, 1]. *)
Lemma traceShadowRay_unit_interval (vr : VolumeRenderer R) (pos : Vec3 R) (fuel : nat) :
  0 < stepSize vr -> (stepsTo 20 (stepSize vr) <= fuel)%nat ->
  (forall s, shadowReaches vr pos s -> shadowCond s = true ->
             0 <= shadowDensity vr pos s) ->
  exists L, traceShadowRay vr fuel pos = Some L /\ 0 < L <= 1.
Proof.
  intros Hstep Hfuel Hd.
  destruct (@shadowLoop_total vr pos (fun _ => True) Hstep I (fun _ _ _ _ => I) fuel Hfuel)
    as (s & n & Hw & _ & _ & Hr & _).
  exists (sh_transmittance s). split; [eapply traceShadowRay_of_loop; eauto|].
  split; [apply (shadow_positive Hr)|].
  apply (shadow_at_most_one Hd); [lra | exact Hr].
Qed.

(** The shadow march over densities that are all zero returns 1. *)
Lemma traceShadowRay_clear (vr : VolumeRenderer R) (pos : Vec3 R) (fuel : nat) :
  0 < stepSize vr -> (stepsTo 20 (stepSize vr) <= fuel)%nat ->
  (forall s, shadowReaches vr pos s -> shadowCond s = true ->
             shadowDensity vr pos s = 0) ->
  traceShadowRay vr fuel pos = Some 1.
Proof.
  intros Hstep Hfuel Hd.
  destruct (@shadowLoop_total vr pos (fun _ => True) Hstep I (fun _ _ _ _ => I) fuel Hfuel)
    as (s & n & Hw & _ & _ & Hr & _).
  rewrite (traceShadowRay_of_loop _ _ _ Hw). f_equal.
  apply (shadow_stays_one Hd Hr).
Qed.

(** The layered cube: where the ray enters, what the first sample
    finds, and the density by height. *)
Lemma layered_hit : intersectBox Scene.layered Scene.rayDiagonal = (true, 3, 9 / 2).
Proof. exact (fog_hit_diagonal 0). Qed.

Lemma firstSample_y : vy Scene.firstSample = 0.
Proof. unfold Scene.firstSample, samplePoint, vadd, vscale; simpl. field. Qed.

Lemma layered_low (p : Vec3 R) : vy p <= 1 / 20 -> sampleDensity Scene.layered p = 1.
Proof. intros Hp. simpl. rewrite (proj2 (leb_true _ _) Hp). reflexivity. Qed.

Lemma layered_high (p : Vec3 R) : 1 / 20 < vy p -> sampleDensity Scene.layered p = -1.
Proof. intros Hp. simpl. rewrite (proj2 (leb_false _ _) Hp). reflexivity. Qed.

Lemma layered_shadow_y (s : ShadowState R) :
  vy (shadowSample Scene.layered Scene.firstSample s) = sh_t s.
Proof.
  unfold shadowSample, vadd, vscale. cbn [vy lightDir Scene.layered].
  rewrite firstSample_y. simpl. ring.
Qed.

Lemma layered_first_positive :
  (fzero <? sampleDensity Scene.layered Scene.firstSample)%ar = true.
Proof.
  rewrite layered_low by (rewrite firstSample_y; lra).
  apply ltb_true. unfold fzero; simpl. lra.
Qed.

Lemma exp_tenth_bounds : 9 / 10 <= exp (- (1 / 10)) /\ exp (- (1 / 10)) < 1.
Proof.
  split.
  - pose proof (exp_ineq1_le (- (1 / 10))). lra.
  - apply exp_lt_1. lra.
Qed.

(** The shadow march from the first sample: after the first iteration
    every sample lies above y = 1/20, where the density is -1, and the
    transmittance at the parameter t is exp(t - 2/10). *)
Lemma layered_shadow_invariant (s : ShadowState R) :
  shadowReaches Scene.layered Scene.firstSample s ->
  (sh_t s = 0 /\ sh_transmittance s = 1) \/
  (1 / 10 <= sh_t s /\ sh_transmittance s = exp (sh_t s - 2 / 10)).
Proof.
  intros Hr. unfold shadowReaches in Hr. induction Hr as [|a b Hr IH Hc Hb].
  - left. unfold shadowInit, fone, fzero; simpl. split; reflexivity.
  - right. inversion Hb; subst. rewrite shadowBody_eq. unfold shadowDensity.
    cbn [sh_t sh_transmittance]. change (stepSize Scene.layered) with (1 / 10).
    destruct IH as [[Ht HT] | [Ht HT]].
    + rewrite layered_low by (rewrite layered_shadow_y; lra).
      rewrite Ht, HT. split; [lra|]. rewrite Rmult_1_l. f_equal. lra.
    + rewrite layered_high by (rewrite layered_shadow_y; lra).
      rewrite HT. split; [lra|]. rewrite <- exp_plus. f_equal. lra.
Qed.

(** What [traceShadowRay] returns at the first sample of the layered
    cube. *)
Lemma layered_shadow_result :
  exists L, traceShadowRay Scene.layered 200 Scene.firstSample = Some L /\
            exp (20 - 2 / 10) <= L.
Proof.
  destruct (@shadowLoop_total Scene.layered Scene.firstSample (fun _ => True))
    with (fuel := 200%nat) as (s & n & Hw & _ & _ & Hr & Hc).
  - simpl; lra.
  - exact I.
  - intros; exact I.
  - change (stepSize Scene.layered) with (1 / 10). rewrite stepsTo_200. apply le_n.
  - exists (sh_transmittance s). split; [eapply traceShadowRay_of_loop; eauto|].
    apply shadowCond_false in Hc.
    pose proof exp_tenth_bounds as [Hlo _].
    destruct (layered_shadow_invariant Hr) as [[Ht HT] | [Ht HT]].
    + exfalso. lra.
    + rewrite HT in *.
      assert (Hm : exp (- (1 / 10)) <= exp (sh_t s - 2 / 10)).
      { destruct (Req_dec (sh_t s) (1 / 10)) as [E|E].
        - rewrite E. right. f_equal. lra.
        - left. apply exp_increasing. lra. }
      destruct Hc as [Hc|Hc]; [|exfalso; lra].
      destruct (Req_dec (sh_t s) 20) as [E|E].
      * rewrite E. right. reflexivity.
      * left. apply exp_increasing. lra.
Qed.

(** C2, the failing input.  On the layered cube the diagonal ray hits
    the box and its first sample, the corner (0, 0, 0), has the positive
    density 1, so that [trace] calls [traceShadowRay] there.  The second
    iteration of that shadow march, at t = 0.1 with the transmittance
    exp(-1/10), samples the density -1 and multiplies the transmittance
    by exp(1/10): the negative sample is not treated as one of zero
    density.  The primary march does skip such a sample
    ([traceBody_skip]). *)
Theorem shadow_march_negative_density :
  intersectBox Scene.layered Scene.rayDiagonal = (true, 3, 9 / 2) /\
  traceCond (9 / 2) (@traceInit R _ 3) = true /\
  (fzero <? sampleDensity Scene.layered
              (samplePoint Scene.rayDiagonal (traceInit 3)))%ar = true /\
  exists s : ShadowState R,
    shadowReaches Scene.layered Scene.firstSample s /\
    shadowCond s = true /\
    sh_t s = 1 / 10 /\
    sh_transmittance s = exp (- (1 / 10)) /\
    shadowDensity Scene.layered Scene.firstSample s = -1 /\
    sh_transmittance (shadowBody Scene.layered Scene.firstSample s)
    = exp (- (1 / 10)) * exp (1 / 10) /\
    sh_transmittance s
    < sh_transmittance (shadowBody Scene.layered Scene.firstSample s).
Proof.
  split; [exact layered_hit|]. split.
  { apply traceCond_true. unfold traceInit, fone; simpl. lra. }
  split; [exact layered_first_positive|].
  assert (Hc0 : shadowCond (@shadowInit R _) = true).
  { apply shadowCond_true. unfold shadowInit, fone, fzero; simpl. lra. }
  pose (s1 := shadowBody Scene.layered Scene.firstSample shadowInit).
  assert (Hr : shadowReaches Scene.layered Scene.firstSample s1).
  { unfold shadowReaches.
    apply (@reaches_step _ shadowCond
             (fun s => Some (shadowBody Scene.layered Scene.firstSample s))
             shadowInit shadowInit s1 (reaches_init _ _ _) Hc0 eq_refl). }
  assert (Ht1 : sh_t s1 = 1 / 10).
  { unfold s1. rewrite shadowBody_eq. unfold shadowInit, fzero; simpl. lra. }
  assert (HT1 : sh_transmittance s1 = exp (- (1 / 10))).
  { destruct (layered_shadow_invariant Hr) as [[Ht _] | [_ HT]]; [lra|].
    rewrite HT, Ht1. f_equal. lra. }
  assert (Hd1 : shadowDensity Scene.layered Scene.firstSample s1 = -1).
  { unfold shadowDensity. apply layered_high. rewrite layered_shadow_y. lra. }
  pose proof exp_tenth_bounds as [Hlo Hhi].
  assert (Hg : 1 < exp (1 / 10)) by (apply exp_gt_1; lra).
  exists s1. split; [exact Hr|]. split.
  { apply shadowCond_true. rewrite Ht1, HT1. lra. }
  split; [exact Ht1|]. split; [exact HT1|]. split; [exact Hd1|].
  assert (Hb : sh_transmittance (shadowBody Scene.layered Scene.firstSample s1)
               = exp (- (1 / 10)) * exp (1 / 10)).
  { rewrite shadowBody_eq. cbn [sh_transmittance]. rewrite Hd1, HT1.
    change (stepSize Scene.layered) with (1 / 10). f_equal. f_equal. lra. }
  split; [exact Hb|]. rewrite Hb, HT1. nra.
Qed.

(** C3, the failing input.  On the layered cube [trace] calls
    [traceShadowRay] at the first sample of the diagonal ray (the density
    there is 1), and the shadow march returns a transmittance of at least
    exp(19.8), above 1.  [trace] returns the light of that one sample,
    phase * L * exp(-1/10) * (1/10) in the red component, which is more
    than any shadow transmittance in (0, 1] would give. *)
Theorem shadow_ray_exceeds_one :
  intersectBox Scene.layered Scene.rayDiagonal = (true, 3, 9 / 2) /\
  traceCond (9 / 2) (@traceInit R _ 3) = true /\
  (fzero <? sampleDensity Scene.layered
              (samplePoint Scene.rayDiagonal (traceInit 3)))%ar = true /\
  exists L c,
    traceShadowRay Scene.layered 200 (samplePoint Scene.rayDiagonal (traceInit 3))
    = Some L /\
    1 < L /\
    trace Scene.layered 200 Scene.rayDiagonal = Some c /\
    vx c = 1 / (4 * PI) * L * exp (- (1 / 10)) * (1 / 10) /\
    1 / (4 * PI) * 1 * exp (- (1 / 10)) * (1 / 10) < vx c.
Proof.
  split; [exact layered_hit|]. split.
  { apply traceCond_true. unfold traceInit, fone; simpl. lra. }
  split; [exact layered_first_positive|].
  destruct layered_shadow_result as (L & HL & HLbig).
  assert (HL1 : 1 < L).
  { assert (H : 1 < exp (20 - 2 / 10)) by (apply exp_gt_1; lra). lra. }
  pose proof (traceBody_scatter Scene.layered 200 Scene.rayDiagonal (traceInit 3)
                layered_first_positive HL) as Hb.
  cbv zeta in Hb.
  match type of Hb with _ = Some ?st => set (s1 := st) in * end.
  assert (Ht1 : m_t s1 = 3 + 1 / 10) by reflexivity.
  assert (HT1 : m_transmittance s1 = exp (- (1 / 10))).
  { unfold s1. cbn [m_transmittance]. fold Scene.firstSample.
    rewrite layered_low by (rewrite firstSample_y; lra).
    unfold traceInit, fone; simpl. rewrite Rmult_1_l. f_equal. lra. }
  assert (Hx1 : vx (m_color s1) = 1 / (4 * PI) * L * exp (- (1 / 10)) * (1 / 10)).
  { unfold s1. cbn [m_color vx]. fold Scene.firstSample.
    rewrite layered_low by (rewrite firstSample_y; lra).
    unfold traceInit, phase, fone, fzero; simpl.
    replace (1 * (1 / 10)) with (1 / 10) by lra. ring. }
  pose proof exp_tenth_bounds as [Hlo Hhi].
  destruct (@traceLoop_total Scene.layered Scene.rayDiagonal
              (fun s => s = traceInit 3 \/
                        (3 + 1 / 10 <= m_t s /\ m_color s = m_color s1 /\
                         m_transmittance s = m_transmittance s1))
              200%nat 3 (9 / 2))
    as (s & n & Hw & _ & HP & _ & Hc).
  - simpl; lra.
  - change (stepSize Scene.layered) with (1 / 10). rewrite stepsTo_diagonal.
    apply Nat.leb_le. reflexivity.
  - left; reflexivity.
  - intros a _ HP _. destruct HP as [-> | (Ha & Hca & HTa)].
    + exists s1. split; [exact Hb|]. right. rewrite Ht1. split; [lra|]. split; reflexivity.
    + assert (Hd : (fzero <? sampleDensity Scene.layered
                                (samplePoint Scene.rayDiagonal a))%ar = false).
      { rewrite layered_high.
        - apply ltb_false. unfold fzero; simpl. lra.
        - unfold samplePoint, vadd, vscale; simpl. lra. }
      rewrite (traceBody_skip Scene.layered 200 Scene.rayDiagonal a Hd).
      eexists; split; [reflexivity|]. right. cbn [m_t m_color m_transmittance].
      split; [change (3 + 1 / 10 <= m_t a + 1 / 10); lra|]. split; assumption.
  - exists L, (m_color s). split; [exact HL|]. split; [exact HL1|].
    assert (Hcol : m_color s = m_color s1).
    { destruct HP as [-> | (_ & Hcs & _)]; [|exact Hcs].
      exfalso. apply traceCond_false in Hc. unfold traceInit, fone in Hc; simpl in Hc. lra. }
    split.
    { unfold trace. rewrite layered_hit; simpl. rewrite Hw. reflexivity. }
    rewrite Hcol, Hx1. split; [reflexivity|].
    assert (Hk : 0 < 1 / (4 * PI)).
    { apply Rdiv_lt_0_compat; [lra|]. pose proof PI_RGT_0. lra. }
    assert (Hm : 0 < 1 / (4 * PI) * exp (- (1 / 10)) * (1 / 10)).
    { apply Rmult_lt_0_compat; [|lra]. apply Rmult_lt_0_compat; [exact Hk | lra]. }
    nra.
Qed.
End Scattering.

(** ** Ray/box intersection *)

Section SlabFacts.
Context {F : Type} `{Arith F}.

(** The out-parameters and the flag of [intersectBox], axis by axis. *)
Lemma intersectBox_slab (vr : VolumeRenderer F) (ray : Ray F) :
  intersectBox vr ray =
  slabResult
    (fmax (fmax (nearOf vr ray (@vx F)) (nearOf vr ray (@vy F))) (nearOf vr ray (@vz F)))
    (fmin (fmin (farOf vr ray (@vx F)) (farOf vr ray (@vy F))) (farOf vr ray (@vz F))).
Proof. reflexivity. Qed.
End SlabFacts.

Module B32Facts.
Import B32.

Lemma zero_is_pos_zero : @fzero spec_float _ = S754_zero false.
Proof. reflexivity. Qed.

Lemma one_over_zero (s : bool) :
  (@fone spec_float _ / S754_zero s)%ar = S754_infinity s.
Proof. destruct s; reflexivity. Qed.

Lemma neg_times_inf (a : spec_float) (s : bool) :
  (a <? fzero)%ar = true -> (a * S754_infinity s)%ar = S754_infinity (negb s).
Proof.
  destruct a as [sa|sa| |sa m e]; simpl; try discriminate.
  - destruct sa; simpl; try discriminate. reflexivity.
  - unfold SFltb; simpl. destruct sa; simpl; try discriminate. reflexivity.
Qed.

Lemma pos_times_inf (b : spec_float) (s : bool) :
  (fzero <? b)%ar = true -> (b * S754_infinity s)%ar = S754_infinity s.
Proof.
  destruct b as [sb|sb| |sb m e]; simpl; try discriminate.
  - destruct sb; simpl; try discriminate. reflexivity.
  - unfold SFltb; simpl. destruct sb; simpl; try discriminate. reflexivity.
Qed.

(** With a zero direction component and the origin strictly between the
    two faces, the axis offers the whole line. *)
Lemma axis_unconstrained (s : bool) (lo hi o : spec_float) :
  (lo - o <? fzero)%ar = true -> (fzero <? hi - o)%ar = true ->
  axisNear lo hi o (S754_zero s) = ninf /\ axisFar lo hi o (S754_zero s) = pinf.
Proof.
  intros Hlo Hhi. unfold axisNear, axisFar.
  rewrite one_over_zero, (neg_times_inf _ s Hlo), (pos_times_inf _ s Hhi).
  destruct s; split; reflexivity.
Qed.

Lemma fmax_ninf_l (y : spec_float) : isNaN y = false -> fmax ninf y = y.
Proof. destruct y as [s|s| |s m e]; try discriminate; try reflexivity.
       destruct s; reflexivity. Qed.
Lemma fmax_ninf_r (x : spec_float) : fmax x ninf = x.
Proof. destruct x as [s|s| |s m e]; try reflexivity. destruct s; reflexivity. Qed.
Lemma fmin_pinf_l (y : spec_float) : isNaN y = false -> fmin pinf y = y.
Proof. destruct y as [s|s| |s m e]; try discriminate; try reflexivity.
       destruct s; reflexivity. Qed.
Lemma fmin_pinf_r (x : spec_float) : fmin x pinf = x.
Proof. destruct x as [s|s| |s m e]; try reflexivity. destruct s; reflexivity. Qed.

End B32Facts.

(** C4 (as the code has it).  [intersectBox] takes tMin as the maximum
    over the axes of the near parameters and tMax as the minimum of the
    far parameters, and reports a hit exactly when tMax >= tMin and
    tMax > 0.  In binary32 a direction component that is a zero gives an
    infinite inverse, not an error; and when the origin lies strictly
    between the two faces of that axis (the other parameters not being
    NaN) the axis does not constrain the interval: the result is the one
    of the two other axes. *)
Theorem intersectBox_slab_method :
  (forall (F : Type) (A : Arith F) (vr : VolumeRenderer F) (ray : Ray F),
      let tMin := fmax (fmax (nearOf vr ray (@vx F)) (nearOf vr ray (@vy F)))
                       (nearOf vr ray (@vz F)) in
      let tMax := fmin (fmin (farOf vr ray (@vx F)) (farOf vr ray (@vy F)))
                       (farOf vr ray (@vz F)) in
      snd (fst (intersectBox vr ray)) = tMin /\
      snd (intersectBox vr ray) = tMax /\
      (fst (fst (intersectBox vr ray)) = true <->
       (tMin <=? tMax)%ar = true /\ (fzero <? tMax)%ar = true)) /\
  (forall s : bool, (@fone spec_float _ / S754_zero s)%ar = S754_infinity s) /\
  (forall (vr : VolumeRenderer spec_float) (ray : Ray spec_float) (s : bool),
      vx (direction ray) = S754_zero s ->
      (vx (t0 vr) - vx (origin ray) <? fzero)%ar = true ->
      (fzero <? vx (t1 vr) - vx (origin ray))%ar = true ->
      B32.isNaN (nearOf vr ray (@vy _)) = false ->
      B32.isNaN (farOf vr ray (@vy _)) = false ->
      intersectBox vr ray =
      slabResult (fmax (nearOf vr ray (@vy _)) (nearOf vr ray (@vz _)))
                 (fmin (farOf vr ray (@vy _)) (farOf vr ray (@vz _)))) /\
  (forall (vr : VolumeRenderer spec_float) (ray : Ray spec_float) (s : bool),
      vy (direction ray) = S754_zero s ->
      (vy (t0 vr) - vy (origin ray) <? fzero)%ar = true ->
      (fzero <? vy (t1 vr) - vy (origin ray))%ar = true ->
      intersectBox vr ray =
      slabResult (fmax (nearOf vr ray (@vx _)) (nearOf vr ray (@vz _)))
                 (fmin (farOf vr ray (@vx _)) (farOf vr ray (@vz _)))) /\
  (forall (vr : VolumeRenderer spec_float) (ray : Ray spec_float) (s : bool),
      vz (direction ray) = S754_zero s ->
      (vz (t0 vr) - vz (origin ray) <? fzero)%ar = true ->
      (fzero <? vz (t1 vr) - vz (origin ray))%ar = true ->
      intersectBox vr ray =
      slabResult (fmax (nearOf vr ray (@vx _)) (nearOf vr ray (@vy _)))
                 (fmin (farOf vr ray (@vx _)) (farOf vr ray (@vy _)))).
Proof.
  split; [|split; [|split; [|split]]].
  - intros F A vr ray tMin tMax. rewrite intersectBox_slab. unfold slabResult; simpl.
    fold tMin tMax. split; [reflexivity|]. split; [reflexivity|].
    apply andb_true_iff.
  - exact B32Facts.one_over_zero.
  - intros vr ray s Hd Hlo Hhi Hn Hf. rewrite intersectBox_slab.
    destruct (B32Facts.axis_unconstrained s _ _ _ Hlo Hhi) as [En Ef].
    unfold nearOf at 1, farOf at 1. rewrite Hd, En, Ef.
    rewrite (B32Facts.fmax_ninf_l _ Hn), (B32Facts.fmin_pinf_l _ Hf). reflexivity.
  - intros vr ray s Hd Hlo Hhi. rewrite intersectBox_slab.
    destruct (B32Facts.axis_unconstrained s _ _ _ Hlo Hhi) as [En Ef].
    unfold nearOf at 2, farOf at 2. rewrite Hd, En, Ef.
    rewrite B32Facts.fmax_ninf_r, B32Facts.fmin_pinf_r. reflexivity.
  - intros vr ray s Hd Hlo Hhi. rewrite intersectBox_slab.
    destruct (B32Facts.axis_unconstrained s _ _ _ Hlo Hhi) as [En Ef].
    unfold nearOf at 3, farOf at 3. rewrite Hd, En, Ef.
    rewrite B32Facts.fmax_ninf_r, B32Facts.fmin_pinf_r. reflexivity.
Qed.

(** The theorem at the ray through the middle of the unit cube: its x
    and y direction components are zero, and the interval is the one of
    the z axis, from 1 to 2. *)
Lemma intersectBox_slab_method_witness :
  vx (direction Scene.rayThrough) = S754_zero false /\
  intersectBox Scene.unitBox Scene.rayThrough =
  slabResult (fmax (nearOf Scene.unitBox Scene.rayThrough (@vy _))
                   (nearOf Scene.unitBox Scene.rayThrough (@vz _)))
             (fmin (farOf Scene.unitBox Scene.rayThrough (@vy _))
                   (farOf Scene.unitBox Scene.rayThrough (@vz _))) /\
  intersectBox Scene.unitBox Scene.rayThrough = (true, fofZ 1, fofZ 2).
Proof.
  split; [reflexivity|]. split.
  - apply (proj1 (proj2 (proj2 intersectBox_slab_method))
             Scene.unitBox Scene.rayThrough false); reflexivity.
  - vm_compute. reflexivity.
Defined.

(** C4, the counterexample.  The ray beside the unit cube has a zero x
    component in its direction and its origin outside the x slab: both
    x parameters are minus infinity, so the x axis empties the interval
    and the ray is reported to miss, although the y and z axes alone
    give the interval from 1 to 2. *)
Lemma intersectBox_zero_component_constrains :
  vx (direction Scene.rayBeside) = S754_zero false /\
  nearOf Scene.unitBox Scene.rayBeside (@vx _) = B32.ninf /\
  farOf Scene.unitBox Scene.rayBeside (@vx _) = B32.ninf /\
  intersectBox Scene.unitBox Scene.rayBeside = (false, fofZ 1, B32.ninf) /\
  slabResult (fmax (nearOf Scene.unitBox Scene.rayBeside (@vy _))
                   (nearOf Scene.unitBox Scene.rayBeside (@vz _)))
             (fmin (farOf Scene.unitBox Scene.rayBeside (@vy _))
                   (farOf Scene.unitBox Scene.rayBeside (@vz _)))
  = (true, fofZ 1, fofZ 2).
Proof. repeat split; vm_compute; reflexivity. Qed.

(** ** Image.h: setPixel and getPixel *)

Module ImageFacts.
Import ImageH.

Lemma nth_set_nth {A : Type} (d v : A) (l : list A) (n : nat) :
  (n < List.length l)%nat -> nth n (set_nth n v l) d = v.
Proof.
  revert n. induction l as [|a l IH]; intros [|n] Hn; simpl in *; try lia.
  - reflexivity.
  - apply IH. lia.
Qed.

Lemma nth_set_nth_other {A : Type} (d v : A) (l : list A) (n k : nat) :
  n <> k -> nth k (set_nth n v l) d = nth k l d.
Proof.
  revert n k. induction l as [|a l IH]; intros [|n] [|k] Hnk; simpl; try reflexivity.
  - congruence.
  - apply IH. congruence.
Qed.

Lemma length_set_nth {A : Type} (v : A) (l : list A) (n : nat) :
  List.length (set_nth n v l) = List.length l.
Proof.
  revert n. induction l as [|a l IH]; intros [|n]; simpl; try reflexivity.
  rewrite IH. reflexivity.
Qed.

Section Generic.
Context {F : Type} `{Arith F}.

Lemma inRange_true (img : Image F) (x y : Z) :
  inRange img x y = true <->
  (0 <= x < width img /\ 0 <= y < height img)%Z.
Proof.
  unfold inRange. rewrite !andb_true_iff, !Z.leb_le, !Z.ltb_lt. tauto.
Qed.

Lemma inRange_false (img : Image F) (x y : Z) :
  inRange img x y = false <->
  (x < 0 \/ width img <= x \/ y < 0 \/ height img <= y)%Z.
Proof.
  unfold inRange. rewrite !andb_false_iff, !Z.leb_gt, !Z.ltb_ge. tauto.
Qed.

Lemma coeff_setCoeff (m : Matrix F) (rows cols row col : Z) (v : F) :
  hasShape m rows cols -> (0 <= row < rows)%Z -> (0 <= col < cols)%Z ->
  coeff (setCoeff m row col v) row col = v.
Proof.
  intros [Hlen Hrows] Hr Hc. unfold coeff, setCoeff.
  assert (Hrow : (Z.to_nat row < List.length m)%nat) by lia.
  rewrite (nth_set_nth _ _ _ Hrow).
  apply nth_set_nth.
  rewrite Forall_forall in Hrows. rewrite (Hrows (nth (Z.to_nat row) m [])).
  - lia.
  - apply nth_In. exact Hrow.
Qed.

(** Writing one entry leaves every other entry as it was. *)
Lemma coeff_setCoeff_other (m : Matrix F) (row col row' col' : Z) (v : F) :
  (0 <= row)%Z -> (0 <= col)%Z -> (0 <= row')%Z -> (0 <= col')%Z ->
  (row', col') <> (row, col) ->
  coeff (setCoeff m row col v) row' col' = coeff m row' col'.
Proof.
  intros Hr Hc Hr' Hc' Hne. unfold coeff, setCoeff.
  destruct (Z.eq_dec row row') as [->|Hrow].
  - destruct (Nat.lt_ge_cases (Z.to_nat row') (List.length m)) as [Hlt|Hge].
    + rewrite (nth_set_nth _ _ _ Hlt). apply nth_set_nth_other.
      intros E. apply Hne. f_equal. lia.
    + assert (E : forall (l : list (list F)) n w, (List.length l <= n)%nat -> set_nth n w l = l).
      { induction l as [|a l IH]; intros [|n] w Hn; simpl in *; try reflexivity; try lia.
        rewrite IH by lia. reflexivity. }
      rewrite E by exact Hge. reflexivity.
  - rewrite nth_set_nth_other by lia. reflexivity.
Qed.
End Generic.
(** In binary64: the write of (2, 1/2, -1) at pixel (1, 0) reads back as
    (1, 1/2, 0), and pixel (0, 0) still reads as zero. *)
Lemma setPixel_getPixel_binary64 :
  let seven := fofZ (Arith := B64.arith) 7 in
  getPixel (H := B64.arith) Scene.writtenImage64 1 0 (seven, seven, seven)
  = (fofZ (Arith := B64.arith) 1, flit (H := B64.arith) 1 2,
     fofZ (Arith := B64.arith) 0) /\
  getPixel (H := B64.arith) Scene.writtenImage64 0 0 (seven, seven, seven)
  = (fofZ (Arith := B64.arith) 0, fofZ (Arith := B64.arith) 0,
     fofZ (Arith := B64.arith) 0) /\
  getPixel (H := B64.arith) Scene.writtenImage64 2 0 (seven, seven, seven)
  = (seven, seven, seven).
Proof. vm_compute. repeat split; reflexivity. Qed.
End ImageFacts.

(** C10.  Outside [0, width) x [0, height), [setPixel] returns the image
    as it was and [getPixel] leaves its three reference parameters as
    they were.  Inside, [setPixel] stores the clamped channels (in real
    arithmetic the stored value lies in [0, 1]), and [getPixel] returns
    what the matrices hold, whatever it is. *)
Theorem setPixel_getPixel_range :
  (forall (F : Type) (A : Arith F) (img : ImageH.Image F) (x y : Z)
          (r g b : F) (rgb : F * F * F),
      (x < 0 \/ ImageH.width img <= x \/ y < 0 \/ ImageH.height img <= y)%Z ->
      ImageH.setPixel img x y r g b = img /\
      ImageH.getPixel img x y rgb = rgb) /\
  (forall (F : Type) (A : Arith F) (img : ImageH.Image F) (x y : Z)
          (r g b : F) (rgb : F * F * F),
      (0 <= x < ImageH.width img /\ 0 <= y < ImageH.height img)%Z ->
      ImageH.getPixel img x y rgb =
      (ImageH.coeff (ImageH.red img) y x, ImageH.coeff (ImageH.green img) y x,
       ImageH.coeff (ImageH.blue img) y x) /\
      (ImageH.wellFormed img ->
       ImageH.getPixel (ImageH.setPixel img x y r g b) x y rgb =
       (fclamp r fzero fone, fclamp g fzero fone, fclamp b fzero fone))) /\
  (forall v : R, (0 <= fclamp v 0 1 <= 1)%R /\
                 ((0 <= v <= 1)%R -> fclamp v 0%R 1%R = v)).
Proof.
  split; [|split].
  - intros F A img x y r g b rgb Hout.
    apply ImageFacts.inRange_false in Hout.
    unfold ImageH.setPixel, ImageH.getPixel. rewrite Hout. split; reflexivity.
  - intros F A img x y r g b rgb Hin.
    pose proof (proj2 (ImageFacts.inRange_true img x y) Hin) as Hr.
    split.
    + unfold ImageH.getPixel. rewrite Hr. reflexivity.
    + intros (Hred & Hgreen & Hblue).
      unfold ImageH.getPixel, ImageH.setPixel. rewrite Hr.
      assert (Hr' : ImageH.inRange
                      (ImageH.mkImage (ImageH.width img) (ImageH.height img)
                         (ImageH.setCoeff (ImageH.red img) y x (fclamp r fzero fone))
                         (ImageH.setCoeff (ImageH.green img) y x (fclamp g fzero fone))
                         (ImageH.setCoeff (ImageH.blue img) y x (fclamp b fzero fone)))
                      x y = true) by exact Hr.
      rewrite Hr'. simpl.
      destruct Hin as [Hx Hy].
      rewrite (ImageFacts.coeff_setCoeff _ Hred Hy Hx),
              (ImageFacts.coeff_setCoeff _ Hgreen Hy Hx),
              (ImageFacts.coeff_setCoeff _ Hblue Hy Hx).
      reflexivity.
  - intros v. unfold fclamp; simpl. unfold Real.ltb.
    destruct (Rlt_dec v 0); [split; [lra | intros; lra]|].
    destruct (Rlt_dec 1 v); split; try lra; intros; lra.
Qed.

(** The theorem at a 2 x 2 image: a write at (5, 0) changes nothing, a
    write of (2, 1/2, -1) at (1, 0) reads back as (1, 1/2, 0), and the
    entry 5 left in the red matrix is read back as 5. *)
Lemma setPixel_getPixel_range_witness :
  (5 < 0 \/ ImageH.width (@ImageH.Image_new R _ 2 2) <= 5 \/
   0 < 0 \/ ImageH.height (@ImageH.Image_new R _ 2 2) <= 0)%Z /\
  ImageH.setPixel (@ImageH.Image_new R _ 2 2) 5 0 1%R 1%R 1%R = ImageH.Image_new 2 2 /\
  ImageH.getPixel (ImageH.setPixel (@ImageH.Image_new R _ 2 2) 1 0 2 (1 / 2) (-1))%R
                  1 0 (7, 7, 7)%R
  = (fclamp 2 0 1, fclamp (1 / 2) 0 1, fclamp (-1) 0 1)%R /\
  ImageH.getPixel Scene.brightImage 0 0 (7, 7, 7)%R = (5, 0, 0)%R.
Proof.
  assert (Hout : (5 < 0 \/ ImageH.width (@ImageH.Image_new R _ 2 2) <= 5 \/
                  0 < 0 \/ ImageH.height (@ImageH.Image_new R _ 2 2) <= 0)%Z).
  { right; left. simpl. lia. }
  split; [exact Hout|]. split.
  - apply (proj1 setPixel_getPixel_range R _ (ImageH.Image_new 2 2) 5%Z 0%Z
             1%R 1%R 1%R (0, 0, 0)%R Hout).
  - split.
    + assert (Hin : (0 <= 1 < ImageH.width (@ImageH.Image_new R _ 2 2) /\
                     0 <= 0 < ImageH.height (@ImageH.Image_new R _ 2 2))%Z)
        by (simpl; lia).
      assert (Hwf : ImageH.wellFormed (@ImageH.Image_new R _ 2 2)).
      { unfold ImageH.wellFormed, ImageH.hasShape; simpl.
        repeat split; repeat constructor. }
      exact (proj2 (proj1 (proj2 setPixel_getPixel_range) R _ (ImageH.Image_new 2 2)
                      1%Z 0%Z 2%R (1 / 2)%R (-1)%R (7, 7, 7)%R Hin) Hwf).
    + assert (Hin : (0 <= 0 < ImageH.width Scene.brightImage /\
                     0 <= 0 < ImageH.height Scene.brightImage)%Z)
        by (simpl; lia).
      exact (proj1 (proj1 (proj2 setPixel_getPixel_range) R _ Scene.brightImage 0%Z 0%Z
                      0%R 0%R 0%R (7, 7, 7)%R Hin)).
Defined.

(** ** The camera bases, in real arithmetic *)

Module VectorFacts.
Import Real RealFacts.
Local Open Scope R_scope.

Lemma dot_self_nonneg (v : Vec3 R) : 0 <= dot v v.
Proof. destruct v as [x y z]; unfold dot; simpl. nra. Qed.

Lemma dot_self_pos (v : Vec3 R) : v <> zero3 -> 0 < dot v v.
Proof.
  destruct v as [x y z]; unfold dot, zero3; simpl. intros Hne.
  destruct (Req_dec x 0) as [Hx|Hx]; [|nra].
  destruct (Req_dec y 0) as [Hy|Hy]; [|nra].
  destruct (Req_dec z 0) as [Hz|Hz]; [|nra].
  exfalso. apply Hne. subst. reflexivity.
Qed.

Lemma vsub_nonzero (a b : Vec3 R) : a <> b -> vsub a b <> zero3.
Proof.
  destruct a as [x y z], b as [x' y' z']; unfold vsub, zero3; simpl.
  intros Hne E. inversion E. apply Hne. f_equal; lra.
Qed.

Lemma length_dot (v : Vec3 R) : length v = sqrt (dot v v).
Proof. reflexivity. Qed.

Lemma length_sqr (v : Vec3 R) : length v * length v = dot v v.
Proof. rewrite length_dot. apply sqrt_sqrt. apply dot_self_nonneg. Qed.

Lemma length_pos (v : Vec3 R) : 0 < dot v v -> 0 < length v.
Proof. intros Hv. rewrite length_dot. apply sqrt_lt_R0. exact Hv. Qed.

Lemma length_unit (v : Vec3 R) : dot v v = 1 -> length v = 1.
Proof. intros E. rewrite length_dot, E. apply sqrt_1. Qed.

Lemma dot_cross_l (a b : Vec3 R) : dot a (cross a b) = 0.
Proof. destruct a, b; unfold dot, cross; simpl. ring. Qed.

Lemma dot_cross_r (a b : Vec3 R) : dot b (cross a b) = 0.
Proof. destruct a, b; unfold dot, cross; simpl. ring. Qed.

Lemma dot_comm (a b : Vec3 R) : dot a b = dot b a.
Proof. destruct a, b; unfold dot; simpl. ring. Qed.

(** Lagrange's identity. *)
Lemma cross_norm (a b : Vec3 R) :
  dot (cross a b) (cross a b) = dot a a * dot b b - dot a b * dot a b.
Proof. destruct a, b; unfold dot, cross; simpl. ring. Qed.

Lemma dot_vdivs_l (v w : Vec3 R) (k : R) : dot (vdivs v k) w = dot v w / k.
Proof. destruct v, w; unfold dot, vdivs; simpl. unfold Rdiv. ring. Qed.

Lemma dot_vdivs_r (v w : Vec3 R) (k : R) : dot v (vdivs w k) = dot v w / k.
Proof. destruct v, w; unfold dot, vdivs; simpl. unfold Rdiv. ring. Qed.

Lemma cross_vdivs_l (a b : Vec3 R) (k : R) :
  cross (vdivs a k) b = vdivs (cross a b) k.
Proof. destruct a, b; unfold cross, vdivs; simpl. unfold Rdiv. f_equal; ring. Qed.

Lemma cross_vdivs_r (a b : Vec3 R) (k : R) :
  cross a (vdivs b k) = vdivs (cross a b) k.
Proof. destruct a, b; unfold cross, vdivs; simpl. unfold Rdiv. f_equal; ring. Qed.

Lemma dot_vscale_l (v w : Vec3 R) (k : R) : dot (vscale v k) w = k * dot v w.
Proof. destruct v, w; unfold dot, vscale; simpl. ring. Qed.

Lemma dot_vscale_r (v w : Vec3 R) (k : R) : dot v (vscale w k) = k * dot v w.
Proof. destruct v, w; unfold dot, vscale; simpl. ring. Qed.

Lemma normalize_vdivs (v : Vec3 R) : normalize v = vdivs v (length v).
Proof. reflexivity. Qed.

(** Eigen's [normalized] and [Vec3::normalize] agree away from zero. *)
Lemma normalized_normalize (v : Vec3 R) :
  0 < dot v v -> CameraH.normalized v = normalize v.
Proof.
  intros Hv. unfold CameraH.normalized.
  replace (fzero <? dot v v)%ar with true; [reflexivity|].
  symmetry. apply ltb_true. exact Hv.
Qed.

Lemma normalized_zero (v : Vec3 R) : dot v v = 0 -> CameraH.normalized v = v.
Proof.
  intros Hv. unfold CameraH.normalized.
  replace (fzero <? dot v v)%ar with false; [reflexivity|].
  symmetry. apply ltb_false. rewrite Hv. unfold fzero; simpl. lra.
Qed.

Lemma normalize_unit (v : Vec3 R) : 0 < dot v v -> dot (normalize v) (normalize v) = 1.
Proof.
  intros Hv. rewrite normalize_vdivs, dot_vdivs_l, dot_vdivs_r.
  pose proof (length_pos Hv) as Hl. rewrite <- (length_sqr v).
  field. lra.
Qed.

(** The cross product of a unit vector and a unit vector orthogonal to
    it is a unit vector. *)
Lemma cross_unit (a b : Vec3 R) :
  dot a a = 1 -> dot b b = 1 -> dot a b = 0 -> dot (cross a b) (cross a b) = 1.
Proof. intros Ha Hb Hab. rewrite cross_norm, Ha, Hb, Hab. ring. Qed.

(** The cross product with a normalized first factor is non-zero when
    the one with the factor itself is. *)
Lemma cross_normalize_pos (d w : Vec3 R) :
  0 < dot d d -> 0 < dot (cross d w) (cross d w) ->
  0 < dot (cross (normalize d) w) (cross (normalize d) w).
Proof.
  intros Hd Hc. rewrite normalize_vdivs, cross_vdivs_l, dot_vdivs_l, dot_vdivs_r.
  pose proof (length_pos Hd) as Hl.
  apply Rdiv_lt_0_compat; [|exact Hl]. apply Rdiv_lt_0_compat; assumption.
Qed.

Lemma length_vscale (v : Vec3 R) (k : R) :
  dot v v = 1 -> length (vscale v k) = Rabs k.
Proof.
  intros Hv. rewrite length_dot, dot_vscale_l, dot_vscale_r, Hv.
  replace (k * (k * 1)) with (Rsqr k) by (unfold Rsqr; ring).
  apply sqrt_Rsqr_abs.
Qed.

End VectorFacts.

Section CameraBasis.
Import Real RealFacts VectorFacts.
Local Open Scope R_scope.

(** Camera.h: away from the degenerate inputs [updateVectors] leaves an
    orthonormal basis. *)
Lemma updateVectors_orthonormal (c : CameraH.Camera R) :
  CameraH.lookAt c <> CameraH.position c ->
  cross (vsub (CameraH.lookAt c) (CameraH.position c)) (CameraH.up c) <> zero3 ->
  basisOrthonormal (CameraH.updateVectors c).
Proof.
  intros Hd Hc. unfold basisOrthonormal, orthonormal3, orthogonal3, CameraH.updateVectors.
  cbn [CameraH.forward CameraH.right CameraH.upVector].
  set (d := vsub (CameraH.lookAt c) (CameraH.position c)) in *.
  assert (Hdd : 0 < dot d d) by (apply dot_self_pos, vsub_nonzero; exact Hd).
  rewrite (normalized_normalize Hdd).
  set (f := normalize d).
  assert (Hff : dot f f = 1) by (apply normalize_unit; exact Hdd).
  assert (Hcc : 0 < dot (cross f (CameraH.up c)) (cross f (CameraH.up c))).
  { apply cross_normalize_pos; [exact Hdd | apply dot_self_pos; exact Hc]. }
  rewrite (normalized_normalize Hcc).
  set (r := normalize (cross f (CameraH.up c))).
  assert (Hrr : dot r r = 1) by (apply normalize_unit; exact Hcc).
  assert (Hrf : dot r f = 0).
  { unfold r. rewrite normalize_vdivs, dot_vdivs_l, dot_comm, dot_cross_l.
    unfold Rdiv. ring. }
  assert (Hxx : dot (cross r f) (cross r f) = 1) by (apply cross_unit; assumption).
  assert (Hxpos : 0 < dot (cross r f) (cross r f)) by lra.
  rewrite (normalized_normalize Hxpos).
  set (u := normalize (cross r f)).
  assert (Huu : dot u u = 1) by (apply normalize_unit; exact Hxpos).
  repeat split; try (apply length_unit; assumption).
  - rewrite dot_comm. exact Hrf.
  - unfold u. rewrite normalize_vdivs, dot_vdivs_r, dot_cross_r. unfold Rdiv. ring.
  - unfold u. rewrite normalize_vdivs, dot_vdivs_r, dot_cross_l. unfold Rdiv. ring.
Qed.

(** volume_render.cpp: away from the degenerate inputs the constructor
    leaves three mutually orthogonal vectors, of which [forward] is a
    unit vector and [right] and [up] carry the field of view. *)
Lemma Camera_new_basis (pos lookAt upVec : Vec3 R) (fov aspect : R) :
  lookAt <> pos ->
  cross (vsub lookAt pos) upVec <> zero3 ->
  let c := Camera_new pos lookAt upVec fov aspect in
  (length (forward c) = 1 /\
   length (right c) = Rabs (tanHalfFov fov * aspect) /\
   length (up c) = Rabs (tanHalfFov fov)) /\
  orthogonal3 (forward c) (right c) (up c).
Proof.
  intros Hd Hc c. unfold c, Camera_new, orthogonal3. cbn [forward right up].
  set (d := vsub lookAt pos) in *.
  assert (Hdd : 0 < dot d d) by (apply dot_self_pos, vsub_nonzero; exact Hd).
  set (f := normalize d).
  assert (Hff : dot f f = 1) by (apply normalize_unit; exact Hdd).
  assert (Hcc : 0 < dot (cross f upVec) (cross f upVec)).
  { apply cross_normalize_pos; [exact Hdd | apply dot_self_pos; exact Hc]. }
  set (r := normalize (cross f upVec)).
  assert (Hrr : dot r r = 1) by (apply normalize_unit; exact Hcc).
  assert (Hfr : dot f r = 0).
  { unfold r. rewrite normalize_vdivs, dot_vdivs_r, dot_cross_l. unfold Rdiv. ring. }
  assert (Hxx : dot (cross f r) (cross f r) = 1) by (apply cross_unit; assumption).
  assert (Hxpos : 0 < dot (cross f r) (cross f r)) by lra.
  set (u := normalize (cross f r)).
  assert (Huu : dot u u = 1) by (apply normalize_unit; exact Hxpos).
  assert (Hfu : dot f u = 0).
  { unfold u. rewrite normalize_vdivs, dot_vdivs_r, dot_cross_l. unfold Rdiv. ring. }
  assert (Hru : dot r u = 0).
  { unfold u. rewrite normalize_vdivs, dot_vdivs_r, dot_cross_r. unfold Rdiv. ring. }
  repeat split.
  - apply length_unit; exact Hff.
  - apply length_vscale; exact Hrr.
  - apply length_vscale; exact Huu.
  - rewrite dot_vscale_r, Hfr. ring.
  - rewrite dot_vscale_r, Hfu. ring.
  - rewrite dot_vscale_l, dot_vscale_r, Hru. ring.
Qed.

Lemma tanHalfFov_60 : tanHalfFov 60 = 1 / sqrt 3.
Proof.
  unfold tanHalfFov, flit; simpl.
  replace (60 * (1 / 2) * PI / 180) with (PI / 6) by field.
  apply tan_PI6.
Qed.

Lemma sqrt3_gt_1 : 1 < sqrt 3.
Proof. rewrite <- sqrt_1 at 1. apply sqrt_lt_1_alt. lra. Qed.
(** C7 (as the code has it).  In real arithmetic, when the camera does
    not look at its own position and its up vector is not parallel to
    the viewing direction: the camera of Camera.h has an orthonormal
    derived basis after construction and after [setPosition],
    [setLookAt] and [setUp]; the camera of volume_render.cpp has
    mutually orthogonal vectors, of which [forward] is a unit vector
    while [right] and [up] have the lengths |tan(fov/2) * aspect| and
    |tan(fov/2)|. *)
Theorem camera_basis :
  (forall (pos target upDir : Vec3 R) (fieldOfView ratio near far : R),
      target <> pos -> cross (vsub target pos) upDir <> zero3 ->
      basisOrthonormal (CameraH.Camera_new pos target upDir fieldOfView ratio near far)) /\
  (forall (c : CameraH.Camera R) (pos : Vec3 R),
      CameraH.lookAt c <> pos ->
      cross (vsub (CameraH.lookAt c) pos) (CameraH.up c) <> zero3 ->
      basisOrthonormal (CameraH.setPosition c pos)) /\
  (forall (c : CameraH.Camera R) (target : Vec3 R),
      target <> CameraH.position c ->
      cross (vsub target (CameraH.position c)) (CameraH.up c) <> zero3 ->
      basisOrthonormal (CameraH.setLookAt c target)) /\
  (forall (c : CameraH.Camera R) (upDir : Vec3 R),
      CameraH.lookAt c <> CameraH.position c ->
      cross (vsub (CameraH.lookAt c) (CameraH.position c)) upDir <> zero3 ->
      basisOrthonormal (CameraH.setUp c upDir)) /\
  (forall (pos lookAt upVec : Vec3 R) (fov aspect : R),
      lookAt <> pos -> cross (vsub lookAt pos) upVec <> zero3 ->
      let c := Camera_new pos lookAt upVec fov aspect in
      (length (forward c) = 1 /\
       length (right c) = Rabs (tanHalfFov fov * aspect) /\
       length (up c) = Rabs (tanHalfFov fov)) /\
      orthogonal3 (forward c) (right c) (up c)).
Proof.
  split; [|split; [|split; [|split]]].
  - intros pos target upDir fieldOfView ratio near far Hd Hc.
    unfold CameraH.Camera_new. apply updateVectors_orthonormal; assumption.
  - intros c pos Hd Hc. unfold CameraH.setPosition.
    apply updateVectors_orthonormal; assumption.
  - intros c target Hd Hc. unfold CameraH.setLookAt.
    apply updateVectors_orthonormal; assumption.
  - intros c upDir Hd Hc. unfold CameraH.setUp.
    apply updateVectors_orthonormal; assumption.
  - apply Camera_new_basis.
Qed.

Lemma default_view_nondegenerate :
  mkVec3 0 0 (-1) <> mkVec3 0 0 0 /\
  cross (vsub (mkVec3 0 0 (-1)) (mkVec3 0 0 0)) (mkVec3 0 1 0) <> zero3.
Proof.
  split; intros E; inversion E; lra.
Qed.

Lemma main_view_nondegenerate :
  mkVec3 0 0 0 <> mkVec3 5 3 5 /\
  cross (vsub (mkVec3 0 0 0) (mkVec3 5 3 5)) (mkVec3 0 1 0) <> zero3.
Proof.
  split; intros E; inversion E; lra.
Qed.

(** The theorem at the default camera of Camera.h. *)
Lemma camera_basis_witness :
  (mkVec3 0 0 (-1) <> mkVec3 0 0 0 /\
   cross (vsub (mkVec3 0 0 (-1)) (mkVec3 0 0 0)) (mkVec3 0 1 0) <> zero3) /\
  basisOrthonormal Scene.defaultCamera.
Proof.
  split; [exact default_view_nondegenerate|].
  exact (proj1 camera_basis _ _ _ 60 (16 / 9) (1 / 10) 1000
           (proj1 default_view_nondegenerate) (proj2 default_view_nondegenerate)).
Defined.

(** C7, the counterexample.  The [up] vector of the camera [main] builds
    has length tan(30 degrees) = 1/sqrt 3, not 1; and the camera of
    Camera.h moved onto the point it looks at has the zero vector as
    [forward]. *)
Lemma camera_basis_not_unit :
  (length (up Scene.mainCamera) = 1 / sqrt 3 /\ length (up Scene.mainCamera) <> 1) /\
  (CameraH.forward (CameraH.setPosition Scene.defaultCamera (mkVec3 0 0 (-1)))
   = mkVec3 (0 - 0) (0 - 0) (-1 - -1) /\
   length (CameraH.forward (CameraH.setPosition Scene.defaultCamera (mkVec3 0 0 (-1))))
   = 0).
Proof.
  assert (Hup : length (up Scene.mainCamera) = 1 / sqrt 3).
  { destruct (Camera_new_basis 60 (800 / 600)
                (proj1 main_view_nondegenerate) (proj2 main_view_nondegenerate))
      as [(_ & _ & Hu) _].
    transitivity (Rabs (tanHalfFov 60)); [exact Hu|]. rewrite tanHalfFov_60.
    apply Rabs_right. pose proof sqrt3_gt_1.
    apply Rle_ge. apply Rlt_le. apply Rdiv_lt_0_compat; lra. }
  split.
  - split; [exact Hup|]. rewrite Hup. pose proof sqrt3_gt_1 as H3.
    intros E. apply (Rmult_eq_compat_r (sqrt 3)) in E.
    unfold Rdiv in E. rewrite Rmult_assoc, Rinv_l in E; lra.
  - assert (E : CameraH.forward
                  (CameraH.setPosition Scene.defaultCamera (mkVec3 0 0 (-1)))
                = mkVec3 (0 - 0) (0 - 0) (-1 - -1)).
    { unfold CameraH.setPosition, CameraH.updateVectors.
      cbn [CameraH.forward CameraH.lookAt CameraH.position Scene.defaultCamera
           CameraH.Camera_new].
      apply normalized_zero. unfold dot, vsub; simpl. ring. }
    split; [exact E|]. rewrite E. rewrite length_dot.
    replace (dot (mkVec3 (0 - 0) (0 - 0) (-1 - -1)) (mkVec3 (0 - 0) (0 - 0) (-1 - -1)))
      with 0 by (unfold dot; simpl; ring).
    apply sqrt_0.
Qed.
End CameraBasis.

(** ** The pixel loop *)

Section PixelLoop.

Lemma length_range (n : Z) : List.length (range n) = Z.to_nat n.
Proof. unfold range. rewrite length_map, length_seq. reflexivity. Qed.

Lemma nth_range (n : Z) (i : nat) (d : Z) :
  (i < Z.to_nat n)%nat -> nth i (range n) d = Z.of_nat i.
Proof.
  intros Hi. unfold range.
  rewrite (nth_indep _ d (Z.of_nat 0)) by (rewrite length_map, length_seq; exact Hi).
  rewrite map_nth, seq_nth by exact Hi. reflexivity.
Qed.

(** Rows of equal length laid end to end: entry [j] of row [i] is at
    index [i * w + j]. *)
Lemma nth_flat_map_rows {A B : Type} (f : A -> list B) (w : nat) (l : list A)
  (a : A) (d : B) :
  (forall x, List.length (f x) = w) ->
  forall i j, (i < List.length l)%nat -> (j < w)%nat ->
  nth (i * w + j) (flat_map f l) d = nth j (f (nth i l a)) d.
Proof.
  intros Hw. induction l as [|x rest IH]; intros i j Hi Hj; simpl in Hi; [lia|].
  simpl. destruct i as [|i].
  - simpl. rewrite app_nth1 by (rewrite Hw; exact Hj). reflexivity.
  - rewrite app_nth2 by (rewrite Hw; simpl; lia).
    rewrite Hw. replace (S i * w + j - w)%nat with (i * w + j)%nat by (simpl; lia).
    apply IH; lia.
Qed.

(** The buffer index [y * width + x] holds the pixel (x, y): the buffer
    is row-major, row 0 first. *)
Lemma pixelCoords_row_major (width height x y : Z) :
  (0 <= x < width)%Z -> (0 <= y < height)%Z ->
  nth (Z.to_nat (y * width + x)) (pixelCoords width height) (0, 0)%Z = (x, y).
Proof.
  intros Hx Hy. unfold pixelCoords.
  replace (Z.to_nat (y * width + x)) with (Z.to_nat y * Z.to_nat width + Z.to_nat x)%nat
    by nia.
  rewrite (nth_flat_map_rows (fun y0 => map (fun x0 => (x0, y0)) (range width))
             (w := Z.to_nat width) (range height) 0%Z).
  - rewrite (nth_range height 0%Z) by lia.
    rewrite (nth_indep _ (0, 0)%Z ((fun x0 => (x0, Z.of_nat (Z.to_nat y))) 0%Z))
      by (rewrite length_map, length_range; lia).
    rewrite (map_nth (fun x0 : Z => (x0, Z.of_nat (Z.to_nat y))) (range width) 0%Z).
    rewrite (nth_range width 0%Z) by lia.
    f_equal; lia.
  - intros y0. rewrite length_map. apply length_range.
  - rewrite length_range. lia.
  - lia.
Qed.

Lemma mapM_nth {A B : Type} (f : A -> option B) (l : list A) (bs : list B)
  (a : A) (b : B) (i : nat) :
  mapM f l = Some bs -> (i < List.length l)%nat ->
  f (nth i l a) = Some (nth i bs b).
Proof.
  revert bs i. induction l as [|x rest IH]; intros bs i Hm Hi; simpl in Hi; [lia|].
  simpl in Hm. destruct (f x) as [y|] eqn:Hy; [|discriminate].
  destruct (mapM f rest) as [ys|] eqn:Hys; [|discriminate].
  inversion Hm; subst. destruct i as [|i]; simpl; [exact Hy|].
  apply IH; [reflexivity | lia].
Qed.

Lemma length_pixelCoords (width height : Z) :
  List.length (pixelCoords width height) = (Z.to_nat height * Z.to_nat width)%nat.
Proof.
  unfold pixelCoords. rewrite <- (length_range height).
  induction (range height) as [|y rest IH]; simpl; [reflexivity|].
  rewrite length_app, length_map, length_range, IH. reflexivity.
Qed.

(** The colour stored at index [y * width + x] is the one traced for
    pixel (x, y), in any arithmetic. *)
Lemma renderImage_row_major {F : Type} `{Arith F} `{Libm F}
  (fuel : nat) (camera : Camera F) (renderer : VolumeRenderer F)
  (width height x y : Z) (pixels : list (Vec3 F)) (d : Vec3 F) :
  renderImage fuel camera renderer width height = Some pixels ->
  (0 <= x < width)%Z -> (0 <= y < height)%Z ->
  renderPixel fuel camera renderer width height (x, y)
  = Some (nth (Z.to_nat (y * width + x)) pixels d).
Proof.
  intros Hr Hx Hy. unfold renderImage in Hr.
  rewrite <- (pixelCoords_row_major Hx Hy).
  apply (mapM_nth _ _ _ _ Hr).
  rewrite length_pixelCoords. nia.
Qed.
End PixelLoop.

(** ** Buffers filled by stores *)

Section BufferFacts.

Lemma length_update {A : Type} (v : A) (l : list A) (n : nat) :
  List.length (update n v l) = List.length l.
Proof.
  revert n. induction l as [|a l IH]; intros [|n]; simpl; try reflexivity.
  rewrite IH. reflexivity.
Qed.

Lemma update_middle {A : Type} (v a : A) (done rest : list A) :
  update (List.length done) v (done ++ a :: rest) = done ++ v :: rest.
Proof. induction done as [|d done IH]; simpl; [reflexivity | rewrite IH; reflexivity]. Qed.

Lemma store_middle {A : Type} (v a : A) (done rest : list A) :
  store (Z.of_nat (List.length done)) v (done ++ a :: rest) = Some (done ++ v :: rest).
Proof.
  unfold store. rewrite length_app. cbn [List.length].
  replace ((0 <=? Z.of_nat (List.length done))%Z &&
           (Z.of_nat (List.length done)
            <? Z.of_nat (List.length done + S (List.length rest)))%Z) with true.
  - rewrite Nat2Z.id, update_middle. reflexivity.
  - symmetry. apply andb_true_iff. split; [apply Z.leb_le | apply Z.ltb_lt]; lia.
Qed.

(** A loop that stores at the indices that follow one another fills the
    buffer with the values in the order of the loop. *)
Lemma storeLoop_fill {A : Type} (f : Z * Z -> option A) (w : Z) (coords : list (Z * Z)) :
  forall done rest : list A,
  (forall i x y, nth_error coords i = Some (x, y) ->
                 (y * w + x)%Z = Z.of_nat (List.length done + i)) ->
  List.length rest = List.length coords ->
  storeLoop f w coords (done ++ rest) =
  match mapM f coords with
  | Some vs => Some (done ++ vs)
  | None => None
  end.
Proof.
  induction coords as [|[x y] cs IH]; intros done rest Hidx Hlen.
  - destruct rest; [|discriminate]. reflexivity.
  - destruct rest as [|r0 rest']; [discriminate|].
    cbn [storeLoop mapM]. destruct (f (x, y)) as [v|]; [|reflexivity].
    rewrite (Hidx 0%nat x y eq_refl), Nat.add_0_r, store_middle.
    replace (done ++ v :: rest') with ((done ++ [v]) ++ rest')
      by (rewrite <- app_assoc; reflexivity).
    rewrite IH.
    + destruct (mapM f cs) as [vs|]; [|reflexivity].
      rewrite <- app_assoc. reflexivity.
    + intros i x' y' Hn. rewrite (Hidx (S i) x' y' Hn), length_app. cbn [List.length]. lia.
    + simpl in Hlen. lia.
Qed.

(** The index [y * width + x] of the pixel coordinates counts them in
    the order of the two loops. *)
Lemma pixelCoords_index (w h : Z) (i : nat) (x y : Z) :
  nth_error (pixelCoords w h) i = Some (x, y) ->
  (y * w + x)%Z = Z.of_nat i /\ (0 <= x < w)%Z /\ (0 <= y < h)%Z.
Proof.
  intros Hn.
  assert (Hi : (i < List.length (pixelCoords w h))%nat)
    by (apply nth_error_Some; rewrite Hn; discriminate).
  rewrite length_pixelCoords in Hi.
  assert (Hw : (0 < w)%Z) by nia.
  assert (Hx : (0 <= Z.of_nat i mod w < w)%Z) by (apply Z.mod_pos_bound; exact Hw).
  assert (Hy : (0 <= Z.of_nat i / w < h)%Z).
  { split; [apply Z.div_pos; lia|]. apply Z.div_lt_upper_bound; nia. }
  pose proof (Z.div_mod (Z.of_nat i) w ltac:(lia)) as Hdm.
  pose proof (pixelCoords_row_major Hx Hy) as Hrm.
  replace (Z.of_nat i / w * w + Z.of_nat i mod w)%Z with (Z.of_nat i) in Hrm by lia.
  rewrite Nat2Z.id in Hrm.
  rewrite (nth_error_nth _ _ (0, 0)%Z Hn) in Hrm. inversion Hrm; subst.
  split; [lia|]. split; assumption.
Qed.

(** So the two loops fill a buffer of width * height entries with the
    values of the pixels in row-major order. *)
Lemma storeLoop_pixelCoords {A : Type} (f : Z * Z -> option A) (w h : Z) (d : A) :
  (0 <= w)%Z -> (0 <= h)%Z ->
  storeLoop f w (pixelCoords w h) (repeat d (Z.to_nat (w * h))) =
  mapM f (pixelCoords w h).
Proof.
  intros Hw Hh.
  change (repeat d (Z.to_nat (w * h))) with ([] ++ repeat d (Z.to_nat (w * h))).
  rewrite (@storeLoop_fill A f w (pixelCoords w h) [] (repeat d (Z.to_nat (w * h)))).
  - destruct (mapM f (pixelCoords w h)); reflexivity.
  - intros i x y Hn. destruct (pixelCoords_index _ _ _ Hn) as [E _]. exact E.
  - rewrite repeat_length, length_pixelCoords. nia.
Qed.

Lemma int32_some (z : Z) : (- 2 ^ 31 <= z < 2 ^ 31)%Z -> int32 z = Some z.
Proof.
  intros Hz. unfold int32.
  replace ((- 2 ^ 31 <=? z)%Z && (z <? 2 ^ 31)%Z) with true; [reflexivity|].
  symmetry. apply andb_true_iff. split; [apply Z.leb_le | apply Z.ltb_lt]; lia.
Qed.

(** The pixel loop of [main] on its buffer gives the colours of the
    pixels in row-major order, for an image whose number of pixels is a
    value of [int]. *)
Lemma renderStores_renderImage {F : Type} `{Arith F} `{Libm F}
  (fuel : nat) (camera : Camera F) (renderer : VolumeRenderer F) (width height : Z) :
  (0 <= width)%Z -> (0 <= height)%Z -> (width * height < 2 ^ 31)%Z ->
  renderStores fuel camera renderer width height =
  renderImage fuel camera renderer width height.
Proof.
  intros Hw Hh Hn. unfold renderStores, renderImage.
  rewrite int32_some by nia.
  replace (width * height <? 0)%Z with false by (symmetry; apply Z.ltb_ge; nia).
  apply storeLoop_pixelCoords; assumption.
Qed.
End BufferFacts.


(** ** The PPM writers *)

Module PPMFacts.
Import Real RealFacts.
Local Open Scope R_scope.

Lemma fmin_Rmin (a b : R) : fmin a b = Rmin a b.
Proof.
  unfold fmin, Rmin; simpl. unfold ltb.
  destruct (Rlt_dec b a), (Rle_dec a b); try reflexivity; lra.
Qed.

Lemma Int_part_range (x : R) (lo hi : Z) :
  IZR lo <= x <= IZR hi -> (lo <= Int_part x <= hi)%Z.
Proof.
  intros [Hlo Hhi]. destruct (base_Int_part x) as [H1 H2]. split.
  - assert (H : (lo - 1 < Int_part x)%Z) by (apply lt_IZR; rewrite minus_IZR; lra). lia.
  - apply le_IZR. lra.
Qed.

Lemma Int_part_IZR (z : Z) : Int_part (IZR z) = z.
Proof. symmetry. apply Int_part_spec. lra. Qed.

Lemma clampedByte_range (c : R) : 0 <= c -> (0 <= clampedByte c <= 255)%Z.
Proof.
  intros Hc. unfold clampedByte. apply Int_part_range. split.
  - apply Rmin_glb; lra.
  - apply Rmin_r.
Qed.

Lemma clampedByte_saturates (c : R) : 1 <= c -> clampedByte c = 255%Z.
Proof.
  intros Hc. unfold clampedByte. rewrite Rmin_right by lra. apply Int_part_IZR.
Qed.

(** A channel that is not negative has a defined byte. *)
Lemma channelByte_nonneg (c : R) : 0 <= c -> channelByte c = Some (clampedByte c).
Proof.
  intros Hc. unfold channelByte, to_uchar; simpl. rewrite fmin_Rmin.
  unfold trunc. fold (clampedByte c).
  pose proof (clampedByte_range Hc) as [H0 H255].
  assert (Hm : 0 <= Rmin (c * 255) 255) by (apply Rmin_glb; lra).
  destruct (Rle_dec 0 (Rmin (c * 255) 255)) as [_|Hn]; [|contradiction].
  fold (clampedByte c).
  replace ((0 <=? clampedByte c)%Z && (clampedByte c <=? 255)%Z) with true; [reflexivity|].
  symmetry. apply andb_true_iff. split; [apply Z.leb_le | apply Z.leb_le]; assumption.
Qed.

Lemma bodyBytes_nonneg (pixels : list (Vec3 R)) :
  Forall nonneg pixels -> bodyBytes pixels = Some (flat_map triple pixels).
Proof.
  induction 1 as [|p rest (Hx & Hy & Hz) _ IH]; simpl; [reflexivity|].
  unfold pixelBytes.
  rewrite (channelByte_nonneg Hx), (channelByte_nonneg Hy), (channelByte_nonneg Hz), IH.
  reflexivity.
Qed.

Lemma length_triples (pixels : list (Vec3 R)) :
  List.length (flat_map triple pixels) = (3 * List.length pixels)%nat.
Proof. induction pixels as [|p rest IH]; simpl; [reflexivity | rewrite IH; lia]. Qed.

Lemma nth_triples (pixels : list (Vec3 R)) (i : nat) :
  (i < List.length pixels)%nat ->
  nth (3 * i) (flat_map triple pixels) 0%Z = clampedByte (vx (nth i pixels zero3)) /\
  nth (3 * i + 1) (flat_map triple pixels) 0%Z = clampedByte (vy (nth i pixels zero3)) /\
  nth (3 * i + 2) (flat_map triple pixels) 0%Z = clampedByte (vz (nth i pixels zero3)).
Proof.
  revert i. induction pixels as [|p rest IH]; intros i Hi; simpl in Hi; [lia|].
  destruct i as [|i].
  - simpl. repeat split; reflexivity.
  - replace (3 * S i)%nat with (S (S (S (3 * i)))) by lia.
    cbn [flat_map triple app nth Nat.add].
    apply IH. lia.
Qed.
End PPMFacts.

(** The bytes of what is written. *)
Module ByteFacts.

Lemma codes_app (s1 s2 : string) : codes (s1 ++ s2) = codes s1 ++ codes s2.
Proof.
  unfold codes. induction s1 as [|c s1 IH]; simpl; [reflexivity|].
  f_equal. exact IH.
Qed.

Lemma code_byte (b : Z) :
  (0 <= b <= 255)%Z -> Z.of_N (N_of_ascii (byte_of_Z b)) = b.
Proof.
  intros Hb. unfold byte_of_Z. rewrite N_ascii_embedding by lia. lia.
Qed.

Lemma codes_bytes (bs : list Z) :
  Forall (fun b => 0 <= b <= 255)%Z bs ->
  codes (string_of_list_ascii (map byte_of_Z bs)) = bs.
Proof.
  intros Hbs. unfold codes. rewrite list_ascii_of_string_of_list_ascii, map_map.
  induction Hbs as [|b rest Hb _ IH]; simpl; [reflexivity|].
  rewrite (code_byte Hb), IH. reflexivity.
Qed.

(** The decimal digits [operator<<] writes for an [int] read back as
    that number. *)
Lemma readNumber_dec (n : Z) : readNumber (dec n) = Some n.
Proof.
  unfold readNumber, dec. rewrite NilZero.isi.
  - simpl. rewrite DecimalZ.of_to. reflexivity.
  - destruct n as [|p|p]; simpl; try discriminate.
    intros E. inversion E as [E']. exact (DecimalPos.Unsigned.to_uint_nonnil p E').
  - destruct n as [|p|p]; simpl; try discriminate.
    intros E. inversion E as [E']. exact (DecimalPos.Unsigned.to_uint_nonnil p E').
Qed.

Lemma codes_header (width height : Z) :
  codes (ppmHeader width height) =
  ([80; 54; 10] ++ codes (dec width) ++ [32] ++ codes (dec height)
   ++ [10; 50; 53; 53; 10])%Z.
Proof. unfold ppmHeader. rewrite !codes_app. reflexivity. Qed.

Lemma triples_bytes (pixels : list (Vec3 R)) :
  Forall nonneg pixels -> Forall (fun b => 0 <= b <= 255)%Z (flat_map triple pixels).
Proof.
  induction 1 as [|p rest (Hx & Hy & Hz) _ IH]; simpl; [constructor|].
  repeat (constructor; [apply PPMFacts.clampedByte_range; assumption|]).
  exact IH.
Qed.

Lemma sliceBytes_bytes (pixels : list Color) :
  Forall byteColor pixels -> Forall (fun b => 0 <= b <= 255)%Z (sliceBytes pixels).
Proof.
  induction 1 as [|c rest (Hr & Hg & Hb) _ IH]; simpl; [constructor|].
  repeat (constructor; [assumption|]). exact IH.
Qed.
End ByteFacts.

(** C8.  [saveToPPM] writes the bytes of "P6", a newline (10), the
    decimal digits of the width, a space (32), those of the height, a
    newline, "255" and a newline (the digits read back as the two
    numbers), and then three bytes for each pixel, in the order of the
    buffer, so that pixel (x, y) of a row-major buffer is at the bytes
    3 (y width + x) .. 3 (y width + x) + 2; each byte is the channel
    times 255, clamped at 255 and truncated (in real arithmetic, for
    channels that are not negative).  [saveSliceToPPM] writes the same
    header and the bytes of its pixels.  The 2 x 2 buffer of pure red is
    written as the bytes of "P6\n2 2\n255\n" followed by 255 0 0 four
    times, in binary32 as in real arithmetic. *)
Theorem saveToPPM_layout :
  (forall width height : Z,
      codes (ppmHeader width height) =
      ([80; 54; 10] ++ codes (dec width) ++ [32] ++ codes (dec height)
       ++ [10; 50; 53; 53; 10])%Z /\
      readNumber (dec width) = Some width /\
      readNumber (dec height) = Some height) /\
  codes (ppmHeader 800 600) =
  [80; 54; 10; 56; 48; 48; 32; 54; 48; 48; 10; 50; 53; 53; 10]%Z /\
  (forall (pixels : list (Vec3 R)) (width height : Z),
      Forall nonneg pixels ->
      List.length pixels = Z.to_nat (width * height) ->
      exists (file : string) (bs : list Z),
        saveToPPM pixels width height = Some file /\
        codes file = codes (ppmHeader width height) ++ bs /\
        List.length bs = (3 * Z.to_nat (width * height))%nat /\
        Forall (fun b => 0 <= b <= 255)%Z bs /\
        forall x y : Z,
          (0 <= x < width)%Z -> (0 <= y < height)%Z ->
          let i := Z.to_nat (y * width + x) in
          let color := nth i pixels zero3 in
          nth (3 * i) bs 0%Z = clampedByte (vx color) /\
          nth (3 * i + 1) bs 0%Z = clampedByte (vy color) /\
          nth (3 * i + 2) bs 0%Z = clampedByte (vz color)) /\
  (forall c : R, (1 <= c)%R -> clampedByte c = 255%Z) /\
  (forall (pixels : list Color) (width height : Z),
      Forall byteColor pixels ->
      codes (saveSliceToPPM pixels width height) =
      codes (ppmHeader width height)
      ++ flat_map (fun color => [c_r color; c_g color; c_b color]) pixels) /\
  (exists file : string,
      saveToPPM Scene.redBuffer32 2 2 = Some file /\
      codes file =
      [80; 54; 10; 50; 32; 50; 10; 50; 53; 53; 10;
       255; 0; 0; 255; 0; 0; 255; 0; 0; 255; 0; 0]%Z) /\
  (exists file : string,
      saveToPPM Scene.redBufferR 2 2 = Some file /\
      codes file =
      [80; 54; 10; 50; 32; 50; 10; 50; 53; 53; 10;
       255; 0; 0; 255; 0; 0; 255; 0; 0; 255; 0; 0]%Z).
Proof.
  split.
  { intros width height. split; [apply ByteFacts.codes_header|].
    split; apply ByteFacts.readNumber_dec. }
  split; [vm_compute; reflexivity|].
  split; [|split; [|split; [|split]]].
  - intros pixels width height Hnn Hlen.
    eexists. exists (flat_map triple pixels). unfold saveToPPM.
    rewrite (PPMFacts.bodyBytes_nonneg Hnn). split; [reflexivity|].
    split.
    { rewrite ByteFacts.codes_app, ByteFacts.codes_bytes
        by (apply ByteFacts.triples_bytes; exact Hnn).
      reflexivity. }
    split; [rewrite PPMFacts.length_triples, Hlen; reflexivity|].
    split; [apply ByteFacts.triples_bytes; exact Hnn|].
    intros x y Hx Hy. apply PPMFacts.nth_triples.
    rewrite Hlen. apply Z2Nat.inj_lt; nia.
  - exact PPMFacts.clampedByte_saturates.
  - intros pixels width height Hb. unfold saveSliceToPPM.
    rewrite ByteFacts.codes_app, ByteFacts.codes_bytes
      by (apply ByteFacts.sliceBytes_bytes; exact Hb).
    reflexivity.
  - eexists. split; [vm_compute; reflexivity|]. vm_compute. reflexivity.
  - assert (Hnn : Forall nonneg Scene.redBufferR) by (repeat constructor; simpl; lra).
    eexists. unfold saveToPPM. rewrite (PPMFacts.bodyBytes_nonneg Hnn).
    split; [reflexivity|].
    rewrite ByteFacts.codes_app, ByteFacts.codes_bytes
      by (apply ByteFacts.triples_bytes; exact Hnn).
    unfold Scene.redBufferR; simpl. unfold triple; simpl.
    rewrite (PPMFacts.clampedByte_saturates (c := 1)) by lra.
    assert (E0 : clampedByte 0 = 0%Z).
    { unfold clampedByte. rewrite Rmin_left by lra.
      replace (0 * 255)%R with (IZR 0) by (simpl; ring). apply PPMFacts.Int_part_IZR. }
    rewrite E0. reflexivity.
Qed.

(** The theorem at the 2 x 2 buffer of pure red: the bytes after the
    header start with 255, 0, 0. *)
Lemma saveToPPM_layout_witness :
  Forall nonneg Scene.redBufferR /\
  List.length Scene.redBufferR = Z.to_nat (2 * 2) /\
  exists (file : string) (bs : list Z),
    saveToPPM Scene.redBufferR 2 2 = Some file /\
    codes file = codes (ppmHeader 2 2) ++ bs /\
    nth 0 bs 0%Z = clampedByte 1 /\ nth 1 bs 0%Z = clampedByte 0 /\
    nth 2 bs 0%Z = clampedByte 0.
Proof.
  assert (Hnn : Forall nonneg Scene.redBufferR)
    by (repeat constructor; simpl; lra).
  assert (Hlen : List.length Scene.redBufferR = Z.to_nat (2 * 2)) by reflexivity.
  split; [exact Hnn|]. split; [exact Hlen|].
  destruct (proj1 (proj2 (proj2 saveToPPM_layout)) Scene.redBufferR 2%Z 2%Z Hnn Hlen)
    as (file & bs & Hfile & Hcodes & _ & _ & Hpix).
  exists file, bs. split; [exact Hfile|]. split; [exact Hcodes|].
  apply (Hpix 0%Z 0%Z); lia.
Defined.

(** ** main *)

Section MainFacts.
Import Real RealFacts.
Local Open Scope R_scope.

(** Along the primary march the colour has no negative channel and the
    transmittance is positive. *)
Lemma traceBody_nonneg (vr : VolumeRenderer R) (fuel : nat) (ray : Ray R)
  (s s' : MarchState R) :
  0 < stepSize vr ->
  nonneg (m_color s) /\ 0 < m_transmittance s ->
  traceBody vr fuel ray s = Some s' ->
  nonneg (m_color s') /\ 0 < m_transmittance s'.
Proof.
  intros Hstep [(Hx & Hy & Hz) HT]. unfold traceBody.
  destruct (fzero <? sampleDensity vr (samplePoint ray s))%ar eqn:Hd.
  - destruct (traceShadowRay vr fuel (samplePoint ray s)) as [L|] eqn:HL; [|discriminate].
    intros E; inversion E; subst; clear E. unfold nonneg; simpl.
    apply ltb_true in Hd. unfold fzero in Hd; simpl in Hd.
    assert (HLpos : 0 < L).
    { unfold traceShadowRay in HL.
      destruct (shadowLoop vr fuel (samplePoint ray s)) as [[sh n]|] eqn:Hw; [|discriminate].
      inversion HL; subst. unfold shadowLoop in Hw.
      apply (shadow_positive (vr := vr) (pos := samplePoint ray s)).
      apply (while_reaches _ _ _ _ Hw). }
    set (d := sampleDensity vr (samplePoint ray s)) in *.
    pose proof (exp_pos (- (d * stepSize vr))) as He.
    assert (HT' : 0 < m_transmittance s * exp (- (d * stepSize vr)))
      by (apply Rmult_lt_0_compat; assumption).
    assert (Hext : 0 < d * stepSize vr) by (apply Rmult_lt_0_compat; assumption).
    assert (Hph : 0 < 1 / (4 * PI)).
    { apply Rdiv_lt_0_compat; [lra|]. pose proof PI_RGT_0. lra. }
    unfold phase, fone, fzero; simpl.
    assert (Hk : 0 < 1 * (1 / (4 * PI)) * L).
    { apply Rmult_lt_0_compat; [|exact HLpos]. lra. }
    assert (0 < 1 * (1 / (4 * PI)) * L
                * (m_transmittance s * exp (- (d * stepSize vr)))
                * (d * stepSize vr)).
    { apply Rmult_lt_0_compat; [|exact Hext].
      apply Rmult_lt_0_compat; [exact Hk | exact HT']. }
    repeat split; try lra.
  - intros E; inversion E; subst; simpl. repeat split; assumption.
Qed.

(** With a positive step, every ray is traced to a colour without a
    negative channel once the fuel is large enough. *)
Lemma trace_total (vr : VolumeRenderer R) (ray : Ray R) :
  0 < stepSize vr ->
  exists N : nat, forall fuel, (N <= fuel)%nat ->
    exists c, trace vr fuel ray = Some c /\ nonneg c.
Proof.
  intros Hstep. unfold trace.
  destruct (intersectBox vr ray) as [[hit tMin] tMax].
  exists (Nat.max (stepsTo 20 (stepSize vr)) (stepsTo (tMax - tMin) (stepSize vr))).
  intros fuel Hfuel. destruct hit; simpl.
  - destruct (@traceLoop_total vr ray
                (fun s => nonneg (m_color s) /\ 0 < m_transmittance s)
                fuel tMin tMax Hstep) as (s & n & Hw & _ & [Hc _] & _).
    + lia.
    + unfold traceInit, nonneg, fzero, fone; simpl. repeat split; lra.
    + intros s _ HP _.
      destruct (traceBody_total vr ray s Hstep (fuel := fuel)) as [s' Hs']; [lia|].
      exists s'. split; [exact Hs'|]. eapply traceBody_nonneg; eauto.
    + rewrite Hw. exists (m_color s). split; [reflexivity | exact Hc].
  - eexists; split; [reflexivity|]. unfold nonneg, fzero; simpl. repeat split; lra.
Qed.

Lemma renderImage_total (camera : Camera R) (renderer : VolumeRenderer R)
  (width height : Z) :
  0 < stepSize renderer ->
  exists N : nat, forall fuel, (N <= fuel)%nat ->
    exists pixels, renderImage fuel camera renderer width height = Some pixels /\
                   Forall nonneg pixels.
Proof.
  intros Hstep. unfold renderImage.
  induction (pixelCoords width height) as [|[x y] rest IH].
  - exists O. intros fuel _. exists []. split; [reflexivity | constructor].
  - destruct IH as [N1 IH].
    destruct (@trace_total renderer
                (getRay camera ((fofZ x + flit 1 2) / fofZ width)%ar
                               ((fofZ y + flit 1 2) / fofZ height)%ar) Hstep)
      as [N2 Ht].
    exists (Nat.max N1 N2). intros fuel Hfuel.
    destruct (IH fuel) as (pixels & Hr & Hnn); [lia|].
    destruct (Ht fuel) as (c & Hc & Hcn); [lia|].
    exists (c :: pixels). split; [|constructor; assumption].
    cbn [mapM]. unfold renderPixel at 1. rewrite Hc, Hr. reflexivity.
Qed.
(** C9.  [main] with an argument count other than 2 prints the usage
    message on the output stream, writes no file and exits with status
    1 (so does the [main] of analyze_vdb.cpp); when reading the grid
    throws, it prints "Error: " and the message on the error stream,
    writes no file and exits with status 1; when the grid is read, in
    real arithmetic, it returns: it prints "Rendered image saved to
    volume_render.ppm" and exits with status 0, and the image is written
    to volume_render.ppm when that file can be opened (when it cannot,
    nothing is written and neither the message nor the status
    changes). *)
Theorem main_exit_status :
  (forall (F : Type) (A : Arith F) (L : Libm F) (fuel : nat) (opened : bool)
          (readDensity : string -> Exc (Grid F)) (argv : list string),
      List.length argv <> 2%nat ->
      main fuel opened readDensity argv =
      Some (mkOutcome 1 ("Usage: " ++ nth 0 argv "" ++ " <vdb_file>" ++ nl)%string
                      "" [])) /\
  (forall (analyze : string -> Outcome) (argv : list string),
      List.length argv <> 2%nat ->
      analyze_main analyze argv =
      mkOutcome 1 ("Usage: " ++ nth 0 argv "" ++ " <vdb_file>" ++ nl)%string "" []) /\
  (forall (F : Type) (A : Arith F) (L : Libm F) (fuel : nat) (opened : bool)
          (readDensity : string -> Exc (Grid F)) (prog path what : string),
      readDensity path = Throw what ->
      main fuel opened readDensity [prog; path] =
      Some (mkOutcome 1 "" ("Error: " ++ what ++ nl)%string [])) /\
  (forall (readDensity : string -> Exc (Grid R)) (prog path : string) (grid : Grid R),
      readDensity path = Ok grid ->
      exists N : nat, forall fuel, (N <= fuel)%nat ->
        exists bs : list Z,
          main fuel true readDensity [prog; path] =
          Some (mkOutcome 0 ("Rendered image saved to volume_render.ppm" ++ nl)%string ""
                  [("volume_render.ppm"%string,
                    (ppmHeader 800 600 ++ string_of_list_ascii (map byte_of_Z bs))%string)]) /\
          main fuel false readDensity [prog; path] =
          Some (mkOutcome 0 ("Rendered image saved to volume_render.ppm" ++ nl)%string ""
                  [])).
Proof.
  split; [|split; [|split]].
  - intros F A L fuel opened readDensity argv Hlen. unfold main.
    replace (Z.of_nat (List.length argv) =? 2)%Z with false; [reflexivity|].
    symmetry. apply Z.eqb_neq. lia.
  - intros analyze argv Hlen. unfold analyze_main.
    replace (Z.of_nat (List.length argv) =? 2)%Z with false; [reflexivity|].
    symmetry. apply Z.eqb_neq. lia.
  - intros F A L fuel opened readDensity prog path what Hread. unfold main.
    cbn [List.length Z.of_nat Pos.of_succ_nat Pos.succ Z.eqb Pos.eqb negb nth].
    rewrite Hread. reflexivity.
  - intros readDensity prog path grid Hread.
    destruct (@renderImage_total
                (Camera_new (mkVec3 (fofZ 5) (fofZ 3) (fofZ 5))
                            (mkVec3 (fofZ 0) (fofZ 0) (fofZ 0))
                            (mkVec3 (fofZ 0) (fofZ 1) (fofZ 0))
                            (fofZ 60) (fofZ 800 / fofZ 600)%ar)
                (VolumeRenderer_new grid
                   (mkVec3 (fofZ (-1)) (fofZ 1) (fofZ (-1))) (flit 1 10))
                800 600) as [N HN].
    { unfold VolumeRenderer_new, flit. cbn [stepSize]. simpl. lra. }
    exists N. intros fuel Hfuel.
    destruct (HN fuel Hfuel) as (pixels & Hr & Hnn).
    exists (flat_map triple pixels). unfold main.
    cbn [List.length Z.of_nat Pos.of_succ_nat Pos.succ Z.eqb Pos.eqb negb nth].
    rewrite Hread. cbv zeta. rewrite renderStores_renderImage by lia. rewrite Hr.
    unfold saveToPPM. rewrite (PPMFacts.bodyBytes_nonneg Hnn). split; reflexivity.
Qed.

(** The theorem at a call without argument, and at a file that cannot be
    read. *)
Lemma main_exit_status_witness :
  List.length ["volume_render"%string] <> 2%nat /\
  main (F := R) 0 true (fun _ => Throw "no such file") ["volume_render"%string] =
  Some (mkOutcome 1 ("Usage: volume_render <vdb_file>" ++ nl)%string "" []) /\
  main (F := R) 0 true (fun _ => Throw "no such file")
       ["volume_render"; "smoke.vdb"]%string =
  Some (mkOutcome 1 "" ("Error: no such file" ++ nl)%string []).
Proof.
  assert (Hlen : List.length ["volume_render"%string] <> 2%nat) by (simpl; lia).
  split; [exact Hlen|]. split.
  - exact (proj1 main_exit_status R _ _ 0%nat true (fun _ => Throw "no such file")
             ["volume_render"%string] Hlen).
  - exact (proj1 (proj2 (proj2 main_exit_status)) R _ _ 0%nat true
             (fun _ => Throw "no such file")
             "volume_render"%string "smoke.vdb"%string "no such file"%string eq_refl).
Defined.
End MainFacts.

(* ================================================================== *)
(** * Further properties of the code *)

(** ** intersectBox against the geometry *)

Module SlabGeometry.
Import Real RealFacts.
Local Open Scope R_scope.

Lemma fmax_Rmax (a b : R) : fmax a b = Rmax a b.
Proof.
  unfold fmax, Rmax; simpl. unfold ltb.
  destruct (Rlt_dec a b), (Rle_dec a b); try reflexivity; lra.
Qed.

Lemma fmin_as_Rmin (a b : R) : fmin a b = Rmin a b.
Proof.
  unfold fmin, Rmin; simpl. unfold ltb.
  destruct (Rlt_dec b a), (Rle_dec a b); try reflexivity; lra.
Qed.

Lemma Rmax_le_iff (a b t : R) : Rmax a b <= t <-> a <= t /\ b <= t.
Proof. unfold Rmax. destruct (Rle_dec a b); split; intros; lra. Qed.

Lemma Rmin_ge_iff (a b t : R) : t <= Rmin a b <-> t <= a /\ t <= b.
Proof. unfold Rmin. destruct (Rle_dec a b); split; intros; lra. Qed.

(** One axis: the parameters between near and far are those at which the
    coordinate is between the two faces. *)
Lemma axis_interval (lo hi o d t : R) :
  d <> 0 -> lo <= hi ->
  (axisNear lo hi o d <= t <= axisFar lo hi o d <-> lo <= o + d * t <= hi).
Proof.
  intros Hd Hle. unfold axisNear, axisFar. rewrite fmin_as_Rmin, fmax_Rmax.
  unfold fone; simpl.
  set (a := (lo - o) * (1 / d)). set (b := (hi - o) * (1 / d)).
  assert (Ha : a * d = lo - o) by (unfold a; field; exact Hd).
  assert (Hb : b * d = hi - o) by (unfold b; field; exact Hd).
  destruct (Rdichotomy _ _ Hd) as [Hneg|Hpos].
  - assert (Hba : b <= a) by nra.
    rewrite Rmin_right, Rmax_left by lra. split; intros [H1 H2]; split; nra.
  - assert (Hab : a <= b) by nra.
    rewrite Rmin_left, Rmax_right by lra. split; intros [H1 H2]; split; nra.
Qed.

(** The parameters between tMin and tMax are those at which the ray is
    inside the box. *)
Lemma slab_interval (vr : VolumeRenderer R) (ray : Ray R) (t : R) :
  boxOrdered vr -> noZeroComponent (direction ray) ->
  (snd (fst (intersectBox vr ray)) <= t <= snd (intersectBox vr ray)
   <-> inBox vr (pointAt ray t)).
Proof.
  intros (Hx & Hy & Hz) (Dx & Dy & Dz).
  pose proof (axis_interval (vx (origin ray)) t Dx Hx) as Ax.
  pose proof (axis_interval (vy (origin ray)) t Dy Hy) as Ay.
  pose proof (axis_interval (vz (origin ray)) t Dz Hz) as Az.
  change (snd (fst (intersectBox vr ray)))
    with (fmax (fmax (nearOf vr ray (@vx R)) (nearOf vr ray (@vy R)))
               (nearOf vr ray (@vz R))).
  change (snd (intersectBox vr ray))
    with (fmin (fmin (farOf vr ray (@vx R)) (farOf vr ray (@vy R)))
               (farOf vr ray (@vz R))).
  rewrite !fmax_Rmax, !fmin_as_Rmin, !Rmax_le_iff, !Rmin_ge_iff.
  unfold nearOf, farOf, inBox, pointAt, vadd, vscale; simpl.
  tauto.
Qed.

Lemma slab_hit (vr : VolumeRenderer R) (ray : Ray R) :
  fst (fst (intersectBox vr ray)) = true <->
  snd (fst (intersectBox vr ray)) <= snd (intersectBox vr ray) /\
  0 < snd (intersectBox vr ray).
Proof.
  change (fst (fst (intersectBox vr ray)))
    with ((snd (fst (intersectBox vr ray)) <=? snd (intersectBox vr ray))%ar
          && (fzero <? snd (intersectBox vr ray))%ar).
  rewrite andb_true_iff. simpl. rewrite leb_true, ltb_true. reflexivity.
Qed.
End SlabGeometry.

Section SlabTheorems.
Import Real RealFacts SlabGeometry.
Local Open Scope R_scope.

(** X1.  In real arithmetic, for a box with ordered corners and a ray
    without a zero direction component: the ray is inside the box exactly
    at the parameters from tMin to tMax, and [intersectBox] reports a hit
    exactly when the ray is inside the box at some positive parameter. *)
Theorem intersectBox_correct (vr : VolumeRenderer R) (ray : Ray R) :
  boxOrdered vr -> noZeroComponent (direction ray) ->
  (forall t, inBox vr (pointAt ray t) <->
             snd (fst (intersectBox vr ray)) <= t <= snd (intersectBox vr ray)) /\
  (fst (fst (intersectBox vr ray)) = true <->
   exists t, 0 < t /\ inBox vr (pointAt ray t)).
Proof.
  intros Hbox Hdir. split.
  - intros t. symmetry. apply slab_interval; assumption.
  - rewrite slab_hit. split.
    + intros [Hle Hpos]. exists (snd (intersectBox vr ray)). split; [exact Hpos|].
      apply slab_interval; [assumption | assumption | lra].
    + intros (t & Ht & Hin). apply slab_interval in Hin; [|assumption|assumption]. lra.
Qed.

Lemma fog_ordered (d : R) : boxOrdered (Scene.fog d).
Proof. unfold boxOrdered; simpl. lra. Qed.

Lemma diagonal_no_zero : noZeroComponent (direction Scene.rayDiagonal).
Proof. unfold noZeroComponent; simpl. lra. Qed.

(** The theorem at the unit cube and the diagonal ray, which is inside
    the cube at t = 4. *)
Lemma intersectBox_correct_witness :
  boxOrdered (Scene.fog 1) /\ noZeroComponent (direction Scene.rayDiagonal) /\
  fst (fst (intersectBox (Scene.fog 1) Scene.rayDiagonal)) = true.
Proof.
  split; [apply fog_ordered|]. split; [apply diagonal_no_zero|].
  apply (proj2 (@intersectBox_correct (Scene.fog 1) Scene.rayDiagonal
                  (fog_ordered 1) diagonal_no_zero)).
  exists 4. split; [lra|]. unfold inBox, pointAt; simpl. lra.
Defined.

(** X2.  In real arithmetic, a ray without a zero direction component
    that starts beyond a face of the box and moves away from the box on
    that axis is reported to miss. *)
Theorem intersectBox_away_misses (vr : VolumeRenderer R) (ray : Ray R) :
  boxOrdered vr -> noZeroComponent (direction ray) ->
  (vx (origin ray) < vx (t0 vr) /\ vx (direction ray) < 0) \/
  (vx (t1 vr) < vx (origin ray) /\ 0 < vx (direction ray)) \/
  (vy (origin ray) < vy (t0 vr) /\ vy (direction ray) < 0) \/
  (vy (t1 vr) < vy (origin ray) /\ 0 < vy (direction ray)) \/
  (vz (origin ray) < vz (t0 vr) /\ vz (direction ray) < 0) \/
  (vz (t1 vr) < vz (origin ray) /\ 0 < vz (direction ray)) ->
  fst (fst (intersectBox vr ray)) = false.
Proof.
  intros Hbox Hdir Haway.
  destruct (fst (fst (intersectBox vr ray))) eqn:Hhit; [|reflexivity].
  exfalso. apply slab_hit in Hhit. destruct Hhit as [Hle Hpos].
  assert (Hin : inBox vr (pointAt ray (snd (intersectBox vr ray)))).
  { apply slab_interval; [assumption | assumption | lra]. }
  set (t := snd (intersectBox vr ray)) in *.
  unfold inBox, pointAt, vadd, vscale in Hin; simpl in Hin.
  destruct Hin as (Hx & Hy & Hz).
  destruct Haway as [[H1 H2]|[[H1 H2]|[[H1 H2]|[[H1 H2]|[[H1 H2]|[H1 H2]]]]]]; nra.
Qed.

(** The theorem at the unit cube and a ray that starts below it and
    goes down. *)
Lemma intersectBox_away_misses_witness :
  fst (fst (intersectBox (Scene.fog 1)
              (mkRay (mkVec3 (1 / 2) (-1) (1 / 2)) (mkVec3 (1 / 3) (- 2 / 3) (2 / 3)))))
  = false.
Proof.
  apply intersectBox_away_misses.
  - apply fog_ordered.
  - unfold noZeroComponent; simpl. lra.
  - right; right; left. simpl. lra.
Defined.

End SlabTheorems.

(** ** Degenerate directions in binary32 *)

Section DegenerateRay.
Local Open Scope arith_scope.

Lemma b32_mul_nan (x : spec_float) : (x * S754_nan)%ar = S754_nan.
Proof. destruct x; reflexivity. Qed.

Lemma b32_axis_nan (lo hi o : spec_float) :
  axisNear lo hi o S754_nan = S754_nan /\ axisFar lo hi o S754_nan = S754_nan.
Proof.
  unfold axisNear, axisFar.
  change (@fone spec_float _ / S754_nan) with S754_nan.
  rewrite !b32_mul_nan. split; reflexivity.
Qed.

(** X4.  In binary32: normalizing a zero vector gives three NaN, so
    [Ray] built on a zero direction has a NaN direction; and a ray whose
    direction has NaN as first component is reported to miss the box,
    whatever the box and the origin, so that [trace] returns the zero
    colour without marching. *)
Theorem zero_direction_misses :
  (forall (o : Vec3 spec_float) (sx sy sz : bool),
      direction (Ray_new o (mkVec3 (S754_zero sx) (S754_zero sy) (S754_zero sz)))
      = mkVec3 S754_nan S754_nan S754_nan) /\
  (forall (L : Libm spec_float) (vr : VolumeRenderer spec_float)
          (ray : Ray spec_float) (fuel : nat),
      vx (direction ray) = S754_nan ->
      fst (fst (intersectBox vr ray)) = false /\
      trace vr fuel ray = Some (Vec3_1 fzero)).
Proof.
  split.
  - intros o sx sy sz. destruct sx, sy, sz; reflexivity.
  - intros L vr ray fuel Hnan.
    assert (Hmiss : fst (fst (intersectBox vr ray)) = false).
    { rewrite intersectBox_slab. unfold nearOf at 1, farOf at 1.
      rewrite Hnan.
      destruct (b32_axis_nan (vx (t0 vr)) (vx (t1 vr)) (vx (origin ray))) as [-> ->].
      reflexivity. }
    split; [exact Hmiss | apply trace_miss; exact Hmiss].
Qed.

(** The theorem at a ray built on the zero direction, in the unit
    cube. *)
Lemma zero_direction_misses_witness :
  trace (H0 := Scene.nanLibm) Scene.unitBox 0
        (Ray_new (mkVec3 (fofZ 0) (fofZ 0) (fofZ 0))
                 (mkVec3 (S754_zero false) (S754_zero false) (S754_zero false)))
  = Some (Vec3_1 fzero).
Proof.
  apply (proj2 zero_direction_misses Scene.nanLibm Scene.unitBox
               (Ray_new (mkVec3 (fofZ 0) (fofZ 0) (fofZ 0))
                        (mkVec3 (S754_zero false) (S754_zero false) (S754_zero false)))
               0%nat).
  reflexivity.
Defined.
End DegenerateRay.

(** ** What the marches compute, in real arithmetic *)

Section MarchValues.
Import Real RealFacts.
Local Open Scope R_scope.

(** What one iteration of the primary march does to the transmittance. *)
Lemma traceBody_transmittance (vr : VolumeRenderer R) (fuel : nat) (ray : Ray R)
  (s s' : MarchState R) :
  0 <= stepSize vr -> 0 < m_transmittance s ->
  traceBody vr fuel ray s = Some s' ->
  0 < m_transmittance s' <= m_transmittance s.
Proof.
  intros Hstep HT. unfold traceBody.
  destruct (fzero <? sampleDensity vr (samplePoint ray s))%ar eqn:Hd.
  - destruct (traceShadowRay vr fuel (samplePoint ray s)); [|discriminate].
    intros E; inversion E; subst; simpl.
    apply ltb_true in Hd. unfold fzero in Hd; simpl in Hd.
    set (d := sampleDensity vr (samplePoint ray s)) in *.
    pose proof (exp_pos (- (d * stepSize vr))) as He.
    assert (He1 : exp (- (d * stepSize vr)) <= 1) by (apply exp_le_1; nra).
    split; nra.
  - intros E; inversion E; subst; simpl. lra.
Qed.

(** The first iteration of the primary march along the diagonal ray
    through the unit cube of density [d]. *)
Lemma fog_first_step (d : R) :
  0 < d ->
  exists (L : R) (s1 : MarchState R),
    0 < L /\
    traceBody (Scene.fog d) 200 Scene.rayDiagonal (traceInit 3) = Some s1 /\
    traceReaches (Scene.fog d) 200 Scene.rayDiagonal 3 (9 / 2) s1 /\
    m_t s1 = 3 + 1 / 10 /\
    m_transmittance s1 = exp (- (d * (1 / 10))) /\
    vx (m_color s1) = 1 / (4 * PI) * L * exp (- (d * (1 / 10))) * (d * (1 / 10)).
Proof.
  intros Hd.
  destruct (@traceShadowRay_total (Scene.fog d)
              (samplePoint Scene.rayDiagonal (traceInit 3)) 200)
    as (L & HL & HLpos).
  { simpl; lra. }
  { change (stepSize (Scene.fog d)) with (1 / 10). rewrite stepsTo_200. apply le_n. }
  assert (Hpos : (fzero <? sampleDensity (Scene.fog d)
                             (samplePoint Scene.rayDiagonal (traceInit 3)))%ar = true).
  { apply ltb_true. unfold fzero; simpl. exact Hd. }
  pose proof (traceBody_scatter (Scene.fog d) 200 Scene.rayDiagonal (traceInit 3)
                Hpos HL) as Hb.
  cbv zeta in Hb.
  match type of Hb with _ = Some ?st => set (s1 := st) in * end.
  exists L, s1. split; [exact HLpos|]. split; [exact Hb|]. split.
  { unfold traceReaches.
    apply (@reaches_step _ (traceCond (9 / 2))
             (traceBody (Scene.fog d) 200 Scene.rayDiagonal)
             (traceInit 3) (traceInit 3) s1 (reaches_init _ _ _)); [|exact Hb].
    apply traceCond_true. unfold traceInit, fone; simpl. lra. }
  split; [reflexivity|]. split.
  - unfold s1, traceInit, fone; simpl. ring.
  - unfold s1, traceInit, phase, fone, fzero; simpl. ring.
Qed.

(** X5.  In real arithmetic, with a step that is not negative and
    whatever the field, negative values included: the transmittance of
    the primary march starts at 1, is never negative nor above 1, and no
    iteration increases it. *)
Theorem trace_transmittance_decreases (vr : VolumeRenderer R) (fuel : nat)
  (ray : Ray R) (tMin tMax : R) :
  0 <= stepSize vr ->
  forall s, traceReaches vr fuel ray tMin tMax s ->
    0 <= m_transmittance s <= 1 /\
    forall s', traceBody vr fuel ray s = Some s' ->
               0 <= m_transmittance s' <= m_transmittance s.
Proof.
  intros Hstep s Hr.
  assert (HT : 0 < m_transmittance s <= 1).
  { unfold traceReaches in Hr. induction Hr as [|a b Hr IH Hc Hb].
    - simpl. unfold fone; simpl. lra.
    - pose proof (@traceBody_transmittance vr fuel ray a b Hstep (proj1 IH) Hb). lra. }
  split; [lra|].
  intros s' Hb.
  pose proof (@traceBody_transmittance vr fuel ray s s' Hstep (proj1 HT) Hb). lra.
Qed.

(** The theorem at the unit cube of density 1, at the state after the
    first iteration along the diagonal ray, whose transmittance is
    exp(-1/10), and at the iteration that follows. *)
Lemma trace_transmittance_decreases_witness :
  exists s1 s2 : MarchState R,
    traceReaches (Scene.fog 1) 200 Scene.rayDiagonal 3 (9 / 2) s1 /\
    m_transmittance s1 = exp (- (1 * (1 / 10))) /\
    0 <= m_transmittance s1 <= 1 /\
    traceBody (Scene.fog 1) 200 Scene.rayDiagonal s1 = Some s2 /\
    0 <= m_transmittance s2 <= m_transmittance s1.
Proof.
  destruct (@fog_first_step 1) as (L & s1 & _ & _ & Hr & _ & HT & _); [lra|].
  destruct (@traceBody_total (Scene.fog 1) Scene.rayDiagonal 200 s1) as [s2 Hb].
  { simpl; lra. }
  { change (stepSize (Scene.fog 1)) with (1 / 10). rewrite stepsTo_200. apply le_n. }
  assert (Hstep : 0 <= stepSize (Scene.fog 1)) by (simpl; lra).
  destruct (@trace_transmittance_decreases (Scene.fog 1) 200%nat Scene.rayDiagonal
              3 (9 / 2) Hstep s1 Hr) as [H1 H2].
  exists s1, s2. split; [exact Hr|]. split; [exact HT|]. split; [exact H1|].
  split; [exact Hb | exact (H2 s2 Hb)].
Defined.

(** X6.  In real arithmetic, in a medium of the same density d
    everywhere: at every state of a shadow march the transmittance is
    exp(-d t); and when d is positive, at every state of the primary
    march it is exp(-d (t - tMin)). *)
Theorem uniform_medium_beer_lambert (vr : VolumeRenderer R) (d : R) :
  (forall p, sampleDensity vr p = d) ->
  (forall pos s, shadowReaches vr pos s ->
                 sh_transmittance s = exp (- (d * sh_t s))) /\
  (0 < d ->
   forall fuel ray tMin tMax s,
     traceReaches vr fuel ray tMin tMax s ->
     m_transmittance s = exp (- (d * (m_t s - tMin)))).
Proof.
  intros Hd. split.
  - intros pos s Hr. unfold shadowReaches in Hr.
    induction Hr as [|a b Hr IH Hc Hb].
    + simpl. unfold fone, fzero; simpl.
      replace (- (d * 0)) with 0 by ring. symmetry. apply exp_0.
    + inversion Hb; subst. rewrite shadowBody_eq; simpl.
      unfold shadowDensity. rewrite Hd, IH, <- exp_plus. f_equal. ring.
  - intros Hpos fuel ray tMin tMax s Hr. unfold traceReaches in Hr.
    induction Hr as [|a b Hr IH Hc Hb].
    + simpl. unfold fone; simpl.
      replace (- (d * (tMin - tMin))) with 0 by ring. symmetry. apply exp_0.
    + unfold traceBody in Hb. rewrite Hd in Hb.
      replace (fzero <? d)%ar with true in Hb
        by (symmetry; apply ltb_true; unfold fzero; simpl; exact Hpos).
      destruct (traceShadowRay vr fuel (samplePoint ray a)); [|discriminate].
      inversion Hb; subst; simpl. rewrite IH, <- exp_plus. f_equal. ring.
Qed.

(** The theorem at the unit cube of density 1, after one iteration of a
    shadow march. *)
Lemma uniform_medium_beer_lambert_witness :
  sh_transmittance (shadowBody (Scene.fog 1) (mkVec3 0 0 0) shadowInit)
  = exp (- (1 * sh_t (shadowBody (Scene.fog 1) (mkVec3 0 0 0) shadowInit))).
Proof.
  apply (proj1 (@uniform_medium_beer_lambert (Scene.fog 1) 1 (fun _ => eq_refl))
               (mkVec3 0 0 0)).
  eapply reaches_step; [apply reaches_init | | reflexivity].
  apply shadowCond_true. simpl. unfold fone, fzero; simpl. lra.
Defined.
End MarchValues.

(** ** The radiance the renderer can produce *)

Section Radiance.
Import Real RealFacts.
Local Open Scope R_scope.

Lemma phase_pos : 0 < 1 / (4 * PI).
Proof. apply Rdiv_lt_0_compat; [lra|]. pose proof PI_RGT_0. lra. Qed.

Lemma phase_below_twelfth : 1 / (4 * PI) < 1 / 12.
Proof.
  pose proof PI2_3_2 as H. assert (H3 : 3 < PI) by lra.
  unfold Rdiv. rewrite !Rmult_1_l. apply Rinv_lt_contravar; nra.
Qed.

(** x exp(-x) <= 1 - exp(-x). *)
Lemma absorbed_bound (x : R) : x * exp (- x) <= 1 - exp (- x).
Proof.
  pose proof (exp_ineq1_le x) as H1. pose proof (exp_pos (- x)) as H2.
  assert (H3 : exp (- x) * exp x = 1).
  { rewrite <- exp_plus. replace (- x + x) with 0 by ring. apply exp_0. }
  nra.
Qed.

(** What [traceShadowRay] returns over a field without a negative value
    is in (0, 1], with any fuel. *)
Lemma traceShadowRay_range (vr : VolumeRenderer R) (fuel : nat) (pos : Vec3 R) (L : R) :
  0 <= stepSize vr -> nonnegField (sampleDensity vr) ->
  traceShadowRay vr fuel pos = Some L -> 0 < L <= 1.
Proof.
  intros Hstep Hnn HL. unfold traceShadowRay in HL.
  destruct (shadowLoop vr fuel pos) as [[sh n]|] eqn:Hw; [|discriminate].
  inversion HL; subst. unfold shadowLoop in Hw.
  destruct (while_reaches _ _ _ _ Hw) as [Hr _]. split.
  - apply (@shadow_positive vr pos sh Hr).
  - apply (@shadow_at_most_one vr pos); [|exact Hstep|exact Hr].
    intros s _ _. apply Hnn.
Qed.

Lemma traceBody_radiance (vr : VolumeRenderer R) (fuel : nat) (ray : Ray R)
  (s s' : MarchState R) :
  0 <= stepSize vr -> nonnegField (sampleDensity vr) ->
  radianceInvariant s -> traceBody vr fuel ray s = Some s' -> radianceInvariant s'.
Proof.
  intros Hstep Hnn (HT & Hx & Hy & Hz). unfold traceBody.
  destruct (fzero <? sampleDensity vr (samplePoint ray s))%ar eqn:Hd.
  - destruct (traceShadowRay vr fuel (samplePoint ray s)) as [L|] eqn:HL; [|discriminate].
    intros E; inversion E; subst; clear E. unfold radianceInvariant; simpl.
    apply ltb_true in Hd. unfold fzero in Hd; simpl in Hd.
    pose proof (@traceShadowRay_range vr fuel (samplePoint ray s) L Hstep Hnn HL) as HLr.
    set (d := sampleDensity vr (samplePoint ray s)) in *.
    set (x := d * stepSize vr).
    assert (Hx0 : 0 <= x) by (unfold x; nra).
    pose proof (exp_pos (- x)) as He. pose proof (absorbed_bound x) as Hab.
    assert (He1 : exp (- x) <= 1) by (apply exp_le_1; lra).
    pose proof phase_pos as Hph.
    set (T := m_transmittance s) in *. set (e := exp (- x)) in *.
    set (k := 1 / (4 * PI)) in *.
    unfold phase, fone, fzero; simpl. fold k.
    assert (Hterm : 0 <= k * L * (T * e) * x <= k * (T - T * e)).
    { assert (H1 : 0 <= T * e * x) by (apply Rmult_le_pos; nra).
      assert (H2 : T * e * x <= T - T * e) by nra.
      assert (H3 : 0 <= k * L <= k) by nra.
      split; [nra|].
      apply Rle_trans with (k * (T * e * x)); [|nra].
      replace (k * L * (T * e) * x) with (k * L * (T * e * x)) by ring.
      apply Rmult_le_compat_r; [exact H1 | lra]. }
    repeat split; nra.
  - intros E; inversion E; subst; simpl. unfold radianceInvariant; simpl.
    repeat split; assumption || lra.
Qed.

Lemma radianceInvariant_init (tMin : R) : radianceInvariant (traceInit tMin).
Proof.
  unfold radianceInvariant, traceInit, fone, fzero; simpl.
  pose proof phase_pos. repeat split; lra.
Qed.

Lemma radianceInvariant_dim (s : MarchState R) :
  radianceInvariant s -> dimRed (m_color s).
Proof.
  intros (HT & Hx & Hy & Hz). pose proof phase_pos. pose proof phase_below_twelfth.
  unfold dimRed. repeat split; try assumption; nra.
Qed.

(** Every ray is traced to a dim red once the fuel is large enough. *)
Lemma trace_total_dim (vr : VolumeRenderer R) (ray : Ray R) :
  0 < stepSize vr -> nonnegField (sampleDensity vr) ->
  exists N : nat, forall fuel, (N <= fuel)%nat ->
    exists c, trace vr fuel ray = Some c /\ dimRed c.
Proof.
  intros Hstep Hnn. unfold trace.
  destruct (intersectBox vr ray) as [[hit tMin] tMax].
  exists (Nat.max (stepsTo 20 (stepSize vr)) (stepsTo (tMax - tMin) (stepSize vr))).
  intros fuel Hfuel. destruct hit; simpl.
  - destruct (@traceLoop_total vr ray radianceInvariant fuel tMin tMax Hstep)
      as (s & n & Hw & _ & Hinv & _).
    + lia.
    + apply radianceInvariant_init.
    + intros s _ HP _.
      destruct (@traceBody_total vr ray fuel s Hstep) as [s' Hs']; [lia|].
      exists s'. split; [exact Hs'|].
      apply (@traceBody_radiance vr fuel ray s s'); try assumption. lra.
    + rewrite Hw. exists (m_color s). split; [reflexivity|].
      apply radianceInvariant_dim; exact Hinv.
  - eexists; split; [reflexivity|]. unfold dimRed, fzero; simpl. lra.
Qed.

(** The invariant holds at every state of the primary march, and gives
    the colour [trace] returns, with any fuel. *)
Lemma traceReaches_radiance (vr : VolumeRenderer R) (fuel : nat) (ray : Ray R)
  (tMin tMax : R) (s : MarchState R) :
  0 <= stepSize vr -> nonnegField (sampleDensity vr) ->
  traceReaches vr fuel ray tMin tMax s -> radianceInvariant s.
Proof.
  intros Hstep Hnn Hr. unfold traceReaches in Hr.
  induction Hr as [|a b Hr IH Hc Hb].
  - apply radianceInvariant_init.
  - apply (@traceBody_radiance vr fuel ray a b); assumption.
Qed.

Lemma trace_some_radiance (vr : VolumeRenderer R) (fuel : nat) (ray : Ray R)
  (c : Vec3 R) :
  0 <= stepSize vr -> nonnegField (sampleDensity vr) ->
  trace vr fuel ray = Some c ->
  0 <= vx c < 1 / (4 * PI) /\ vy c = 0 /\ vz c = 0.
Proof.
  intros Hstep Hnn. unfold trace.
  destruct (intersectBox vr ray) as [[hit tMin] tMax]. destruct hit; simpl.
  - destruct (traceLoop vr fuel ray tMin tMax) as [[s n]|] eqn:Hw; [|discriminate].
    intros E; inversion E; subst. unfold traceLoop in Hw.
    destruct (while_reaches _ _ _ _ Hw) as [Hr _].
    destruct (@traceReaches_radiance vr fuel ray tMin tMax s Hstep Hnn Hr)
      as (HT & Hx & Hy & Hz).
    pose proof phase_pos. repeat split; try assumption; nra.
  - intros E; inversion E; subst. unfold fzero; simpl.
    pose proof phase_pos. repeat split; lra.
Qed.

Lemma trace_some_dim (vr : VolumeRenderer R) (fuel : nat) (ray : Ray R) (c : Vec3 R) :
  0 <= stepSize vr -> nonnegField (sampleDensity vr) ->
  trace vr fuel ray = Some c -> dimRed c.
Proof.
  intros Hstep Hnn Ht.
  destruct (@trace_some_radiance vr fuel ray c Hstep Hnn Ht) as (Hx & Hy & Hz).
  pose proof phase_below_twelfth. unfold dimRed. repeat split; try assumption; lra.
Qed.

(** X7.  In real arithmetic, over a field without a negative value and
    with a step that is not negative: at every state of the primary march
    the red component of the colour is between 0 and
    (1 - transmittance) / (4 pi) and the green and blue components are 0;
    so the colour [trace] returns has red between 0 and 1/(4 pi), and no
    green and no blue. *)
Theorem trace_radiance_bound (vr : VolumeRenderer R) (fuel : nat) (ray : Ray R) :
  0 <= stepSize vr -> nonnegField (sampleDensity vr) ->
  (forall tMin tMax s,
      traceReaches vr fuel ray tMin tMax s ->
      0 <= vx (m_color s) <= 1 / (4 * PI) * (1 - m_transmittance s) /\
      vy (m_color s) = 0 /\ vz (m_color s) = 0) /\
  (forall c, trace vr fuel ray = Some c ->
             0 <= vx c < 1 / (4 * PI) /\ vy c = 0 /\ vz c = 0).
Proof.
  intros Hstep Hnn. split.
  - intros tMin tMax s Hr.
    destruct (@traceReaches_radiance vr fuel ray tMin tMax s Hstep Hnn Hr)
      as (_ & Hx & Hy & Hz).
    split; [exact Hx|]. split; assumption.
  - intros c Ht. apply (@trace_some_radiance vr fuel ray c Hstep Hnn Ht).
Qed.

Lemma fog_nonneg : nonnegField (sampleDensity (Scene.fog 1)).
Proof. intros p. simpl. lra. Qed.

(** The theorem at the unit cube of density 1 and the diagonal ray, at
    the state after the first iteration: the sample has scattered light
    into the red component, within the bound. *)
Lemma trace_radiance_bound_witness :
  exists (L : R) (s1 : MarchState R),
    traceReaches (Scene.fog 1) 200 Scene.rayDiagonal 3 (9 / 2) s1 /\
    m_transmittance s1 = exp (- (1 * (1 / 10))) /\
    vx (m_color s1) = 1 / (4 * PI) * L * exp (- (1 * (1 / 10))) * (1 * (1 / 10)) /\
    0 < vx (m_color s1) /\
    (0 <= vx (m_color s1) <= 1 / (4 * PI) * (1 - m_transmittance s1) /\
     vy (m_color s1) = 0 /\ vz (m_color s1) = 0).
Proof.
  destruct (@fog_first_step 1) as (L & s1 & HL & _ & Hr & _ & HT & Hx); [lra|].
  assert (Hstep : 0 <= stepSize (Scene.fog 1)) by (simpl; lra).
  exists L, s1. split; [exact Hr|]. split; [exact HT|]. split; [exact Hx|]. split.
  - rewrite Hx. pose proof phase_pos. pose proof (exp_pos (- (1 * (1 / 10)))).
    repeat apply Rmult_lt_0_compat; lra.
  - apply (proj1 (@trace_radiance_bound (Scene.fog 1) 200%nat Scene.rayDiagonal
                    Hstep fog_nonneg) 3 (9 / 2) s1 Hr).
Defined.
End Radiance.

(** ** The image volume_render writes *)

Section DimImage.
Import Real RealFacts.
Local Open Scope R_scope.

Lemma mapM_length {A B : Type} (f : A -> option B) (l : list A) (bs : list B) :
  mapM f l = Some bs -> List.length bs = List.length l.
Proof.
  revert bs. induction l as [|x rest IH]; intros bs; simpl.
  - intros E; inversion E; reflexivity.
  - destruct (f x) as [y|]; [|discriminate].
    destruct (mapM f rest) as [ys|]; [|discriminate].
    intros E; inversion E; subst. simpl. rewrite (IH ys eq_refl). reflexivity.
Qed.

Lemma renderImage_total_dim (camera : Camera R) (renderer : VolumeRenderer R)
  (width height : Z) :
  0 < stepSize renderer -> nonnegField (sampleDensity renderer) ->
  exists N : nat, forall fuel, (N <= fuel)%nat ->
    exists pixels, renderImage fuel camera renderer width height = Some pixels /\
                   Forall dimRed pixels.
Proof.
  intros Hstep Hnn. unfold renderImage.
  induction (pixelCoords width height) as [|[x y] rest IH].
  - exists O. intros fuel _. exists []. split; [reflexivity | constructor].
  - destruct IH as [N1 IH].
    destruct (@trace_total_dim renderer
                (getRay camera ((fofZ x + flit 1 2) / fofZ width)%ar
                               ((fofZ y + flit 1 2) / fofZ height)%ar) Hstep Hnn)
      as [N2 Ht].
    exists (Nat.max N1 N2). intros fuel Hfuel.
    destruct (IH fuel) as (pixels & Hr & Hd); [lia|].
    destruct (Ht fuel) as (c & Hc & Hcd); [lia|].
    exists (c :: pixels). split; [|constructor; assumption].
    cbn [mapM]. unfold renderPixel at 1. rewrite Hc, Hr. reflexivity.
Qed.

Lemma clampedByte_zero : clampedByte 0 = 0%Z.
Proof.
  unfold clampedByte. rewrite Rmin_left by lra.
  replace (0 * 255) with (IZR 0) by (simpl; ring). apply PPMFacts.Int_part_IZR.
Qed.

Lemma clampedByte_dim (c : R) : 0 <= c < 1 / 12 -> (0 <= clampedByte c <= 21)%Z.
Proof.
  intros [H0 H1]. unfold clampedByte. rewrite Rmin_left by lra.
  destruct (base_Int_part (c * 255)) as [Hlo Hhi]. split.
  - assert (H : (-1 < Int_part (c * 255))%Z) by (apply lt_IZR; lra). lia.
  - assert (H : (Int_part (c * 255) < 22)%Z) by (apply lt_IZR; lra). lia.
Qed.

Lemma dimRed_nonneg (c : Vec3 R) : dimRed c -> nonneg c.
Proof. intros (Hx & Hy & Hz). unfold nonneg. rewrite Hy, Hz. lra. Qed.

Lemma triples_dim (pixels : list (Vec3 R)) :
  Forall dimRed pixels ->
  flat_map triple pixels =
  flat_map (fun r => [r; 0; 0]%Z) (map (fun p => clampedByte (vx p)) pixels) /\
  Forall (fun r => (0 <= r <= 21)%Z) (map (fun p => clampedByte (vx p)) pixels).
Proof.
  induction 1 as [|p rest (Hx & Hy & Hz) _ [IH1 IH2]]; cbn [flat_map map].
  - split; [reflexivity | constructor].
  - split.
    + rewrite IH1. unfold triple. rewrite Hy, Hz, clampedByte_zero. reflexivity.
    + constructor; [apply clampedByte_dim; exact Hx | exact IH2].
Qed.

Lemma mapM_Forall {A B : Type} (f : A -> option B) (P : B -> Prop)
  (l : list A) (bs : list B) :
  (forall a b, f a = Some b -> P b) -> mapM f l = Some bs -> Forall P bs.
Proof.
  intros Hf. revert bs. induction l as [|x rest IH]; intros bs; simpl.
  - intros E; inversion E. constructor.
  - destruct (f x) as [y|] eqn:Hy; [|discriminate].
    destruct (mapM f rest) as [ys|]; [|discriminate].
    intros E; inversion E; subst. constructor; [apply (Hf x y Hy) | apply IH; reflexivity].
Qed.

(** Every colour of a rendered buffer is a dim red, with any fuel. *)
Lemma renderImage_dim (fuel : nat) (camera : Camera R) (renderer : VolumeRenderer R)
  (width height : Z) (pixels : list (Vec3 R)) :
  0 <= stepSize renderer -> nonnegField (sampleDensity renderer) ->
  renderImage fuel camera renderer width height = Some pixels ->
  Forall dimRed pixels.
Proof.
  intros Hstep Hnn. unfold renderImage. apply mapM_Forall.
  intros [x y] c. unfold renderPixel. apply trace_some_dim; assumption.
Qed.

(** X8.  [main] of volume_render.cpp, in real arithmetic, on a grid that
    is read and has no negative value: whenever it returns, the status is
    0 and the message "Rendered image saved to volume_render.ppm"; when
    the output file cannot be opened nothing is written; when it can, the
    one file written is volume_render.ppm, whose bytes are those of
    "P6\n800 600\n255\n" followed by 480000 pixels, each with a red byte
    from 0 to 21 and the green and blue bytes 0. *)
Theorem main_image_dark_red
  (readDensity : string -> Exc (Grid R)) (prog path : string) (grid : Grid R)
  (fuel : nat) (opened : bool) (outcome : Outcome) :
  readDensity path = Ok grid -> nonnegField (gridValue grid) ->
  main fuel opened readDensity [prog; path] = Some outcome ->
  status outcome = 0%Z /\
  out outcome = ("Rendered image saved to volume_render.ppm" ++ nl)%string /\
  err outcome = ""%string /\
  (opened = false -> written outcome = []) /\
  (opened = true ->
   exists (file : string) (reds : list Z),
     written outcome = [("volume_render.ppm"%string, file)] /\
     Z.of_nat (List.length reds) = 480000%Z /\
     Forall (fun r => (0 <= r <= 21)%Z) reds /\
     codes file =
     ([80; 54; 10; 56; 48; 48; 32; 54; 48; 48; 10; 50; 53; 53; 10]
      ++ flat_map (fun r => [r; 0; 0]) reds)%Z).
Proof.
  intros Hread Hnn. unfold main.
  cbn [List.length Z.of_nat Pos.of_succ_nat Pos.succ Z.eqb Pos.eqb negb nth].
  rewrite Hread. cbv zeta. rewrite renderStores_renderImage by lia.
  destruct (renderImage _ _ _ _ _) as [pixels|] eqn:Hr; [|discriminate].
  assert (Hd : Forall dimRed pixels).
  { eapply renderImage_dim; [| |exact Hr].
    - unfold VolumeRenderer_new, flit. cbn [stepSize]. simpl. lra.
    - unfold VolumeRenderer_new. cbn [sampleDensity]. exact Hnn. }
  assert (Hnonneg : Forall nonneg pixels).
  { eapply Forall_impl; [|exact Hd]. intros c Hc. apply dimRed_nonneg; exact Hc. }
  unfold saveToPPM. rewrite (@PPMFacts.bodyBytes_nonneg pixels Hnonneg).
  intros E; inversion E; subst outcome; clear E. cbn [status out err written].
  split; [reflexivity|]. split; [reflexivity|]. split; [reflexivity|]. split.
  - intros ->. reflexivity.
  - intros ->. destruct (triples_dim Hd) as [Ht Hreds].
    eexists. exists (map (fun p => clampedByte (vx p)) pixels).
    split; [reflexivity|]. split.
    { rewrite length_map. unfold renderImage in Hr.
      rewrite (mapM_length _ _ Hr), length_pixelCoords.
      rewrite Nat2Z.inj_mul, !Z2Nat.id by lia. reflexivity. }
    split; [exact Hreds|].
    change (codes (ppmHeader 800 600
                   ++ string_of_list_ascii (map byte_of_Z (flat_map triple pixels)))%string
            = ([80; 54; 10; 56; 48; 48; 32; 54; 48; 48; 10; 50; 53; 53; 10]
               ++ flat_map (fun r => [r; 0; 0])
                    (map (fun p => clampedByte (vx p)) pixels))%Z).
    rewrite ByteFacts.codes_app, ByteFacts.codes_bytes
      by (apply ByteFacts.triples_bytes; exact Hnonneg).
    rewrite Ht.
    assert (Hh : codes (ppmHeader 800 600) =
                 [80; 54; 10; 56; 48; 48; 32; 54; 48; 48; 10; 50; 53; 53; 10]%Z)
      by (vm_compute; reflexivity).
    rewrite Hh. reflexivity.
Qed.

(** The theorem at a grid on the unit cube with the value 1 everywhere,
    where [main] returns once the fuel is large enough. *)
Lemma main_image_dark_red_witness :
  exists N : nat, forall fuel, (N <= fuel)%nat ->
    exists (outcome : Outcome) (file : string) (reds : list Z),
      main fuel true
           (fun _ => Ok (mkGrid (0, 0, 0)%Z (1, 1, 1)%Z (fun _ : Vec3 R => 1)))
           ["volume_render"; "smoke.vdb"]%string = Some outcome /\
      status outcome = 0%Z /\
      written outcome = [("volume_render.ppm"%string, file)] /\
      Z.of_nat (List.length reds) = 480000%Z /\
      Forall (fun r => (0 <= r <= 21)%Z) reds /\
      codes file =
      ([80; 54; 10; 56; 48; 48; 32; 54; 48; 48; 10; 50; 53; 53; 10]
       ++ flat_map (fun r => [r; 0; 0]) reds)%Z.
Proof.
  set (g := mkGrid (0, 0, 0)%Z (1, 1, 1)%Z (fun _ : Vec3 R => 1)).
  assert (Hnn : nonnegField (gridValue g)) by (intros p; simpl; lra).
  destruct (@renderImage_total
              (Camera_new (mkVec3 (fofZ 5) (fofZ 3) (fofZ 5))
                          (mkVec3 (fofZ 0) (fofZ 0) (fofZ 0))
                          (mkVec3 (fofZ 0) (fofZ 1) (fofZ 0))
                          (fofZ 60) (fofZ 800 / fofZ 600)%ar)
              (VolumeRenderer_new g
                 (mkVec3 (fofZ (-1)) (fofZ 1) (fofZ (-1))) (flit 1 10))
              800 600) as [N HN].
  { unfold VolumeRenderer_new, flit. cbn [stepSize]. simpl. lra. }
  exists N. intros fuel Hfuel.
  destruct (HN fuel Hfuel) as (pixels & Hr & Hpix).
  assert (Hm : exists outcome,
             main fuel true (fun _ => Ok g) ["volume_render"; "smoke.vdb"]%string
             = Some outcome).
  { unfold main.
    cbn [List.length Z.of_nat Pos.of_succ_nat Pos.succ Z.eqb Pos.eqb negb nth].
    cbv zeta. rewrite renderStores_renderImage by lia. rewrite Hr. unfold saveToPPM.
    rewrite (@PPMFacts.bodyBytes_nonneg pixels Hpix). eexists. reflexivity. }
  destruct Hm as [outcome Hm].
  destruct (@main_image_dark_red (fun _ => Ok g) "volume_render"%string
              "smoke.vdb"%string g fuel true outcome eq_refl Hnn Hm)
    as (Hs & _ & _ & _ & Hw).
  destruct (Hw eq_refl) as (file & reds & Hfile & Hlen & Hreds & Hcodes).
  exists outcome, file, reds.
  split; [exact Hm|]. split; [exact Hs|]. split; [exact Hfile|].
  split; [exact Hlen|]. split; [exact Hreds | exact Hcodes].
Defined.
End DimImage.

(** ** Image.h: what every image keeps *)

Section ImageInvariant.
Import ImageH Real RealFacts.
Local Open Scope R_scope.

Lemma fclamp_unit (v : R) : unit01 (fclamp v fzero fone).
Proof.
  unfold unit01, fclamp, fzero, fone; simpl. unfold ltb.
  destruct (Rlt_dec v 0); [lra|]. destruct (Rlt_dec 1 v); lra.
Qed.

Lemma fclamp_id (v : R) : unit01 v -> fclamp v fzero fone = v.
Proof.
  unfold unit01, fclamp, fzero, fone; simpl. unfold ltb. intros Hv.
  destruct (Rlt_dec v 0); [lra|]. destruct (Rlt_dec 1 v); [lra | reflexivity].
Qed.

Lemma Forall_set_nth {A : Type} (P : A -> Prop) (v : A) (l : list A) (n : nat) :
  Forall P l -> ((n < List.length l)%nat -> P v) -> Forall P (set_nth n v l).
Proof.
  intros Hl. revert n. induction Hl as [|a l Ha Hl IH]; intros [|n] Hv; simpl.
  - constructor.
  - constructor.
  - constructor; [apply Hv; simpl; lia | exact Hl].
  - constructor; [exact Ha|]. apply IH. intros Hn. apply Hv. simpl. lia.
Qed.

Lemma Forall_nth_default {A : Type} (P : A -> Prop) (l : list A) (n : nat) (d : A) :
  Forall P l -> P d -> P (nth n l d).
Proof.
  intros Hl Hd. revert n. induction Hl as [|a l Ha Hl IH]; intros [|n]; simpl; auto.
Qed.

Lemma hasShape_Zero (rows cols : Z) : hasShape (Zero (F := R) rows cols) rows cols.
Proof.
  unfold hasShape, Zero. split; [apply repeat_length|].
  apply Forall_forall. intros row Hin. apply repeat_spec in Hin. subst.
  apply repeat_length.
Qed.

Lemma unitMatrix_Zero (rows cols : Z) : unitMatrix (Zero rows cols).
Proof.
  unfold unitMatrix, Zero. apply Forall_forall. intros row Hin.
  apply repeat_spec in Hin. subst. apply Forall_forall. intros v Hv.
  apply repeat_spec in Hv. subst. unfold unit01, fzero; simpl. lra.
Qed.

Lemma hasShape_setCoeff (m : Matrix R) (rows cols row col : Z) (v : R) :
  hasShape m rows cols -> hasShape (setCoeff m row col v) rows cols.
Proof.
  intros [Hlen Hrows]. unfold hasShape, setCoeff. split.
  - rewrite ImageFacts.length_set_nth. exact Hlen.
  - apply Forall_set_nth; [exact Hrows|]. intros Hn.
    rewrite ImageFacts.length_set_nth.
    rewrite Forall_forall in Hrows. apply Hrows. apply nth_In. exact Hn.
Qed.

Lemma unitMatrix_setCoeff (m : Matrix R) (row col : Z) (v : R) :
  unitMatrix m -> unit01 v -> unitMatrix (setCoeff m row col v).
Proof.
  intros Hm Hv. unfold unitMatrix, setCoeff.
  apply Forall_set_nth; [exact Hm|]. intros _.
  apply Forall_set_nth; [|intros _; exact Hv].
  apply Forall_nth_default; [exact Hm | constructor].
Qed.

Lemma hasShape_setConstant (m : Matrix R) (rows cols : Z) (v : R) :
  hasShape m rows cols -> hasShape (setConstant m v) rows cols.
Proof.
  intros [Hlen Hrows]. unfold hasShape, setConstant. split.
  - rewrite length_map. exact Hlen.
  - apply Forall_map. eapply Forall_impl; [|exact Hrows].
    intros row Hr. cbv beta. rewrite length_map. exact Hr.
Qed.

Lemma unitMatrix_setConstant (m : Matrix R) (v : R) :
  unit01 v -> unitMatrix (setConstant m v).
Proof.
  intros Hv. unfold unitMatrix, setConstant.
  apply Forall_map. apply Forall_forall. intros row _.
  apply Forall_map. apply Forall_forall. intros x _. exact Hv.
Qed.

Lemma unit01_coeff (m : Matrix R) (row col : Z) :
  unitMatrix m -> unit01 (coeff m row col).
Proof.
  intros Hm. unfold coeff.
  apply Forall_nth_default; [|unfold unit01, fzero; simpl; lra].
  apply (Forall_nth_default (P := Forall unit01)); [exact Hm | constructor].
Qed.

Lemma coeff_Zero (rows cols row col : Z) : coeff (Zero (F := R) rows cols) row col = 0.
Proof.
  unfold coeff, Zero.
  assert (Hrow : nth (Z.to_nat row) (repeat (repeat (fzero (F := R)) (Z.to_nat cols))
                                            (Z.to_nat rows)) [] = [] \/
                 nth (Z.to_nat row) (repeat (repeat (fzero (F := R)) (Z.to_nat cols))
                                            (Z.to_nat rows)) []
                 = repeat fzero (Z.to_nat cols)).
  { destruct (nth_in_or_default (Z.to_nat row)
                (repeat (repeat (fzero (F := R)) (Z.to_nat cols)) (Z.to_nat rows)) [])
      as [Hin|Hd]; [right | left; exact Hd].
    apply repeat_spec in Hin. exact Hin. }
  destruct Hrow as [-> | ->].
  - destruct (Z.to_nat col); reflexivity.
  - destruct (nth_in_or_default (Z.to_nat col) (repeat (fzero (F := R)) (Z.to_nat cols)) fzero)
      as [Hin|Hd]; [apply repeat_spec in Hin; rewrite Hin | rewrite Hd]; reflexivity.
Qed.

Lemma coeff_setConstant (m : Matrix R) (rows cols row col : Z) (v : R) :
  hasShape m rows cols -> (0 <= row < rows)%Z -> (0 <= col < cols)%Z ->
  coeff (setConstant m v) row col = v.
Proof.
  intros [Hlen Hrows] Hr Hc. unfold coeff, setConstant.
  assert (Hrow : (Z.to_nat row < List.length m)%nat) by lia.
  rewrite (nth_indep _ [] (map (fun _ : R => v) [])) by (rewrite length_map; exact Hrow).
  rewrite (map_nth (map (fun _ : R => v)) m []).
  assert (Hcol : (Z.to_nat col < List.length (nth (Z.to_nat row) m []))%nat).
  { rewrite Forall_forall in Hrows. rewrite (Hrows (nth (Z.to_nat row) m [])).
    - lia.
    - apply nth_In. exact Hrow. }
  rewrite (nth_indep _ fzero ((fun _ : R => v) fzero)) by (rewrite length_map; exact Hcol).
  rewrite (map_nth (fun _ : R => v) (nth (Z.to_nat row) m []) fzero). reflexivity.
Qed.

Lemma wellFormed_new (w h : Z) : wellFormed (Image_new (F := R) w h).
Proof. unfold wellFormed, Image_new; simpl. split; [|split]; apply hasShape_Zero. Qed.

Lemma unitImage_new (w h : Z) : unitImage (Image_new w h).
Proof. unfold unitImage, Image_new; simpl. split; [|split]; apply unitMatrix_Zero. Qed.

Lemma wellFormed_setPixel (img : Image R) (x y : Z) (r g b : R) :
  wellFormed img -> wellFormed (setPixel img x y r g b).
Proof.
  intros (Hr & Hg & Hb). unfold setPixel. destruct (inRange img x y).
  - unfold wellFormed; simpl. split; [|split]; apply hasShape_setCoeff; assumption.
  - unfold wellFormed. split; [|split]; assumption.
Qed.

Lemma unitImage_setPixel (img : Image R) (x y : Z) (r g b : R) :
  unitImage img -> unitImage (setPixel img x y r g b).
Proof.
  intros (Hr & Hg & Hb). unfold setPixel. destruct (inRange img x y).
  - unfold unitImage; simpl.
    split; [|split]; apply unitMatrix_setCoeff; assumption || apply fclamp_unit.
  - unfold unitImage. split; [|split]; assumption.
Qed.

(** X9.  An image made with the constructor, [setPixel] and [fill] holds
    three matrices of [height] rows of [width] entries, and every entry
    is within [0, 1], in real arithmetic. *)
Theorem image_invariant (img : Image R) :
  built img -> wellFormed img /\ unitImage img.
Proof.
  induction 1 as [w h | img x y r g b Hb [(Hr & Hg & Hbl) (Ur & Ug & Ub)]
                      | img r g b Hb [(Hr & Hg & Hbl) (Ur & Ug & Ub)]].
  - split; [apply wellFormed_new | apply unitImage_new].
  - split.
    + apply wellFormed_setPixel. split; [|split]; assumption.
    + apply unitImage_setPixel. split; [|split]; assumption.
  - split.
    + unfold wellFormed, fill; simpl.
      split; [|split]; apply hasShape_setConstant; assumption.
    + unfold unitImage, fill; simpl.
      split; [|split]; apply unitMatrix_setConstant; apply fclamp_unit.
Qed.

(** The theorem at a 2 x 1 image filled with (2, 1/2, -1), then written
    at pixel (1, 0). *)
Lemma image_invariant_witness :
  wellFormed (setPixel (fill (Image_new 2 1) 2 (1 / 2) (-1)) 1 0 1 1 1) /\
  unitImage (setPixel (fill (Image_new 2 1) 2 (1 / 2) (-1)) 1 0 1 1 1).
Proof.
  apply (@image_invariant (setPixel (fill (Image_new 2 1) 2 (1 / 2) (-1)) 1 0 1 1 1)).
  apply built_setPixel. apply built_fill. apply built_new.
Defined.

(** X10.  A new image reads as (0, 0, 0) at every pixel inside it; after
    [fill] of a well-formed image every pixel inside reads as the clamped
    colour; and [setPixel] at one pixel leaves what [getPixel] reads at
    every other pixel. *)
Theorem image_fill_and_frame :
  (forall (w h x y : Z) (rgb : R * R * R),
      (0 <= x < w)%Z -> (0 <= y < h)%Z ->
      getPixel (Image_new w h) x y rgb = (0, 0, 0)) /\
  (forall (img : Image R) (r g b : R) (x y : Z) (rgb : R * R * R),
      wellFormed img -> (0 <= x < width img)%Z -> (0 <= y < height img)%Z ->
      getPixel (fill img r g b) x y rgb =
      (fclamp r fzero fone, fclamp g fzero fone, fclamp b fzero fone)) /\
  (forall (img : Image R) (x y x' y' : Z) (r g b : R) (rgb : R * R * R),
      (x', y') <> (x, y) ->
      getPixel (setPixel img x y r g b) x' y' rgb = getPixel img x' y' rgb).
Proof.
  split; [|split].
  - intros w h x y rgb Hx Hy. unfold getPixel.
    assert (Hin : inRange (Image_new (F := R) w h) x y = true).
    { apply ImageFacts.inRange_true. simpl. lia. }
    rewrite Hin. unfold Image_new; simpl. rewrite !coeff_Zero. reflexivity.
  - intros img r g b x y rgb (Hr & Hg & Hb) Hx Hy. unfold getPixel.
    assert (Hin : inRange (fill img r g b) x y = true).
    { apply ImageFacts.inRange_true. simpl. lia. }
    rewrite Hin. unfold fill; simpl.
    rewrite (coeff_setConstant _ Hr Hy Hx), (coeff_setConstant _ Hg Hy Hx),
            (coeff_setConstant _ Hb Hy Hx).
    reflexivity.
  - intros img x y x' y' r g b rgb Hne. unfold setPixel.
    destruct (inRange img x y) eqn:Hin; [|reflexivity].
    apply ImageFacts.inRange_true in Hin. destruct Hin as [Hx Hy].
    unfold getPixel.
    change (inRange (mkImage (width img) (height img)
                       (setCoeff (red img) y x (fclamp r fzero fone))
                       (setCoeff (green img) y x (fclamp g fzero fone))
                       (setCoeff (blue img) y x (fclamp b fzero fone))) x' y')
      with (inRange img x' y').
    destruct (inRange img x' y') eqn:Hin'; [|reflexivity].
    apply ImageFacts.inRange_true in Hin'. destruct Hin' as [Hx' Hy'].
    simpl.
    assert (Hne' : (y', x') <> (y, x)) by (intros E; apply Hne; inversion E; reflexivity).
    rewrite !(@ImageFacts.coeff_setCoeff_other R _ _ y x y' x') by (lia || exact Hne').
    reflexivity.
Qed.

(** The theorem at a 2 x 1 image. *)
Lemma image_fill_and_frame_witness :
  getPixel (Image_new (F := R) 2 1) 1 0 (7, 7, 7) = (0, 0, 0) /\
  getPixel (setPixel (Image_new 2 1) 0 0 1 1 1) 1 0 (7, 7, 7)
  = getPixel (Image_new (F := R) 2 1) 1 0 (7, 7, 7).
Proof.
  split.
  - apply (proj1 image_fill_and_frame 2%Z 1%Z 1%Z 0%Z (7, 7, 7)); lia.
  - apply (proj2 (proj2 image_fill_and_frame) (Image_new 2 1) 0%Z 0%Z 1%Z 0%Z).
    intros E. inversion E.
Defined.
End ImageInvariant.

(** ** Image.h: savePPM *)

Section SavePPMText.
Import ImageH Real RealFacts.
Local Open Scope R_scope.

Lemma sampleOf_range (v : R) : unit01 v -> sample255 (sampleOf v).
Proof.
  intros [H0 H1]. unfold sample255, sampleOf.
  apply PPMFacts.Int_part_range. simpl. lra.
Qed.

Lemma sample_unit (v : R) : unit01 v -> sample v = Some (sampleOf v).
Proof.
  intros Hv. pose proof (sampleOf_range Hv) as [Hlo Hhi]. destruct Hv as [H0 H1].
  unfold sample, to_int; simpl. unfold trunc.
  destruct (Rle_dec 0 (v * 255)) as [_|Hn]; [|exfalso; apply Hn; lra].
  fold (sampleOf v).
  match goal with |- (if ?c then _ else _) = _ => destruct c eqn:E end; [reflexivity|].
  exfalso. assert (Hp : Z.pow_pos 2 31 = 2147483648%Z) by reflexivity.
  apply andb_false_iff in E.
  destruct E as [E|E]; [apply Z.leb_gt in E | apply Z.ltb_ge in E; rewrite Hp in E]; lia.
Qed.

Lemma pixelSamples_unit (img : Image R) (y x : Z) :
  unitImage img -> pixelSamples img y x = Some (samplesAt img y x).
Proof.
  intros (Hr & Hg & Hb). unfold pixelSamples.
  rewrite (sample_unit (unit01_coeff y x Hr)), (sample_unit (unit01_coeff y x Hg)),
          (sample_unit (unit01_coeff y x Hb)).
  reflexivity.
Qed.

Lemma rowSamples_unit (img : Image R) (y : Z) (xs : list Z) :
  unitImage img -> rowSamples img y xs = Some (flat_map (samplesAt img y) xs).
Proof.
  intros Hu. induction xs as [|x rest IH]; cbn [rowSamples flat_map]; [reflexivity|].
  rewrite (pixelSamples_unit y x Hu), IH. reflexivity.
Qed.

Lemma imageSamples_unit (img : Image R) (ys : list Z) :
  unitImage img ->
  imageSamples img ys =
  Some (map (fun y => flat_map (samplesAt img y) (range (width img))) ys).
Proof.
  intros Hu. induction ys as [|y rest IH]; cbn [imageSamples map]; [reflexivity|].
  rewrite (rowSamples_unit y (range (width img)) Hu), IH. reflexivity.
Qed.

Lemma samplesAt_range (img : Image R) (y x : Z) :
  unitImage img -> Forall sample255 (samplesAt img y x).
Proof.
  intros (Hr & Hg & Hb). unfold samplesAt.
  repeat constructor; apply sampleOf_range; apply unit01_coeff; assumption.
Qed.

(** X11.  [savePPM] of an image whose entries are within [0, 1], in real
    arithmetic.  When the file cannot be opened it returns false, prints
    "Error: Could not open file " and the name on the error stream, and
    writes nothing.  When it can, it returns true and the file holds the
    header P3, width, height, 255 and then one line per row, top row
    first, with the red, green and blue samples of each pixel from left
    to right, each followed by a space; a sample is the entry times 255
    rounded down, and is between 0 and 255. *)
Theorem savePPM_text (img : Image R) (filename : string) :
  unitImage img ->
  savePPM false filename img =
  Some (false, ("Error: Could not open file " ++ filename ++ nl)%string, []) /\
  savePPM true filename img =
  Some (true, ""%string,
        [(filename,
          (p3Header (width img) (height img) ++
           String.concat ""
             (map (fun y => rowText (flat_map (samplesAt img y) (range (width img))))
                  (range (height img))))%string)]) /\
  (forall y x, Forall sample255 (samplesAt img y x)).
Proof.
  intros Hu. split; [reflexivity|]. split.
  - unfold savePPM. cbn [negb]. rewrite (imageSamples_unit (range (height img)) Hu).
    rewrite map_map. reflexivity.
  - intros y x. apply samplesAt_range. exact Hu.
Qed.

(** The theorem at a new 2 x 1 image. *)
Lemma savePPM_text_witness :
  savePPM true "a.ppm" (Image_new (F := R) 2 1) =
  Some (true, ""%string,
        [("a.ppm"%string,
          (p3Header 2 1 ++
           String.concat ""
             (map (fun y => rowText (flat_map (samplesAt (Image_new 2 1) y) (range 2)))
                  (range 1)))%string)]).
Proof.
  apply (proj1 (proj2 (@savePPM_text (Image_new 2 1) "a.ppm"%string (unitImage_new 2 1)))).
Defined.
End SavePPMText.

(** ** main.cpp: the ground plane *)

Section GroundFacts.
Import MainCpp Real RealFacts.
Local Open Scope R_scope.

Lemma Rabs_bound (a b : R) : Rabs a <= b -> - b <= a <= b.
Proof. unfold Rabs. destruct (Rcase_abs a); lra. Qed.

Lemma trunc_IZR (n : Z) : trunc (IZR n) = Some n.
Proof.
  unfold trunc. destruct (Rle_dec 0 (IZR n)) as [_|_].
  - rewrite PPMFacts.Int_part_IZR. reflexivity.
  - rewrite <- opp_IZR, PPMFacts.Int_part_IZR, Z.opp_involutive. reflexivity.
Qed.

Lemma to_int_IZR (n : Z) :
  (- 2147483648 <= n < 2147483648)%Z -> to_int (IZR n) = Some n.
Proof.
  intros Hn. unfold to_int. cbn [ftrunc arith]. rewrite trunc_IZR.
  replace ((- 2 ^ 31 <=? n)%Z && (n <? 2 ^ 31)%Z) with true; [reflexivity|].
  symmetry. apply andb_true_iff. split; [apply Z.leb_le | apply Z.ltb_lt];
    change (2 ^ 31)%Z with 2147483648%Z; lia.
Qed.

Lemma Int_part_succ (r : R) : Int_part (r + 1) = (Int_part r + 1)%Z.
Proof.
  symmetry. apply Int_part_spec. destruct (base_Int_part r) as [H1 H2].
  rewrite plus_IZR. simpl. lra.
Qed.

Lemma Int_part_bound (r : R) (n : Z) :
  Rabs r <= IZR n -> (- n <= Int_part r <= n)%Z.
Proof.
  intros Hr. apply Rabs_bound in Hr. apply PPMFacts.Int_part_range.
  rewrite opp_IZR. exact Hr.
Qed.

(** [n % 2 == 0] is the parity of [n], also for a negative [n]. *)
Lemma rem2_even (n : Z) : (Z.rem n 2 =? 0)%Z = Z.even n.
Proof.
  pose proof (Zmod_even n) as Hm. pose proof (Z.rem_mod_eq_0 n 2) as Hr.
  destruct (Z.even n).
  - apply Z.eqb_eq. apply Hr; [lia | exact Hm].
  - apply Z.eqb_neq. intros E. apply Hr in E; lia.
Qed.

(** The colour of the square with the index sum [n]. *)
Lemma getGroundColor_eq (p : Vec3 R) :
  Rabs (vx p) <= 2000000002 -> Rabs (vz p) <= 2000000002 ->
  getGroundColor p =
  Some (if Z.even (Int_part (vx p / 2) + Int_part (vz p / 2))
        then lightGray else darkGray).
Proof.
  intros Hx Hz. unfold getGroundColor. cbn [ffloor rounding fofZ arith fdiv].
  assert (Ha : (- 1000000001 <= Int_part (vx p / 2) <= 1000000001)%Z).
  { apply (@Int_part_bound (vx p / 2) 1000000001). apply Rabs_le.
    apply Rabs_bound in Hx. lra. }
  assert (Hb : (- 1000000001 <= Int_part (vz p / 2) <= 1000000001)%Z).
  { apply (@Int_part_bound (vz p / 2) 1000000001). apply Rabs_le.
    apply Rabs_bound in Hz. lra. }
  rewrite !to_int_IZR by lia.
  replace ((- 2 ^ 31 <=? Int_part (vx p / 2) + Int_part (vz p / 2))%Z &&
           (Int_part (vx p / 2) + Int_part (vz p / 2) <? 2 ^ 31)%Z) with true.
  - cbn [negb]. rewrite rem2_even. destruct (Z.even _); reflexivity.
  - symmetry. apply andb_true_iff. split; [apply Z.leb_le | apply Z.ltb_lt];
      change (2 ^ 31)%Z with 2147483648%Z; lia.
Qed.

Lemma gray_differ : lightGray (F := R) <> darkGray.
Proof.
  intros E. apply (f_equal (@vx R)) in E. unfold lightGray, darkGray, flit in E.
  simpl in E. lra.
Qed.

(** X12.  [getGroundColor] in real arithmetic, at a point whose x and z
    are within 2000000000 of zero: it returns light gray or dark gray; the
    colour does not depend on y; a step of 2 along x or along z gives the
    other colour, and a step of 2 along both gives the same colour.  So
    the ground is a checkerboard of squares of side 2, also across the
    axes. *)
Theorem getGroundColor_checkerboard (x y z : R) :
  Rabs x <= 2000000000 -> Rabs z <= 2000000000 ->
  exists c c' : Vec3 R,
    (c = lightGray /\ c' = darkGray \/ c = darkGray /\ c' = lightGray) /\
    (forall y', getGroundColor (mkVec3 x y' z) = Some c) /\
    getGroundColor (mkVec3 (x + 2) y z) = Some c' /\
    getGroundColor (mkVec3 x y (z + 2)) = Some c' /\
    getGroundColor (mkVec3 (x + 2) y (z + 2)) = Some c.
Proof.
  intros Hx Hz. apply Rabs_bound in Hx. apply Rabs_bound in Hz.
  assert (Hx0 : Rabs x <= 2000000002) by (apply Rabs_le; lra).
  assert (Hz0 : Rabs z <= 2000000002) by (apply Rabs_le; lra).
  assert (Hx2 : Rabs (x + 2) <= 2000000002) by (apply Rabs_le; lra).
  assert (Hz2 : Rabs (z + 2) <= 2000000002) by (apply Rabs_le; lra).
  assert (Ex : Int_part ((x + 2) / 2) = (Int_part (x / 2) + 1)%Z).
  { replace ((x + 2) / 2) with (x / 2 + 1) by field. apply Int_part_succ. }
  assert (Ez : Int_part ((z + 2) / 2) = (Int_part (z / 2) + 1)%Z).
  { replace ((z + 2) / 2) with (z / 2 + 1) by field. apply Int_part_succ. }
  set (n := (Int_part (x / 2) + Int_part (z / 2))%Z).
  exists (if Z.even n then lightGray else darkGray),
         (if Z.even n then darkGray else lightGray).
  split; [|split; [|split; [|split]]].
  - destruct (Z.even n); [left | right]; split; reflexivity.
  - intros y'. rewrite getGroundColor_eq by assumption. reflexivity.
  - rewrite getGroundColor_eq by assumption. cbn [vx vy vz]. rewrite Ex.
    replace (Int_part (x / 2) + 1 + Int_part (z / 2))%Z with (Z.succ n) by (unfold n; lia).
    rewrite Z.even_succ, <- Z.negb_even. destruct (Z.even n); reflexivity.
  - rewrite getGroundColor_eq by assumption. cbn [vx vy vz]. rewrite Ez.
    replace (Int_part (x / 2) + (Int_part (z / 2) + 1))%Z with (Z.succ n) by (unfold n; lia).
    rewrite Z.even_succ, <- Z.negb_even. destruct (Z.even n); reflexivity.
  - rewrite getGroundColor_eq by assumption. cbn [vx vy vz]. rewrite Ex, Ez.
    replace (Int_part (x / 2) + 1 + (Int_part (z / 2) + 1))%Z with (n + 2)%Z
      by (unfold n; lia).
    rewrite Z.even_add. change (Z.even 2) with true.
    destruct (Z.even n); reflexivity.
Qed.

(** The theorem at the point (-1, 0, 3). *)
Lemma getGroundColor_checkerboard_witness :
  exists c c' : Vec3 R,
    (c = lightGray /\ c' = darkGray \/ c = darkGray /\ c' = lightGray) /\
    (forall y', getGroundColor (mkVec3 (-1) y' 3) = Some c) /\
    getGroundColor (mkVec3 (-1 + 2) 0 3) = Some c' /\
    getGroundColor (mkVec3 (-1) 0 (3 + 2)) = Some c' /\
    getGroundColor (mkVec3 (-1 + 2) 0 (3 + 2)) = Some c.
Proof.
  apply (@getGroundColor_checkerboard (-1) 0 3).
  - apply Rabs_le; lra.
  - apply Rabs_le; lra.
Defined.

Lemma intersectGround_true (o d : Vec3 R) (t0 t : R) :
  intersectGround o d t0 = (true, t) ->
  0 < t /\ t = - vy o / vy d /\ 1 / 1000000 <= Rabs (vy d).
Proof.
  unfold intersectGround. cbn [fabs rounding flt arith fdiv fopp].
  unfold flit, fzero. cbn [fofZ arith fdiv].
  destruct (ltb (Rabs (vy d)) (1 / 1000000)) eqn:Hp; [discriminate|].
  apply ltb_false in Hp.
  destruct (ltb 0 (- vy o / vy d)) eqn:Ht; [|discriminate].
  apply ltb_true in Ht. intros E; inversion E; subst.
  split; [exact Ht|]. split; [reflexivity | lra].
Qed.

(** X13.  [intersectGround] in real arithmetic.  When it returns true,
    the parameter it stores is positive and the point of the ray at that
    parameter lies on the plane y = 0.  It returns true for every ray
    that starts above the plane and descends by at least 1e-6 per unit.
    A ray whose direction has |y| below 1e-6 is reported as a miss and the
    parameter is left as it was, also when the ray does meet the plane. *)
Theorem intersectGround_plane (o d : Vec3 R) (t0 : R) :
  (forall t, intersectGround o d t0 = (true, t) ->
             0 < t /\ vy (vadd o (smul t d)) = 0) /\
  (0 < vy o -> vy d <= - (1 / 1000000) ->
   intersectGround o d t0 = (true, - vy o / vy d)) /\
  (Rabs (vy d) < 1 / 1000000 -> intersectGround o d t0 = (false, t0)).
Proof.
  split; [|split].
  - intros t Hi. destruct (intersectGround_true _ _ _ Hi) as (Ht & Et & Hp).
    split; [exact Ht|].
    assert (Hd : vy d <> 0).
    { intros E0. rewrite E0, Rabs_R0 in Hp. lra. }
    subst t. unfold vadd, smul; simpl. field. exact Hd.
  - unfold intersectGround. cbn [fabs rounding flt arith fdiv fopp].
    unfold flit, fzero. cbn [fofZ arith fdiv].
    intros Ho Hd.
    assert (Hp : ltb (Rabs (vy d)) (1 / 1000000) = false).
    { apply ltb_false. rewrite Rabs_left by lra. lra. }
    rewrite Hp.
    assert (Ht : ltb 0 (- vy o / vy d) = true).
    { apply ltb_true. replace (- vy o / vy d) with (vy o / - vy d) by (field; lra).
      apply Rdiv_lt_0_compat; lra. }
    rewrite Ht. reflexivity.
  - unfold intersectGround. cbn [fabs rounding flt arith fdiv fopp].
    unfold flit, fzero. cbn [fofZ arith fdiv].
    intros Hp. apply ltb_true in Hp. rewrite Hp. reflexivity.
Qed.

(** The theorem at the ray from (0, 10, 20) straight down, and at a ray
    from there that descends by 1e-7 per unit. *)
Lemma intersectGround_plane_witness :
  intersectGround (mkVec3 0 10 20) (mkVec3 0 (-1) 0) 0 = (true, - 10 / -1) /\
  intersectGround (mkVec3 0 10 20) (mkVec3 1 (- (1 / 10000000)) 0) 7 = (false, 7).
Proof.
  split.
  - apply (proj1 (proj2 (@intersectGround_plane (mkVec3 0 10 20) (mkVec3 0 (-1) 0) 0)));
      simpl; lra.
  - apply (proj2 (proj2 (@intersectGround_plane (mkVec3 0 10 20)
                           (mkVec3 1 (- (1 / 10000000)) 0) 7))).
    simpl. rewrite Rabs_left; lra.
Defined.
End GroundFacts.

(** ** Lighting.h *)

Section LightingFacts.
Import LightingH Real RealFacts VectorFacts.
Local Open Scope R_scope.

Lemma dot_reflect (i n : Vec3 R) :
  dot n n = 1 -> dot (reflect i n) n = - dot i n.
Proof.
  destruct i as [a b c], n as [x y z]. unfold reflect, dot, vsub, smul; simpl.
  intros Hn.
  assert (E : forall k, (a - k * x) * x + (b - k * y) * y + (c - k * z) * z
                        = a * x + b * y + c * z - k * (x * x + y * y + z * z))
    by (intros k; ring).
  rewrite E, Hn. ring.
Qed.

(** X14.  [reflect] about a unit normal, in real arithmetic: the result
    is as long as the incident vector, its component along the normal is
    the opposite of the incident one, and reflecting twice gives the
    incident vector back. *)
Theorem reflect_unit_normal (incident normal : Vec3 R) :
  dot normal normal = 1 ->
  length (reflect incident normal) = length incident /\
  dot (reflect incident normal) normal = - dot incident normal /\
  reflect (reflect incident normal) normal = incident.
Proof.
  intros Hn. split; [|split].
  - rewrite !length_dot. f_equal.
    destruct incident as [a b c], normal as [x y z].
    unfold reflect, dot, vsub, smul in *; simpl in *.
    set (k := a * x + b * y + c * z).
    replace ((a - 2 * k * x) * (a - 2 * k * x) + (b - 2 * k * y) * (b - 2 * k * y)
             + (c - 2 * k * z) * (c - 2 * k * z))
      with (a * a + b * b + c * c - 4 * k * k + 4 * k * k * (x * x + y * y + z * z))
      by (unfold k; ring).
    rewrite Hn. ring.
  - apply dot_reflect. exact Hn.
  - pose proof (dot_reflect incident Hn) as Hd.
    unfold reflect at 1. rewrite Hd.
    destruct incident as [a b c], normal as [x y z].
    unfold reflect, dot, vsub, smul; simpl. f_equal; ring.
Qed.

(** The theorem at the vector (1, -1, 0) and the normal (0, 1, 0). *)
Lemma reflect_unit_normal_witness :
  reflect (reflect (mkVec3 1 (-1) 0) (mkVec3 0 1 0)) (mkVec3 0 1 0) = mkVec3 1 (-1) 0.
Proof.
  assert (Hn : dot (mkVec3 0 1 0) (mkVec3 0 1 0) = 1) by (unfold dot; simpl; ring).
  apply (proj2 (proj2 (@reflect_unit_normal (mkVec3 1 (-1) 0) (mkVec3 0 1 0) Hn))).
Defined.

Section AnyPower.
Context {P : Power R}.

Lemma clamp01_unit (v : Vec3 R) : unitColor (clamp01 v).
Proof.
  unfold unitColor, unit01, clamp01, fmin, fmax, fzero, fone; simpl. unfold ltb.
  repeat split;
    repeat match goal with |- context [Rlt_dec ?a ?b] => destruct (Rlt_dec a b) end;
    lra.
Qed.

Lemma phong_unit (l : Lighting R) (point normal viewDir baseColor : Vec3 R) :
  unitColor (calculatePhongLighting l point normal viewDir baseColor).
Proof. unfold calculatePhongLighting. apply clamp01_unit. Qed.

(** X15.  [calculatePhongLighting] in real arithmetic, whatever
    [std::pow] returns: every channel of the result is within [0, 1];
    and with no light the result is black, whatever the ambient
    coefficient and the base colour, so also right after [clearLights]
    and for a lighting just constructed. *)
Theorem phong_range_and_dark (l : Lighting R) (point normal viewDir baseColor : Vec3 R) :
  unitColor (calculatePhongLighting l point normal viewDir baseColor) /\
  calculatePhongLighting (clearLights l) point normal viewDir baseColor = zero3 /\
  calculatePhongLighting Lighting_new point normal viewDir baseColor = zero3.
Proof.
  split; [apply phong_unit|].
  assert (Hz : clamp01 (mkVec3 (fzero (F := R)) fzero fzero) = zero3).
  { unfold clamp01, fmin, fmax, fzero, fone, zero3; simpl. unfold ltb.
    destruct (Rlt_dec 0 0) as [H0|_]; [lra|].
    destruct (Rlt_dec 1 0) as [H1|_]; [lra|]. reflexivity. }
  split; unfold calculatePhongLighting; simpl; exact Hz.
Qed.
End AnyPower.
End LightingFacts.

(** ** main.cpp: the whole program *)

Section MainCppFacts.
Import ImageH MainCpp Real RealFacts VectorFacts.
Local Open Scope R_scope.
Context {P : Power R}.

(** What Eigen's [normalized()] returns is never longer than 1. *)
Lemma normalized_dot_le1 (w : Vec3 R) :
  dot (CameraH.normalized w) (CameraH.normalized w) <= 1.
Proof.
  destruct (Rlt_dec 0 (dot w w)) as [Hpos|Hn].
  - rewrite (@normalized_normalize w Hpos), (@normalize_unit w Hpos). lra.
  - pose proof (dot_self_nonneg w) as H0.
    assert (E : dot w w = 0) by lra.
    rewrite (@normalized_zero w E), E. lra.
Qed.

Lemma component_le1 (d : Vec3 R) :
  dot d d <= 1 -> -1 <= vx d <= 1 /\ -1 <= vy d <= 1 /\ -1 <= vz d <= 1.
Proof. destruct d as [x y z]. unfold dot; simpl. intros H. repeat split; nra. Qed.

(** The colour [main] gives to [setPixel] exists and is within [0, 1]. *)
Lemma shade_unit (xy : Z * Z) :
  exists r g b, shade xy = Some (r, g, b) /\ unit01 r /\ unit01 g /\ unit01 b.
Proof.
  destruct xy as [x y]. unfold shade.
  set (u := (fofZ x / fofZ width)%ar).
  set (v := (fone - fofZ y / fofZ height)%ar).
  assert (Hd : dot (CameraH.generateRay camera u v) (CameraH.generateRay camera u v) <= 1)
    by (unfold CameraH.generateRay; apply normalized_dot_le1).
  set (d := CameraH.generateRay camera u v) in *.
  change (CameraH.position camera) with (mkVec3 (IZR 0) (IZR 10) (IZR 20)).
  destruct (intersectGround (mkVec3 (IZR 0) (IZR 10) (IZR 20)) d fzero) as [[|] t] eqn:Hi.
  - destruct (@intersectGround_true _ _ _ _ Hi) as (Ht & Et & Hp).
    cbn [vy] in Et, Hp.
    destruct (component_le1 Hd) as (Hx & Hy & Hz).
    assert (Hneg : vy d <= - (1 / 1000000)).
    { destruct (Rle_dec 0 (vy d)) as [Hge|Hlt].
      - exfalso. rewrite Rabs_right in Hp by lra.
        assert (Hpos : 0 < vy d) by lra.
        assert (Hq : 0 < 10 / vy d) by (apply Rdiv_lt_0_compat; lra).
        replace (- 10 / vy d) with (- (10 / vy d)) in Et by (field; lra). lra.
      - rewrite Rabs_left in Hp by lra. lra. }
    assert (Htmax : t <= 10000000).
    { assert (E : t * - vy d = 10) by (subst t; field; lra). nra. }
    set (hit := vadd (mkVec3 (IZR 0) (IZR 10) (IZR 20)) (smul t d)).
    assert (Hhx : Rabs (vx hit) <= 2000000002).
    { unfold hit, vadd, smul; simpl. apply Rabs_le. split; nra. }
    assert (Hhz : Rabs (vz hit) <= 2000000002).
    { unfold hit, vadd, smul; simpl. apply Rabs_le. split; nra. }
    rewrite (@getGroundColor_eq hit Hhx Hhz).
    eexists _, _, _. split; [reflexivity|].
    apply (@phong_unit P).
  - exists 0, 0, 0. unfold unit01. repeat split; simpl; lra.
Qed.

Lemma dims_setPixel (img : Image R) (x y : Z) (r g b : R) :
  ImageH.width (setPixel img x y r g b) = ImageH.width img /\
  ImageH.height (setPixel img x y r g b) = ImageH.height img.
Proof. unfold setPixel. destruct (inRange img x y); split; reflexivity. Qed.

Lemma pixelAt_setPixel_same (img : Image R) (x y : Z) (r g b : R) :
  wellFormed img -> inRange img x y = true ->
  unit01 r -> unit01 g -> unit01 b ->
  pixelAt (setPixel img x y r g b) x y = (r, g, b).
Proof.
  intros (Hr & Hg & Hb) Hin Ur Ug Ub. unfold pixelAt, setPixel. rewrite Hin. simpl.
  apply ImageFacts.inRange_true in Hin. destruct Hin as [Hx Hy].
  rewrite (ImageFacts.coeff_setCoeff _ Hr Hy Hx), (ImageFacts.coeff_setCoeff _ Hg Hy Hx),
          (ImageFacts.coeff_setCoeff _ Hb Hy Hx).
  rewrite !fclamp_id by assumption. reflexivity.
Qed.

Lemma pixelAt_setPixel_other (img : Image R) (x0 y0 x y : Z) (r g b : R) :
  (0 <= x)%Z -> (0 <= y)%Z -> (x, y) <> (x0, y0) ->
  pixelAt (setPixel img x0 y0 r g b) x y = pixelAt img x y.
Proof.
  intros Hx Hy Hne. unfold setPixel.
  destruct (inRange img x0 y0) eqn:Hin; [|reflexivity].
  apply ImageFacts.inRange_true in Hin. destruct Hin as [Hx0 Hy0].
  unfold pixelAt; simpl.
  assert (Hne' : (y, x) <> (y0, x0)) by (intros E; apply Hne; inversion E; reflexivity).
  rewrite !(@ImageFacts.coeff_setCoeff_other R _ _ y0 x0 y x) by (lia || exact Hne').
  reflexivity.
Qed.

Lemma coord_eq_dec (a b : Z * Z) : {a = b} + {a <> b}.
Proof. decide equality; apply Z.eq_dec. Qed.

(** The pixel loop returns; it keeps the shape and the range of the
    image, stores at every pixel of the list the colour [shade] gives it,
    and leaves the other pixels. *)
Lemma renderInto_spec (coords : list (Z * Z)) :
  forall img : Image R,
  wellFormed img -> unitImage img ->
  exists img',
    renderInto img coords = Some img' /\
    wellFormed img' /\ unitImage img' /\
    ImageH.width img' = ImageH.width img /\ ImageH.height img' = ImageH.height img /\
    (forall x y, In (x, y) coords -> inRange img x y = true ->
                 exists r g b, shade (x, y) = Some (r, g, b) /\
                               pixelAt img' x y = (r, g, b)) /\
    (forall x y, (0 <= x)%Z -> (0 <= y)%Z -> ~ In (x, y) coords ->
                 pixelAt img' x y = pixelAt img x y).
Proof.
  induction coords as [|[x0 y0] rest IH]; intros img Hwf Hu.
  - exists img. cbn [renderInto].
    split; [reflexivity|]. split; [exact Hwf|]. split; [exact Hu|].
    split; [reflexivity|]. split; [reflexivity|]. split.
    + intros x y [].
    + reflexivity.
  - destruct (shade_unit (x0, y0)) as (r & g & b & Hs & Ur & Ug & Ub).
    destruct (dims_setPixel img x0 y0 r g b) as [Hw Hh].
    destruct (IH (setPixel img x0 y0 r g b)
                 (wellFormed_setPixel x0 y0 r g b Hwf)
                 (unitImage_setPixel x0 y0 r g b Hu))
      as (img' & Hr & Hwf' & Hu' & Hw' & Hh' & Hin' & Hout').
    exists img'. cbn [renderInto]. rewrite Hs.
    split; [exact Hr|]. split; [exact Hwf'|]. split; [exact Hu'|].
    split; [congruence|]. split; [congruence|]. split.
    + intros x y Hin Hrange.
      destruct (in_dec coord_eq_dec (x, y) rest) as [Hrest|Hrest].
      * apply Hin'; [exact Hrest|].
        unfold inRange in *. rewrite Hw, Hh. exact Hrange.
      * destruct Hin as [E|Hin]; [|contradiction]. inversion E; subst x0 y0.
        exists r, g, b. split; [exact Hs|].
        pose proof (proj1 (ImageFacts.inRange_true img x y) Hrange) as [Hx Hy].
        rewrite (Hout' x y) by (lia || exact Hrest).
        apply pixelAt_setPixel_same; assumption.
    + intros x y Hx Hy Hnin.
      rewrite (Hout' x y Hx Hy) by (intros Hin; apply Hnin; right; exact Hin).
      apply pixelAt_setPixel_other; try assumption.
      intros E. apply Hnin. left. symmetry. exact E.
Qed.

Lemma In_pixelCoords (w h x y : Z) :
  (0 <= x < w)%Z -> (0 <= y < h)%Z -> In (x, y) (pixelCoords w h).
Proof.
  intros Hx Hy. rewrite <- (pixelCoords_row_major Hx Hy).
  apply nth_In. rewrite length_pixelCoords. nia.
Qed.

(** X16.  The program of main.cpp, in real arithmetic and whatever
    [std::pow] returns, always ends.  When the output file cannot be
    opened it prints "Error: Could not open file lighted_scene.ppm" and
    "Failed to save image" on the error stream, writes nothing and exits
    with status 1.  When it can, it prints "Image saved successfully as
    lighted_scene.ppm", exits with status 0 and writes a text PPM of 800
    by 600 in which pixel (x, y) holds the samples of the colour shaded
    for the ray through (x / 800, 1 - y / 600), every channel of which is
    within [0, 1]. *)
Theorem main_cpp_outcome :
  main false =
  Some (mkOutcome 1 ""
          ("Error: Could not open file lighted_scene.ppm" ++ nl ++
           "Failed to save image" ++ nl)%string []) /\
  exists image : Image R,
    main true =
    Some (mkOutcome 0 ("Image saved successfully as lighted_scene.ppm" ++ nl)%string ""
            [("lighted_scene.ppm"%string,
              (p3Header 800 600 ++
               String.concat ""
                 (map (fun y => rowText (flat_map (samplesAt image y) (range 800)))
                      (range 600)))%string)]) /\
    (forall x y, (0 <= x < 800)%Z -> (0 <= y < 600)%Z ->
       exists r g b,
         shade (x, y) = Some (r, g, b) /\ unit01 r /\ unit01 g /\ unit01 b /\
         samplesAt image y x = [sampleOf r; sampleOf g; sampleOf b]).
Proof.
  destruct (@renderInto_spec (pixelCoords width height) (Image_new width height)
              (wellFormed_new width height) (unitImage_new width height))
    as (image & Hr & Hwf & Hu & Hw & Hh & Hin & _).
  assert (Hw' : ImageH.width image = 800%Z) by exact Hw.
  assert (Hh' : ImageH.height image = 600%Z) by exact Hh.
  split.
  - unfold main. rewrite Hr. reflexivity.
  - exists image. split.
    + unfold main. rewrite Hr. unfold savePPM. cbn [negb].
      rewrite (imageSamples_unit (range (ImageH.height image)) Hu).
      rewrite Hw', Hh', map_map. reflexivity.
    + intros x y Hx Hy.
      destruct (Hin x y) as (r & g & b & Hs & Hp).
      * apply In_pixelCoords; assumption.
      * apply ImageFacts.inRange_true. simpl. unfold width, height. lia.
      * destruct (shade_unit (x, y)) as (r' & g' & b' & Hs' & Ur & Ug & Ub).
        rewrite Hs in Hs'. inversion Hs'; subst r' g' b'.
        exists r, g, b. split; [exact Hs|]. split; [exact Ur|].
        split; [exact Ug|]. split; [exact Ub|].
        unfold pixelAt in Hp. inversion Hp as [[E1 E2 E3]].
        unfold samplesAt. reflexivity.
Qed.
End MainCppFacts.

(** ** analyze_vdb.cpp: the heat map *)

Section HeatMap.
Import Real RealFacts.
Local Open Scope R_scope.

Lemma Int_part_eq (x : R) (z : Z) : x = IZR z -> Int_part x = z.
Proof. intros ->. apply PPMFacts.Int_part_IZR. Qed.

Lemma to_uchar_byte (x : R) :
  0 <= x <= 255 -> to_uchar x = Some (Int_part x) /\ (0 <= Int_part x <= 255)%Z.
Proof.
  intros [H0 H1].
  assert (Hr : (0 <= Int_part x <= 255)%Z) by (apply PPMFacts.Int_part_range; simpl; lra).
  split; [|exact Hr].
  unfold to_uchar; simpl. unfold trunc.
  destruct (Rle_dec 0 x) as [_|Hn]; [|contradiction].
  replace ((0 <=? Int_part x)%Z && (Int_part x <=? 255)%Z) with true; [reflexivity|].
  symmetry. apply andb_true_iff. split; apply Z.leb_le; lia.
Qed.

(** The normalized value, clamped. *)
Lemma clamped_unit (q : R) :
  0 <= fmax fzero (fmin fone q) <= 1 /\
  (q <= 0 -> fmax fzero (fmin fone q) = 0) /\
  (1 <= q -> fmax fzero (fmin fone q) = 1) /\
  (0 <= q <= 1 -> fmax fzero (fmin fone q) = q).
Proof.
  unfold fmax, fmin, fzero, fone; simpl. unfold ltb.
  destruct (Rlt_dec q 1); destruct (Rlt_dec 0 q); destruct (Rlt_dec 0 1);
    repeat split; intros; lra.
Qed.

Ltac heat_case :=
  first [ exfalso; lra
        | f_equal; apply Int_part_eq; simpl; lra ].

(** With minVal below maxVal no conversion is undefined, and the three
    channels are bytes. *)
Lemma valueToColor_total (value minVal maxVal : R) :
  minVal < maxVal ->
  exists c : Color, valueToColor value minVal maxVal = Some c /\ byteColor c.
Proof.
  intros Hlt. unfold valueToColor. cbv zeta. cbn [fsub fdiv arith].
  set (q := (value - minVal) / (maxVal - minVal)).
  destruct (clamped_unit q) as (Hn & _).
  set (n := fmax fzero (fmin fone q)) in *.
  unfold flit. cbn [fofZ fsub fmul fdiv flt arith]. unfold byteColor.
  destruct (ltb n (1 / 4)) eqn:E1; [apply ltb_true in E1 | apply ltb_false in E1].
  { destruct (@to_uchar_byte (n * 4 * 255)) as [-> Hb]; [lra|].
    eexists; split; [reflexivity|]. cbn [c_r c_g c_b]. lia. }
  destruct (ltb n (1 / 2)) eqn:E2; [apply ltb_true in E2 | apply ltb_false in E2].
  { destruct (@to_uchar_byte ((1 / 2 - n) * 4 * 255)) as [-> Hb]; [lra|].
    destruct (@to_uchar_byte ((n - 1 / 4) * 4 * 255)) as [-> Hg]; [lra|].
    eexists; split; [reflexivity|]. cbn [c_r c_g c_b]. lia. }
  destruct (ltb n (3 / 4)) eqn:E3; [apply ltb_true in E3 | apply ltb_false in E3].
  { destruct (@to_uchar_byte ((3 / 4 - n) * 4 * 255)) as [-> Hg]; [lra|].
    destruct (@to_uchar_byte ((n - 1 / 2) * 4 * 255)) as [-> Hr]; [lra|].
    eexists; split; [reflexivity|]. cbn [c_r c_g c_b]. lia. }
  destruct (@to_uchar_byte ((n - 3 / 4) * 4 * 255)) as [-> Hgb]; [lra|].
  eexists; split; [reflexivity|]. cbn [c_r c_g c_b]. lia.
Qed.

(** X17.  [valueToColor] in real arithmetic with minVal below maxVal: it
    returns a colour (no conversion to [unsigned char] is undefined) with
    every channel from 0 to 255; a value at or below minVal is black and
    one at or above maxVal is white; and the values a quarter, a half and
    three quarters of the way from minVal to maxVal are pure blue, pure
    green and pure red. *)
Theorem valueToColor_heat_map (value minVal maxVal : R) :
  minVal < maxVal ->
  exists c : Color,
    valueToColor value minVal maxVal = Some c /\
    ((0 <= c_r c <= 255)%Z /\ (0 <= c_g c <= 255)%Z /\ (0 <= c_b c <= 255)%Z) /\
    (value <= minVal -> c = mkColor 0 0 0) /\
    (maxVal <= value -> c = mkColor 255 255 255) /\
    (value = minVal + (maxVal - minVal) / 4 -> c = mkColor 0 0 255) /\
    (value = minVal + (maxVal - minVal) / 2 -> c = mkColor 0 255 0) /\
    (value = minVal + 3 * (maxVal - minVal) / 4 -> c = mkColor 255 0 0).
Proof.
  intros Hlt. unfold valueToColor. cbv zeta.
  cbn [fsub fdiv arith].
  set (q := (value - minVal) / (maxVal - minVal)).
  destruct (clamped_unit q) as (Hn & Hlow & Hhigh & Hmid).
  assert (Hd : 0 < maxVal - minVal) by lra.
  assert (H0 : value <= minVal -> fmax fzero (fmin fone q) = 0).
  { intros Hv. apply Hlow. unfold q.
    assert (Hq : 0 <= (minVal - value) / (maxVal - minVal))
      by (apply Rmult_le_pos; [lra | apply Rlt_le, Rinv_0_lt_compat; exact Hd]).
    replace ((value - minVal) / (maxVal - minVal))
      with (- ((minVal - value) / (maxVal - minVal))) by (field; lra).
    lra. }
  assert (H1 : maxVal <= value -> fmax fzero (fmin fone q) = 1).
  { intros Hv. apply Hhigh. unfold q.
    assert (Hq : 0 <= (value - maxVal) / (maxVal - minVal))
      by (apply Rmult_le_pos; [lra | apply Rlt_le, Rinv_0_lt_compat; exact Hd]).
    replace ((value - minVal) / (maxVal - minVal))
      with (1 + (value - maxVal) / (maxVal - minVal)) by (field; lra).
    lra. }
  assert (H14 : value = minVal + (maxVal - minVal) / 4 -> fmax fzero (fmin fone q) = 1 / 4).
  { intros Hv. assert (Eq : q = 1 / 4) by (unfold q; rewrite Hv; field; lra).
    rewrite Hmid; lra. }
  assert (H12 : value = minVal + (maxVal - minVal) / 2 -> fmax fzero (fmin fone q) = 1 / 2).
  { intros Hv. assert (Eq : q = 1 / 2) by (unfold q; rewrite Hv; field; lra).
    rewrite Hmid; lra. }
  assert (H34 : value = minVal + 3 * (maxVal - minVal) / 4 ->
                fmax fzero (fmin fone q) = 3 / 4).
  { intros Hv. assert (Eq : q = 3 / 4) by (unfold q; rewrite Hv; field; lra).
    rewrite Hmid; lra. }
  clear Hlow Hhigh Hmid.
  set (n := fmax fzero (fmin fone q)) in *.
  unfold flit. cbn [fofZ fsub fmul fdiv flt arith].
  destruct (ltb n (1 / 4)) eqn:E1; [apply ltb_true in E1 | apply ltb_false in E1].
  { destruct (@to_uchar_byte (n * 4 * 255)) as [-> Hb]; [lra|].
    eexists. split; [reflexivity|]. cbn [c_r c_g c_b].
    split; [repeat split; lia || apply Hb|].
    repeat split; intros Hv;
      [apply H0 in Hv | apply H1 in Hv | apply H14 in Hv | apply H12 in Hv | apply H34 in Hv];
      heat_case. }
  destruct (ltb n (1 / 2)) eqn:E2; [apply ltb_true in E2 | apply ltb_false in E2].
  { destruct (@to_uchar_byte ((1 / 2 - n) * 4 * 255)) as [-> Hb]; [lra|].
    destruct (@to_uchar_byte ((n - 1 / 4) * 4 * 255)) as [-> Hg]; [lra|].
    eexists. split; [reflexivity|]. cbn [c_r c_g c_b].
    split; [repeat split; lia || apply Hb || apply Hg|].
    repeat split; intros Hv;
      [apply H0 in Hv | apply H1 in Hv | apply H14 in Hv | apply H12 in Hv | apply H34 in Hv];
      heat_case. }
  destruct (ltb n (3 / 4)) eqn:E3; [apply ltb_true in E3 | apply ltb_false in E3].
  { destruct (@to_uchar_byte ((3 / 4 - n) * 4 * 255)) as [-> Hg]; [lra|].
    destruct (@to_uchar_byte ((n - 1 / 2) * 4 * 255)) as [-> Hr]; [lra|].
    eexists. split; [reflexivity|]. cbn [c_r c_g c_b].
    split; [repeat split; lia || apply Hg || apply Hr|].
    repeat split; intros Hv;
      [apply H0 in Hv | apply H1 in Hv | apply H14 in Hv | apply H12 in Hv | apply H34 in Hv];
      heat_case. }
  destruct (@to_uchar_byte ((n - 3 / 4) * 4 * 255)) as [-> Hgb]; [lra|].
  eexists. split; [reflexivity|]. cbn [c_r c_g c_b].
  split; [repeat split; lia || apply Hgb|].
  repeat split; intros Hv;
    [apply H0 in Hv | apply H1 in Hv | apply H14 in Hv | apply H12 in Hv | apply H34 in Hv];
    heat_case.
Qed.

(** The theorem at the value 3 between 0 and 4. *)
Lemma valueToColor_heat_map_witness :
  exists c : Color,
    valueToColor 3 0 4 = Some c /\
    ((0 <= c_r c <= 255)%Z /\ (0 <= c_g c <= 255)%Z /\ (0 <= c_b c <= 255)%Z) /\
    (3 <= 0 -> c = mkColor 0 0 0) /\
    (4 <= 3 -> c = mkColor 255 255 255) /\
    (3 = 0 + (4 - 0) / 4 -> c = mkColor 0 0 255) /\
    (3 = 0 + (4 - 0) / 2 -> c = mkColor 0 255 0) /\
    (3 = 0 + 3 * (4 - 0) / 4 -> c = mkColor 255 0 0).
Proof. apply (@valueToColor_heat_map 3 0 4). lra. Defined.
End HeatMap.

(** ** analyze_vdb.cpp: the slice through the middle of the box *)

Section SliceFacts.
Import Real RealFacts.
Local Open Scope R_scope.

Lemma mapM_total {A B : Type} (f : A -> option B) (P : B -> Prop) (l : list A) :
  (forall a, exists b, f a = Some b /\ P b) ->
  exists bs, mapM f l = Some bs /\ Forall P bs.
Proof.
  intros Hf. induction l as [|a rest (bs & IH & HP)]; simpl.
  - exists []. split; [reflexivity | constructor].
  - destruct (Hf a) as (b & Hb & HPb). rewrite Hb, IH. exists (b :: bs).
    split; [reflexivity | constructor; assumption].
Qed.

(** X18.  [visualizeGridSlice] in real arithmetic, with minVal below
    maxVal and a box of [int] coordinates that is not empty and small
    enough for its [int] operations to be defined: it prints "Saved visualization to " and the
    file name, which is the name followed by "_slice.ppm"; when the file
    cannot be opened nothing is written; when it can, its bytes are those
    of "P6", a newline, the decimal digits of the width and of the height
    of the box in x and y, "255" and a newline, and then the three bytes
    of every pixel; pixel (x, y), at index y * width + x, is the
    [valueToColor] of the grid value at (x + min.x, y + min.y, midZ),
    with midZ the sum of the two z bounds halved toward zero. *)
Theorem visualizeGridSlice_file (value : Z * Z * Z -> R) (name : string)
  (lox loy loz hix hiy hiz : Z) (minVal maxVal : R) :
  minVal < maxVal -> sliceable (lox, loy, loz) (hix, hiy, hiz) ->
  let width := (hix - lox + 1)%Z in
  let height := (hiy - loy + 1)%Z in
  exists (pixels : list Color) (file : string),
    visualizeGridSlice true value name (lox, loy, loz) (hix, hiy, hiz) minVal maxVal =
    Some (("Saved visualization to " ++ (name ++ "_slice.ppm") ++ nl)%string,
          [((name ++ "_slice.ppm")%string, file)]) /\
    visualizeGridSlice false value name (lox, loy, loz) (hix, hiy, hiz) minVal maxVal =
    Some (("Saved visualization to " ++ (name ++ "_slice.ppm") ++ nl)%string, []) /\
    codes file =
    ([80; 54; 10] ++ codes (dec width) ++ [32] ++ codes (dec height)
     ++ [10; 50; 53; 53; 10]
     ++ flat_map (fun color => [c_r color; c_g color; c_b color]) pixels)%Z /\
    readNumber (dec width) = Some width /\
    readNumber (dec height) = Some height /\
    Z.of_nat (List.length pixels) = (width * height)%Z /\
    Forall byteColor pixels /\
    (forall x y, (0 <= x < width)%Z -> (0 <= y < height)%Z ->
       valueToColor (value ((x + lox)%Z, (y + loy)%Z, Z.quot (loz + hiz) 2)) minVal maxVal
       = Some (nth (Z.to_nat (y * width + x)) pixels (mkColor 0 0 0))).
Proof.
  intros Hlt (_ & _ & _ & _ & _ & _ & Hx & Hy & Hz & Hdx & Hdy & Hdz & Hsum & Hprod)
         width height.
  set (f := fun '(x, y) =>
              valueToColor (value ((x + lox)%Z, (y + loy)%Z, Z.quot (loz + hiz) 2))
                           minVal maxVal).
  destruct (@mapM_total _ _ f byteColor (pixelCoords width height)) as (pixels & Hp & Hb).
  { intros [x y]. unfold f. apply valueToColor_total. exact Hlt. }
  assert (Hw : (0 <= width)%Z) by (unfold width; lia).
  assert (Hh : (0 <= height)%Z) by (unfold height; lia).
  assert (Hrun : forall opened,
             visualizeGridSlice opened value name (lox, loy, loz) (hix, hiy, hiz)
                                minVal maxVal =
             Some (("Saved visualization to " ++ (name ++ "_slice.ppm") ++ nl)%string,
                   if opened
                   then [((name ++ "_slice.ppm")%string,
                          saveSliceToPPM pixels width height)]
                   else [])).
  { intros opened. unfold visualizeGridSlice.
    rewrite (@int32_some (hix - lox)), (@int32_some (hiy - loy)),
            (@int32_some (hiz - loz)) by lia.
    rewrite (@int32_some (hix - lox + 1)), (@int32_some (hiy - loy + 1)),
            (@int32_some (hiz - loz + 1)) by lia.
    fold width height.
    rewrite (@int32_some (width * height)), (@int32_some (loz + hiz))
      by (unfold width, height in *; nia).
    replace (width * height <? 0)%Z with false
      by (symmetry; apply Z.ltb_ge; nia).
    rewrite (storeLoop_pixelCoords _ (mkColor 0 0 0) Hw Hh).
    fold f. rewrite Hp. reflexivity. }
  exists pixels, (saveSliceToPPM pixels width height).
  split; [apply (Hrun true)|]. split; [apply (Hrun false)|]. split.
  { unfold saveSliceToPPM.
    rewrite ByteFacts.codes_app, ByteFacts.codes_header, ByteFacts.codes_bytes
      by (apply ByteFacts.sliceBytes_bytes; exact Hb).
    unfold sliceBytes. rewrite <- !app_assoc. reflexivity. }
  split; [apply ByteFacts.readNumber_dec|]. split; [apply ByteFacts.readNumber_dec|].
  split.
  { rewrite (mapM_length _ _ Hp), length_pixelCoords. nia. }
  split; [exact Hb|].
  intros x y Hxr Hyr.
  pose proof (@mapM_nth _ _ f (pixelCoords width height) pixels (0, 0)%Z (mkColor 0 0 0)
                (Z.to_nat (y * width + x)) Hp) as Hn.
  rewrite (pixelCoords_row_major Hxr Hyr) in Hn. apply Hn.
  rewrite length_pixelCoords. nia.
Qed.

(** The theorem at a grid of value 1 on the box from (0, 0, 0) to
    (1, 1, 1), between 0 and 2: every pixel of the 2 x 2 slice is the
    colour of the value 1. *)
Lemma visualizeGridSlice_file_witness :
  exists (pixels : list Color) (file : string),
    visualizeGridSlice true (fun _ => 1) "density" (0, 0, 0)%Z (1, 1, 1)%Z 0 2 =
    Some (("Saved visualization to " ++ ("density" ++ "_slice.ppm") ++ nl)%string,
          [(("density" ++ "_slice.ppm")%string, file)]) /\
    Z.of_nat (List.length pixels) = 4%Z /\
    valueToColor 1 0 2 = Some (nth 3 pixels (mkColor 0 0 0)) /\
    codes file =
    ([80; 54; 10] ++ codes (dec 2) ++ [32] ++ codes (dec 2) ++ [10; 50; 53; 53; 10]
     ++ flat_map (fun color => [c_r color; c_g color; c_b color]) pixels)%Z.
Proof.
  assert (Hlt : 0 < 2) by lra.
  assert (Hbox : sliceable (0, 0, 0)%Z (1, 1, 1)%Z) by (unfold sliceable; lia).
  destruct (@visualizeGridSlice_file (fun _ => 1) "density"%string 0 0 0 1 1 1 0 2
              Hlt Hbox) as (pixels & file & Hrun & _ & Hcodes & _ & _ & Hlen & _ & Hpix).
  exists pixels, file. split; [exact Hrun|]. split; [exact Hlen|].
  split; [|exact Hcodes].
  apply (Hpix 1%Z 1%Z); lia.
Defined.
End SliceFacts.

(** ** The rays of the two cameras *)

Section CameraRayFacts.
Import Real RealFacts VectorFacts.
Local Open Scope R_scope.

(** forward + a right + b up, for a unit [forward] orthogonal to the two
    others, has the component 1 along [forward]. *)
Lemma combo_dot (f r u : Vec3 R) (a b : R) :
  dot f f = 1 -> dot f r = 0 -> dot f u = 0 ->
  dot (vadd (vadd f (vscale r a)) (vscale u b)) f = 1 /\
  1 <= dot (vadd (vadd f (vscale r a)) (vscale u b))
           (vadd (vadd f (vscale r a)) (vscale u b)).
Proof.
  intros Hff Hfr Hfu.
  set (w := vadd (vscale r a) (vscale u b)).
  assert (E1 : dot (vadd (vadd f (vscale r a)) (vscale u b)) f
               = dot f f + a * dot f r + b * dot f u).
  { destruct f, r, u; unfold dot, vadd, vscale; simpl. ring. }
  assert (E2 : dot (vadd (vadd f (vscale r a)) (vscale u b))
                   (vadd (vadd f (vscale r a)) (vscale u b))
               = dot f f + 2 * a * dot f r + 2 * b * dot f u + dot w w).
  { unfold w. destruct f, r, u; unfold dot, vadd, vscale; simpl. ring. }
  pose proof (dot_self_nonneg w) as Hw.
  rewrite E1, E2, Hff, Hfr, Hfu. split; lra.
Qed.

Lemma normalize_idem (v : Vec3 R) : dot v v = 1 -> normalize v = v.
Proof.
  intros Hv. unfold normalize. cbv zeta. rewrite (length_unit Hv).
  destruct v as [x y z]; simpl. f_equal; field.
Qed.

Lemma normalize_facing (d f : Vec3 R) :
  dot d f = 1 -> 1 <= dot d d ->
  dot (normalize d) (normalize d) = 1 /\ 0 < dot (normalize d) f.
Proof.
  intros Hdf Hdd. assert (Hpos : 0 < dot d d) by lra. split.
  - apply normalize_unit; exact Hpos.
  - rewrite normalize_vdivs, dot_vdivs_l, Hdf.
    apply Rdiv_lt_0_compat; [lra | apply length_pos; exact Hpos].
Qed.

Lemma combo_center (f r u : Vec3 R) : vadd (vadd f (vscale r 0)) (vscale u 0) = f.
Proof. destruct f, r, u; unfold vadd, vscale; simpl. f_equal; ring. Qed.

(** X20.  [generateRay] of a camera of Camera.h constructed away from the
    degenerate inputs, in real arithmetic: the direction is a unit vector
    that points to the side of [forward], and the direction through the
    middle of the viewport, u = v = 1/2, is [forward]. *)
Theorem generateRay_direction (pos target upDir : Vec3 R)
  (fieldOfView ratio near far u v : R) :
  target <> pos -> cross (vsub target pos) upDir <> zero3 ->
  let c := CameraH.Camera_new pos target upDir fieldOfView ratio near far in
  length (CameraH.generateRay c u v) = 1 /\
  0 < dot (CameraH.generateRay c u v) (CameraH.forward c) /\
  CameraH.generateRay c (1 / 2) (1 / 2) = CameraH.forward c.
Proof.
  intros Hd Hc c.
  assert (Hb : basisOrthonormal c).
  { unfold c, CameraH.Camera_new. apply updateVectors_orthonormal; assumption. }
  destruct Hb as [(Hlen & _ & _) (Hfr & Hfu & _)].
  assert (Hff : dot (CameraH.forward c) (CameraH.forward c) = 1).
  { rewrite <- length_sqr, Hlen. ring. }
  assert (Hgen : forall a b,
             exists px py,
               CameraH.generateRay c a b =
               normalize (vadd (vadd (CameraH.forward c) (vscale (CameraH.right c) px))
                               (vscale (CameraH.upVector c) py)) /\
               (a = 1 / 2 -> px = 0) /\ (b = 1 / 2 -> py = 0)).
  { intros a b. unfold CameraH.generateRay. cbv zeta.
    match goal with
    | |- exists px py, CameraH.normalized
           (vadd (vadd _ (vscale _ ?x)) (vscale _ ?y)) = _ /\ _ =>
        exists x, y
    end.
    split.
    - apply normalized_normalize.
      destruct (@combo_dot (CameraH.forward c) (CameraH.right c) (CameraH.upVector c)
                  ((a - flit 1 2) * (fofZ 2 * ftan (CameraH.fov c * fpi / fofZ 180 / fofZ 2)
                                     * CameraH.aspectRatio c))%ar
                  ((b - flit 1 2) * (fofZ 2 * ftan (CameraH.fov c * fpi / fofZ 180 / fofZ 2)))%ar
                  Hff Hfr Hfu) as [_ H2].
      lra.
    - split; intros ->; unfold flit; simpl; field. }
  destruct (Hgen u v) as (px & py & -> & _).
  destruct (@combo_dot (CameraH.forward c) (CameraH.right c) (CameraH.upVector c) px py
              Hff Hfr Hfu) as [H1 H2].
  destruct (normalize_facing H1 H2) as [Hu Hpos].
  split; [apply length_unit; exact Hu|]. split; [exact Hpos|].
  destruct (Hgen (1 / 2) (1 / 2)) as (qx & qy & -> & Hqx & Hqy).
  rewrite (Hqx eq_refl), (Hqy eq_refl), combo_center. apply normalize_idem. exact Hff.
Qed.

(** The theorem at the camera of main.cpp and the corner u = v = 0. *)
Lemma generateRay_direction_witness :
  length (CameraH.generateRay
            (CameraH.Camera_new (mkVec3 0 10 20) (mkVec3 0 0 0) (mkVec3 0 1 0)
                                60 (800 / 600) (1 / 10) 1000) 0 0) = 1.
Proof.
  assert (Hd : mkVec3 0 0 0 <> mkVec3 0 10 20 :> Vec3 R).
  { intros E. inversion E. lra. }
  assert (Hc : cross (vsub (mkVec3 0 0 0) (mkVec3 0 10 20)) (mkVec3 0 1 0) <> zero3).
  { unfold cross, vsub, zero3; simpl. intros E. inversion E. lra. }
  apply (proj1 (@generateRay_direction (mkVec3 0 10 20) (mkVec3 0 0 0) (mkVec3 0 1 0)
                  60 (800 / 600) (1 / 10) 1000 0 0 Hd Hc)).
Defined.
End CameraRayFacts.

(** ** Camera.h: the two matrices *)

Section MatrixFacts.
Import CameraH Real RealFacts VectorFacts.
Local Open Scope R_scope.

(** X21.  [getViewMatrix] of a camera of Camera.h constructed away from
    the degenerate inputs, in real arithmetic: as directions, [right]
    goes to the x axis, [upVector] to the y axis and [forward] to the
    opposite of the z axis; a point q goes to the three products of the
    basis with q, each less the matching coordinate of the position (the
    position is subtracted as it is, not rotated), and the fourth
    coordinate stays 1. *)
Theorem getViewMatrix_basis (pos target upDir : Vec3 R)
  (fieldOfView ratio near far : R) :
  target <> pos -> cross (vsub target pos) upDir <> zero3 ->
  let c := Camera_new pos target upDir fieldOfView ratio near far in
  apply4 (getViewMatrix c) (direction4 (right c)) = mkVec4 1 0 0 0 /\
  apply4 (getViewMatrix c) (direction4 (upVector c)) = mkVec4 0 1 0 0 /\
  apply4 (getViewMatrix c) (direction4 (forward c)) = mkVec4 0 0 (-1) 0 /\
  (forall q : Vec3 R,
      apply4 (getViewMatrix c) (point4 q) =
      mkVec4 (dot (right c) q - vx pos) (dot (upVector c) q - vy pos)
             (- dot (forward c) q - vz pos) 1).
Proof.
  intros Hd Hc c.
  assert (Hb : basisOrthonormal c).
  { unfold c, Camera_new. apply updateVectors_orthonormal; assumption. }
  destruct Hb as [(Hf & Hr & Hu) (Hfr & Hfu & Hru)].
  assert (Hff : dot (forward c) (forward c) = 1) by (rewrite <- length_sqr, Hf; ring).
  assert (Hrr : dot (right c) (right c) = 1) by (rewrite <- length_sqr, Hr; ring).
  assert (Huu : dot (upVector c) (upVector c) = 1) by (rewrite <- length_sqr, Hu; ring).
  assert (Hpos : position c = pos) by reflexivity.
  unfold getViewMatrix, apply4, direction4, point4. cbv zeta.
  cbn [row0 row1 row2 row3 v0 v1 v2 v3]. rewrite Hpos.
  clear Hf Hr Hu Hpos.
  set (f := forward c) in *. set (r := right c) in *. set (u := upVector c) in *.
  clearbody f r u.
  destruct f as [fx fy fz], r as [rx ry rz], u as [ux uy uz].
  unfold dot, vneg, fzero, fone in *; simpl in *.
  split; [|split; [|split; [|intros q]]]; f_equal; lra.
Qed.

(** The theorem at the camera of main.cpp. *)
Lemma getViewMatrix_basis_witness :
  let c := Camera_new (mkVec3 0 10 20) (mkVec3 0 0 0) (mkVec3 0 1 0)
                      60 (800 / 600) (1 / 10) 1000 in
  apply4 (getViewMatrix c) (direction4 (forward c)) = mkVec4 0 0 (-1) 0.
Proof.
  assert (Hd : mkVec3 0 0 0 <> mkVec3 0 10 20 :> Vec3 R).
  { intros E. inversion E. lra. }
  assert (Hc : cross (vsub (mkVec3 0 0 0) (mkVec3 0 10 20)) (mkVec3 0 1 0) <> zero3).
  { unfold cross, vsub, zero3; simpl. intros E. inversion E. lra. }
  apply (proj1 (proj2 (proj2 (@getViewMatrix_basis (mkVec3 0 10 20) (mkVec3 0 0 0)
                                (mkVec3 0 1 0) 60 (800 / 600) (1 / 10) 1000 Hd Hc)))).
Defined.

(** X22.  [getProjectionMatrix] in real arithmetic, for a camera whose
    near and far planes differ and are not zero and whose aspect ratio
    and tan(fov / 2) are not zero: a point (x, y, z) gets the fourth
    coordinate -z; after the division by it, a point of the near plane
    z = -near has depth -1 and one of the far plane z = -far has depth 1,
    and the points with x = aspect tan(fov / 2) (-z) and with
    y = tan(fov / 2) (-z) have the first and the second coordinate 1. *)
Theorem getProjectionMatrix_frustum (c : Camera R) (x y z : R) :
  nearPlane c <> farPlane c -> nearPlane c <> 0 -> farPlane c <> 0 ->
  aspectRatio c <> 0 -> tan (fov c * PI / 180 / 2) <> 0 -> z <> 0 ->
  let t := tan (fov c * PI / 180 / 2) in
  let clip q := apply4 (getProjectionMatrix c) (point4 q) in
  v3 (clip (mkVec3 x y z)) = - z /\
  v2 (clip (mkVec3 x y (- nearPlane c))) / v3 (clip (mkVec3 x y (- nearPlane c))) = -1 /\
  v2 (clip (mkVec3 x y (- farPlane c))) / v3 (clip (mkVec3 x y (- farPlane c))) = 1 /\
  v0 (clip (mkVec3 (aspectRatio c * t * - z) y z))
  / v3 (clip (mkVec3 (aspectRatio c * t * - z) y z)) = 1 /\
  v1 (clip (mkVec3 x (t * - z) z)) / v3 (clip (mkVec3 x (t * - z) z)) = 1.
Proof.
  intros Hnf Hn Hf Ha Ht Hz t clip. unfold clip, getProjectionMatrix, apply4, point4.
  cbv zeta. cbn [row0 row1 row2 row3 v0 v1 v2 v3 vx vy vz].
  unfold fzero, fone. cbn [fofZ fadd fsub fmul fdiv fopp ftan fpi arith libm].
  fold t.
  assert (Hd : farPlane c - nearPlane c <> 0) by lra.
  repeat split; field; repeat split; assumption || lra.
Qed.

(** The theorem at a camera with a field of view of 90 degrees, the
    aspect ratio 2 and the planes 1 and 3. *)
Lemma getProjectionMatrix_frustum_witness :
  let c := mkCamera zero3 zero3 zero3 90 2 1 3 zero3 zero3 zero3 in
  v3 (apply4 (getProjectionMatrix c) (point4 (mkVec3 1 1 (-2)))) = - -2.
Proof.
  assert (Ht : tan (90 * PI / 180 / 2) <> 0).
  { replace (90 * PI / 180 / 2) with (PI / 4) by field. rewrite tan_PI4. lra. }
  assert (H13 : (1 : R) <> 3) by lra.
  assert (H1 : (1 : R) <> 0) by lra.
  assert (H3 : (3 : R) <> 0) by lra.
  assert (H2 : (2 : R) <> 0) by lra.
  assert (Hz : (-2 : R) <> 0) by lra.
  apply (proj1 (@getProjectionMatrix_frustum
                  (mkCamera zero3 zero3 zero3 90 2 1 3 zero3 zero3 zero3)
                  1 1 (-2) H13 H1 H3 H2 Ht Hz)).
Defined.
End MatrixFacts.

(** ** volume_render.cpp: the pixel buffer *)

Section PixelBuffer.
Context {F : Type} {A : Arith F} {L : Libm F}.

(** X23.  The pixel loop of [main] in volume_render.cpp, in any
    arithmetic, for an image whose number of pixels is a value of [int]:
    the stores [pixels[y * width + x] = ...] of the two loops fall in the
    buffer of width * height colours, no store overwrites another, and
    when the loop ends the colour at index y * width + x is the one
    traced for the ray through u = (x + 0.5) / width and
    v = (y + 0.5) / height, so row 0 of the image is the row v nearest to
    0; the loop fails only where a march does. *)
Theorem renderStores_pixels (fuel : nat) (camera : Camera F)
  (renderer : VolumeRenderer F) (width height : Z) :
  (0 <= width)%Z -> (0 <= height)%Z -> (width * height < 2 ^ 31)%Z ->
  (forall pixels : list (Vec3 F),
      renderStores fuel camera renderer width height = Some pixels ->
      Z.of_nat (List.length pixels) = (width * height)%Z /\
      (forall (x y : Z) (d : Vec3 F),
          (0 <= x < width)%Z -> (0 <= y < height)%Z ->
          trace renderer fuel
                (getRay camera ((fofZ x + flit 1 2) / fofZ width)%ar
                               ((fofZ y + flit 1 2) / fofZ height)%ar)
          = Some (nth (Z.to_nat (y * width + x)) pixels d))) /\
  (renderStores fuel camera renderer width height = None ->
   exists x y : Z,
     (0 <= x < width)%Z /\ (0 <= y < height)%Z /\
     trace renderer fuel
           (getRay camera ((fofZ x + flit 1 2) / fofZ width)%ar
                          ((fofZ y + flit 1 2) / fofZ height)%ar) = None).
Proof.
  intros Hw Hh Hn. rewrite (renderStores_renderImage _ _ _ Hw Hh Hn). split.
  - intros pixels Hr. unfold renderImage in Hr. split.
    + rewrite (mapM_length _ _ Hr), length_pixelCoords. nia.
    + intros x y d Hx Hy.
      pose proof (@mapM_nth _ _ (renderPixel fuel camera renderer width height)
                    (pixelCoords width height) pixels (0, 0)%Z d
                    (Z.to_nat (y * width + x)) Hr) as Hnth.
      rewrite (pixelCoords_row_major Hx Hy) in Hnth. apply Hnth.
      rewrite length_pixelCoords. nia.
  - unfold renderImage. intros Hnone.
    assert (Hin : forall l : list (Z * Z),
               mapM (renderPixel fuel camera renderer width height) l = None ->
               exists xy, In xy l /\
                          renderPixel fuel camera renderer width height xy = None).
    { induction l as [|a l IH]; cbn [mapM]; [discriminate|].
      destruct (renderPixel fuel camera renderer width height a) eqn:Ea.
      - destruct (mapM _ l); [discriminate|]. intros _.
        destruct (IH eq_refl) as (xy & Hxy & E). exists xy. split; [right|]; assumption.
      - intros _. exists a. split; [left; reflexivity | exact Ea]. }
    destruct (Hin _ Hnone) as ([x y] & Hxy & E).
    destruct (In_nth_error _ _ Hxy) as [i Hi].
    destruct (pixelCoords_index _ _ _ Hi) as (_ & Hx & Hy).
    exists x, y. split; [exact Hx|]. split; [exact Hy | exact E].
Qed.
End PixelBuffer.

(** The theorem at an image of 2 x 1 of a fog of density 1 seen by the
    camera of [main], in real arithmetic: the loop ends once the fuel is
    large enough, and the second entry of the buffer is the colour of the
    pixel x = 1, y = 0. *)
Lemma renderStores_pixels_witness :
  exists N : nat, forall fuel, (N <= fuel)%nat ->
    exists pixels : list (Vec3 R),
      renderStores fuel Scene.mainCamera (Scene.fog 1) 2 1 = Some pixels /\
      Z.of_nat (List.length pixels) = 2%Z /\
      trace (Scene.fog 1) fuel
            (getRay Scene.mainCamera ((fofZ 1 + flit 1 2) / fofZ 2)%ar
                                     ((fofZ 0 + flit 1 2) / fofZ 1)%ar)
      = Some (nth 1 pixels (Vec3_1 fzero)).
Proof.
  assert (Hw : (0 <= 2)%Z) by lia.
  assert (Hh : (0 <= 1)%Z) by lia.
  assert (Hn : (2 * 1 < 2 ^ 31)%Z) by lia.
  assert (Hstep : (0 < stepSize (Scene.fog 1))%R) by (simpl; lra).
  destruct (@renderImage_total Scene.mainCamera (Scene.fog 1) 2 1 Hstep) as [N HN].
  exists N. intros fuel Hfuel.
  destruct (HN fuel Hfuel) as (pixels & Hr & _).
  rewrite <- (renderStores_renderImage fuel Scene.mainCamera (Scene.fog 1) Hw Hh Hn) in Hr.
  destruct (proj1 (@renderStores_pixels R _ _ fuel Scene.mainCamera (Scene.fog 1) 2 1
                     Hw Hh Hn) pixels Hr) as [Hlen Hpix].
  exists pixels. split; [exact Hr|]. split; [exact Hlen|].
  apply (Hpix 1%Z 0%Z (Vec3_1 fzero)); lia.
Defined.
